(** * Debug-information correlation engine: a shallow embedding

    The Python helpers of the correlation engine are embedded function by
    function:

    - [leb128.u.decode]                      (scripts/helper/leb128.py)
    - [wasm_parser.get_code_section_impl]    (scripts/helper/wasm_parser.py)
    - [wat_parser.offset_to_position], [wat_parser.split_sub_expr],
      [wat_parser.extract_func]              (wasm-compiler/scripts/helper/wat_parser.py)
    - [lib_dwarf.DWO], [lib_dwarf.get_wasm_wat_mapping]
                                             (scripts/helper/lib_dwarf.py)
    - [dwarf.decode_dwarf], [dwarf.analyze_debug_info_in_dwarf]
                                             (scripts/helper/dwarf.py)
    - [leb128.i.decode], [wasm_parser.get_func_offsets],
      [wasm_parser.get_wasm_op_code_str], [wat_parser.has_memory]
                                             (the same files)
    - [explorer_server.analyze_wat]          (scripts/explorer_server.py)
    - [dis.parse_config_str], [dis.process_dis_output]
                                             (wasm-compiler/scripts/helper/dis.py)

    Python integers are [Z]; [bytes] values are lists of [Z]; a [str] is the
    list of its code points; a raised exception is the [Raise] outcome of the
    result type [Py.res]. *)

From stdpp Require Import gmap list strings pretty.
From Stdlib Require Import ZArith Lia.

Local Open Scope Z_scope.

(** ** Python values, exceptions and sequence primitives *)

Module Py.

(** The exceptions the embedded code can raise. *)
Inductive exn : Type :=
| AssertionError
| IndexError
| KeyError (k : Z)
| TypeError
| UnicodeDecodeError
| JSONDecodeError
| GuestTrap.

(** Outcome of running a piece of Python code. *)
Inductive res (A : Type) : Type :=
| Ok (a : A)
| Raise (e : exn).
Arguments Ok {A} a.
Arguments Raise {A} e.

Definition bind {A B} (r : res A) (k : A -> res B) : res B :=
  match r with
  | Ok a => k a
  | Raise e => Raise e
  end.

Definition is_ok {A} (r : res A) : bool :=
  match r with Ok _ => true | Raise _ => false end.

(** [len(s)] *)
Definition len {A} (s : list A) : Z := Z.of_nat (length s).

(** [s[i]]: a negative index counts from the end, an index out of range
    raises [IndexError]. *)
Definition index {A} (s : list A) (i : Z) : res A :=
  let j := if i <? 0 then i + len s else i in
  if (0 <=? j) && (j <? len s) then
    match s !! Z.to_nat j with
    | Some x => Ok x
    | None => Raise IndexError
    end
  else Raise IndexError.

(** Normalisation of one slice bound against the length [n]. *)
Definition clamp (n i : Z) : Z :=
  let j := if i <? 0 then i + n else i in
  Z.max 0 (Z.min n j).

(** [s[lo:hi]]: never raises, bounds are clamped. *)
Definition slice {A} (s : list A) (lo hi : Z) : list A :=
  let l := clamp (len s) lo in
  let h := clamp (len s) hi in
  take (Z.to_nat (h - l)) (drop (Z.to_nat l) s).

End Py.

Import Py.

#[global] Instance res_ret : MRet res := @Ok.
#[global] Instance res_bind : MBind res := fun A B k r => Py.bind r k.

(** ** scripts/helper/leb128.py *)

Module leb128.

Definition MAX_LENGTH : Z := 10.

Module u.

(** The [for i, e in enumerate(b)] loop of [u.decode].  [i] is the index of
    the element at the head of [b], [r] the accumulator and [last] the value
    of the Python variable [i] before this iteration ([None] before the
    first one).  The result is the final [(r, i)]. *)
Fixpoint decode_loop (b : list Z) (i : Z) (r : Z) (last : option Z)
  : Z * option Z :=
  match b with
  | [] => (r, last)
  | e :: b' =>
      let r' := r + Z.shiftl (Z.land e 0x7F) (i * 7) in
      if Z.land e 0x80 =? 0x00 then (r', Some i)
      else decode_loop b' (i + 1) r' (Some i)
  end.

(** [leb128.u.decode(b)]; [assert i is not None] fails when the loop has
    not run. *)
Definition decode (b : list Z) : res (Z * Z) :=
  match decode_loop b 0 0 None with
  | (r, Some i) => Ok (r, i + 1)
  | (_, None) => Raise AssertionError
  end.

End u.

Module i.

(** The loop of [i.decode]: as for [u.decode], with the last element seen
    remembered beside its index ([last] is the pair of the Python variables
    [(i, e)], [None] before the first iteration). *)
Fixpoint decode_loop (b : list Z) (i : Z) (r : Z) (last : option (Z * Z))
  : Z * option (Z * Z) :=
  match b with
  | [] => (r, last)
  | e :: b' =>
      let r' := r + Z.shiftl (Z.land e 0x7F) (i * 7) in
      if Z.land e 0x80 =? 0x00 then (r', Some (i, e))
      else decode_loop b' (i + 1) r' (Some (i, e))
  end.

(** [leb128.i.decode(b)].  In [-(1 << (i * 7) + 7)] the sum binds tighter
    than the shift: the mask is [-(1 << (i * 7 + 7))]. *)
Definition decode (b : list Z) : res (Z * Z) :=
  match decode_loop b 0 0 None with
  | (r, Some (i, e)) =>
      let r := if negb (Z.land e 0x40 =? 0)
               then Z.lor r (- Z.shiftl 1 (i * 7 + 7))
               else r in
      Ok (r, i + 1)
  | (_, None) => Raise AssertionError
  end.

End i.

(** The value carried by the 7-bit groups of [b], the group at the head
    having index [i]: the sum of [(e & 0x7F) * 2^(7*i)]. *)
Fixpoint groups_value (i : Z) (b : list Z) : Z :=
  match b with
  | [] => 0
  | e :: b' => Z.shiftl (Z.land e 0x7F) (i * 7) + groups_value (i + 1) b'
  end.

(** Every byte of [b] has the continuation bit set. *)
Definition all_continue (b : list Z) : bool :=
  forallb (fun e => negb (Z.land e 0x80 =? 0x00)) b.

(** [b] is a terminated encoding: all bytes but the last have the
    continuation bit set, the last one has it clear. *)
Fixpoint terminated (b : list Z) : bool :=
  match b with
  | [] => false
  | [e] => Z.land e 0x80 =? 0x00
  | e :: b' => negb (Z.land e 0x80 =? 0x00) && terminated b'
  end.

End leb128.

(** ** scripts/helper/wasm_parser.py: locating the code section *)

Module wasm_parser.

Definition CODE_SECTION_ID : Z := 10.

(** The [while pos < len(wasm)] loop of [get_code_section_impl].  Every
    iteration advances [pos], so the loop is bounded by the length of the
    buffer; [None] is returned only when [fuel] iterations were not
    enough.  The function is embedded as a pure one: its [logging.debug]
    line per section is left out. *)
Fixpoint get_code_section_loop (fuel : nat) (wasm : list Z) (pos : Z)
  : option (res (Z * Z)) :=
  if pos <? len wasm then
    match fuel with
    | O => None
    | S fuel' =>
        match index wasm pos with
        | Raise e => Some (Raise e)
        | Ok section_id =>
            let pos := pos + 1 in
            match leb128.u.decode (slice wasm pos (pos + leb128.MAX_LENGTH)) with
            | Raise e => Some (Raise e)
            | Ok (length, leb128_length) =>
                let pos := pos + leb128_length in
                if section_id =? CODE_SECTION_ID then
                  match leb128.u.decode
                          (slice wasm pos (pos + leb128.MAX_LENGTH)) with
                  | Raise e => Some (Raise e)
                  | Ok (function_count, leb128_length) =>
                      let pos := pos + leb128_length in
                      Some (Ok (pos, function_count))
                  end
                else get_code_section_loop fuel' wasm (pos + length)
            end
        end
    end
  else Some (Raise AssertionError).

(** [get_code_section_impl(wasm)].  The fuel [length wasm] always suffices
    (lemma [get_code_section_loop_total] below), so the default is never
    used. *)
Definition get_code_section_impl (wasm : list Z) : res (Z * Z) :=
  default (Raise AssertionError)
          (get_code_section_loop (length wasm) wasm 8).

(** [get_code_section(wasm)] *)
Definition get_code_section (wasm : list Z) : res Z :=
  match get_code_section_impl wasm with
  | Ok (pos, _) => Ok pos
  | Raise e => Raise e
  end.

(** The cases of the [match (op)] of [wasm_opcode_to_str], in source order. *)
Definition opcode_table : list (Z * string) := [
  (0x00, "unreachable"); (0x01, "nop"); (0x02, "block"); (0x03, "loop");
  (0x04, "if"); (0x05, "else"); (0x0B, "end"); (0x0C, "br");
  (0x0D, "br_if"); (0x0E, "br_table"); (0x0F, "return"); (0x10, "call");
  (0x11, "call_indirect"); (0x1A, "drop"); (0x1B, "select");
  (0x20, "local.get"); (0x21, "local.set"); (0x22, "local.tee");
  (0x23, "global.get"); (0x24, "global.set"); (0x25, "table.get");
  (0x26, "table.set"); (0x28, "i32.load"); (0x29, "i64.load");
  (0x2A, "f32.load"); (0x2B, "f64.load"); (0x2C, "i32.load8_s");
  (0x2D, "i32.load8_u"); (0x2E, "i32.load16_s"); (0x2F, "i32.load16_u");
  (0x30, "i64.load8_s"); (0x31, "i64.load8_u"); (0x32, "i64.load16_s");
  (0x33, "i64.load16_u"); (0x34, "i64.load32_s"); (0x35, "i64.load32_u");
  (0x36, "i32.store"); (0x37, "i64.store"); (0x38, "f32.store");
  (0x39, "f64.store"); (0x3A, "i32.store8"); (0x3B, "i32.store16");
  (0x3C, "i64.store8"); (0x3D, "i64.store16"); (0x3E, "i64.store32");
  (0x3F, "memory.size"); (0x40, "memory.grow"); (0x41, "i32.const");
  (0x42, "i64.const"); (0x43, "f32.const"); (0x44, "f64.const");
  (0x45, "i32.eqz"); (0x46, "i32.eq"); (0x47, "i32.ne");
  (0x48, "i32.lt_s"); (0x49, "i32.lt_u"); (0x4A, "i32.gt_s");
  (0x4B, "i32.gt_u"); (0x4C, "i32.le_s"); (0x4D, "i32.le_u");
  (0x4E, "i32.ge_s"); (0x4F, "i32.ge_u"); (0x50, "i64.eqz");
  (0x51, "i64.eq"); (0x52, "i64.ne"); (0x53, "i64.lt_s");
  (0x54, "i64.lt_u"); (0x55, "i64.gt_s"); (0x56, "i64.gt_u");
  (0x57, "i64.le_s"); (0x58, "i64.le_u"); (0x59, "i64.ge_s");
  (0x5A, "i64.ge_u"); (0x5B, "f32.eq"); (0x5C, "f32.ne"); (0x5D, "f32.lt");
  (0x5E, "f32.gt"); (0x5F, "f32.le"); (0x60, "f32.ge"); (0x61, "f64.eq");
  (0x62, "f64.ne"); (0x63, "f64.lt"); (0x64, "f64.gt"); (0x65, "f64.le");
  (0x66, "f64.ge"); (0x67, "i32.clz"); (0x68, "i32.ctz");
  (0x69, "i32.popcnt"); (0x6A, "i32.add"); (0x6B, "i32.sub");
  (0x6C, "i32.mul"); (0x6D, "i32.div_s"); (0x6E, "i32.div_u");
  (0x6F, "i32.rem_s"); (0x70, "i32.rem_u"); (0x71, "i32.and");
  (0x72, "i32.or"); (0x73, "i32.xor"); (0x74, "i32.shl");
  (0x75, "i32.shr_s"); (0x76, "i32.shr_u"); (0x77, "i32.rotl");
  (0x78, "i32.rotr"); (0x79, "i64.clz"); (0x7A, "i64.ctz");
  (0x7B, "i64.popcnt"); (0x7C, "i64.add"); (0x7D, "i64.sub");
  (0x7E, "i64.mul"); (0x7F, "i64.div_s"); (0x80, "i64.div_u");
  (0x81, "i64.rem_s"); (0x82, "i64.rem_u"); (0x83, "i64.and");
  (0x84, "i64.or"); (0x85, "i64.xor"); (0x86, "i64.shl");
  (0x87, "i64.shr_s"); (0x88, "i64.shr_u"); (0x89, "i64.rotl");
  (0x8A, "i64.rotr"); (0x8B, "f32.abs"); (0x8C, "f32.neg");
  (0x8D, "f32.ceil"); (0x8E, "f32.floor"); (0x8F, "f32.trunc");
  (0x90, "f32.nearest"); (0x91, "f32.sqrt"); (0x92, "f32.add");
  (0x93, "f32.sub"); (0x94, "f32.mul"); (0x95, "f32.div");
  (0x96, "f32.min"); (0x97, "f32.max"); (0x98, "f32.copysign");
  (0x99, "f64.abs"); (0x9A, "f64.neg"); (0x9B, "f64.ceil");
  (0x9C, "f64.floor"); (0x9D, "f64.trunc"); (0x9E, "f64.nearest");
  (0x9F, "f64.sqrt"); (0xA0, "f64.add"); (0xA1, "f64.sub");
  (0xA2, "f64.mul"); (0xA3, "f64.div"); (0xA4, "f64.min");
  (0xA5, "f64.max"); (0xA6, "f64.copysign"); (0xA7, "i32.wrap_i64");
  (0xA8, "i32.trunc_f32_s"); (0xA9, "i32.trunc_f32_u");
  (0xAA, "i32.trunc_f64_s"); (0xAB, "i32.trunc_f64_u");
  (0xAC, "i64.extend_i32_s"); (0xAD, "i64.extend_i32_u");
  (0xAE, "i64.trunc_f32_s"); (0xAF, "i64.trunc_f32_u");
  (0xB0, "i64.trunc_f64_s"); (0xB1, "i64.trunc_f64_u");
  (0xB2, "f32.convert_i32_s"); (0xB3, "f32.convert_i32_u");
  (0xB4, "f32.convert_i64_s"); (0xB5, "f32.convert_i64_u");
  (0xB6, "f32.demote_f64"); (0xB7, "f64.convert_i32_s");
  (0xB8, "f64.convert_i32_u"); (0xB9, "f64.convert_i64_s");
  (0xBA, "f64.convert_i64_u"); (0xBB, "f64.promote_f32");
  (0xBC, "i32.reinterpret_f32"); (0xBD, "i64.reinterpret_f64");
  (0xBE, "f32.reinterpret_i32"); (0xBF, "f64.reinterpret_i64");
  (0xC0, "i32.extend8_s"); (0xC1, "i32.extend16_s");
  (0xC2, "i64.extend8_s"); (0xC3, "i64.extend16_s");
  (0xC4, "i64.extend32_s"); (0xD0, "ref.null"); (0xD1, "ref.is_null");
  (0xD2, "ref.func"); (0xFC08, "memory.init"); (0xFC09, "data.drop");
  (0xFC0A, "memory.copy"); (0xFC0B, "memory.fill"); (0xFC0C, "table.init");
  (0xFC0D, "element.drop"); (0xFC0E, "table.copy"); (0xFC0F, "table.grow");
  (0xFC10, "table.size"); (0xFC11, "table.fill")
]%string.

Fixpoint opcode_lookup (t : list (Z * string)) (op : Z) : option string :=
  match t with
  | [] => None
  | (k, name) :: t' => if op =? k then Some name else opcode_lookup t' op
  end.

Definition hex_digit (d : Z) : string :=
  String.substring (Z.to_nat d) 1 "0123456789abcdef".

Fixpoint hex_digits (fuel : nat) (n : Z) (acc : string) : string :=
  match fuel with
  | O => acc
  | S fuel' =>
      let acc := (hex_digit (n mod 16) +:+ acc)%string in
      if n / 16 =? 0 then acc else hex_digits fuel' (n / 16) acc
  end.

(** [hex(n)] *)
Definition hex (n : Z) : string :=
  let digits := hex_digits (S (Z.to_nat (Z.log2 (Z.abs n)))) (Z.abs n) "" in
  if n <? 0 then ("-0x" +:+ digits)%string else ("0x" +:+ digits)%string.

(** [wasm_opcode_to_str(op)] *)
Definition wasm_opcode_to_str (op : Z) : string :=
  match opcode_lookup opcode_table op with
  | Some name => name
  | None => ("unknown_opcode_" +:+ hex op)%string
  end.

(** [int.from_bytes(b, "big")] *)
Definition int_from_bytes_big (b : list Z) : Z :=
  foldl (fun acc e => acc * 256 + e) 0 b.

(** [get_wasm_op_code_str(wasm, offset)] *)
Definition get_wasm_op_code_str (wasm : list Z) (offset : Z) : res string :=
  op ← index wasm offset;
  if negb (op =? 0xFC) then Ok (wasm_opcode_to_str op)
  else Ok (wasm_opcode_to_str (int_from_bytes_big (slice wasm offset (offset + 2)))).

(** [get_func_offsets(wasm)]: the loop [for _ in range(function_count)]. *)
Fixpoint get_func_offsets_loop (n : nat) (wasm : list Z) (code_section_pos : Z)
  (results : list Z) : res (list Z) :=
  match n with
  | O => Ok results
  | S n' =>
      '(function_body_size, leb128_length) ←
        leb128.u.decode
          (slice wasm code_section_pos (code_section_pos + leb128.MAX_LENGTH));
      let code_section_pos := code_section_pos + leb128_length in
      get_func_offsets_loop n' wasm (code_section_pos + function_body_size)
                            (results ++ [code_section_pos])
  end.

Definition get_func_offsets (wasm : list Z) : res (list Z) :=
  '(code_section_pos, function_count) ← get_code_section_impl wasm;
  get_func_offsets_loop (Z.to_nat function_count) wasm code_section_pos [].

End wasm_parser.

(** ** Python [str] values *)

Module Str.

(** A [str] is the list of its code points. *)
Definition codes (s : string) : list Z :=
  map (fun a => Z.of_N (Ascii.N_of_ascii a)) (String.list_ascii_of_string s).

(** The [sep.join(parts)] of Python for a one-character separator. *)
Fixpoint join (sep : Z) (parts : list (list Z)) : list Z :=
  match parts with
  | [] => []
  | [p] => p
  | p :: parts' => p ++ sep :: join sep parts'
  end.

(** [s.split(sep)] for a one-character separator: the result is never
    empty, and has one more element than [s] has separators. *)
Fixpoint split (sep : Z) (s : list Z) : list (list Z) :=
  match s with
  | [] => [[]]
  | c :: s' =>
      if c =? sep then [] :: split sep s'
      else match split sep s' with
           | [] => [[c]]
           | p :: ps => (c :: p) :: ps
           end
  end.

(** [str.isspace] on one code point, which is what [str.strip()] removes. *)
Definition isspace (c : Z) : bool :=
  ((0x09 <=? c) && (c <=? 0x0D)) || ((0x1C <=? c) && (c <=? 0x20))
  || (c =? 0x85) || (c =? 0xA0) || (c =? 0x1680)
  || ((0x2000 <=? c) && (c <=? 0x200A))
  || (c =? 0x2028) || (c =? 0x2029) || (c =? 0x202F) || (c =? 0x205F)
  || (c =? 0x3000).

Fixpoint lstrip (s : list Z) : list Z :=
  match s with
  | [] => []
  | c :: s' => if isspace c then lstrip s' else s
  end.

(** [s.strip()] *)
Definition strip (s : list Z) : list Z :=
  reverse (lstrip (reverse (lstrip s))).

(** [s.startswith(p)] *)
Fixpoint startswith (s p : list Z) : bool :=
  match p, s with
  | [], _ => true
  | _ :: _, [] => false
  | a :: p', c :: s' => (c =? a) && startswith s' p'
  end.

End Str.

(** ** wasm-compiler/scripts/helper/wat_parser.py *)

Module wat_parser.

(** The [for line_number in range(len(lines))] loop of [offset_to_position];
    [rest] is [lines[line_number:]].  [None] means that the loop ran to its
    end without returning. *)
Fixpoint offset_to_position_loop
  (rest : list (list Z)) (line_number cursor offset : Z) : option (Z * Z) :=
  match rest with
  | [] => None
  | line :: rest' =>
      let old_cursor := cursor in
      let cursor := cursor + (len line + 1) in
      if (offset >=? old_cursor) && (offset <? cursor)
      then Some (line_number, offset - old_cursor)
      else offset_to_position_loop rest' (line_number + 1) cursor offset
  end.

(** [offset_to_position(lines, offset)] *)
Definition offset_to_position (lines : list (list Z)) (offset : Z) : Z * Z :=
  match offset_to_position_loop lines 0 0 offset with
  | Some p => p
  | None => (len lines, 0)
  end.

(** The characters consumed by a list of lines: the length plus one
    terminator of each. *)
Definition consumed (lines : list (list Z)) : Z :=
  foldr (fun l acc => len l + 1 + acc) 0 lines.

(** The offset that a position [(line, column)] stands for: what the lines
    before [line] consume, plus [column]. *)
Definition position_to_offset (lines : list (list Z)) (p : Z * Z) : Z :=
  consumed (take (Z.to_nat (fst p)) lines) + snd p.

(** [class Range]: the closed interval [[start, end]]. *)
Record Range : Type := mkRange { Range_start : Z; Range_end : Z }.

(** The local variables of [split_sub_expr]. *)
Record scan : Type := mkScan {
  subs : list Range;
  current_start : option Z;
  depth : Z
}.

(** One iteration of the loop of [split_sub_expr], at index [i]. *)
Definition split_step (wat : list Z) (st : scan) (i : Z) : res scan :=
  c ← index wat i;
  if c =? 40 (* "(" *) then
    let depth := depth st + 1 in
    if depth =? 1
    then Ok (mkScan (subs st) (Some i) depth)
    else Ok (mkScan (subs st) (current_start st) depth)
  else if c =? 41 (* ")" *) then
    let depth := depth st - 1 in
    if depth =? 0 then
      match current_start st with
      | None => Raise AssertionError
      | Some s => Ok (mkScan (subs st ++ [mkRange s i]) None depth)
      end
    else Ok (mkScan (subs st) (current_start st) depth)
  else Ok st.

(** What the scan maintains: inside a form of depth one or more, the start
    of the enclosing depth-one form is known.  This is why the assertion of
    [split_sub_expr] cannot fail. *)
Definition start_known (st : scan) : Prop :=
  1 <= depth st -> is_Some (current_start st).

Fixpoint split_loop (wat : list Z) (st : scan) (idx : list Z) : res scan :=
  match idx with
  | [] => Ok st
  | i :: idx' => st' ← split_step wat st i; split_loop wat st' idx'
  end.

(** [range(a, b)] *)
Definition range (a b : Z) : list Z := seqZ a (b - a).

(** [split_sub_expr(wat, r)] *)
Definition split_sub_expr (wat : list Z) (r : Range) : res (list Range) :=
  st ← split_loop wat (mkScan [] None (-1))
                  (range (Range_start r) (Range_end r + 1));
  Ok (subs st).

(** [get_sub_expr(wat, r)] *)
Definition get_sub_expr (wat : list Z) (r : Range) : list Z :=
  Str.strip (slice wat (Range_start r + 1) (Range_end r)).

(** [extract_func_impl(wat, extract_range)] *)
Definition extract_func_impl (wat : list Z) (extract_range : Range)
  : res (list Range) :=
  if len wat =? 0 then Raise AssertionError
  else
    sub_ranges ← split_sub_expr wat extract_range;
    Ok (List.filter
          (fun sub_range =>
             Str.startswith (get_sub_expr wat sub_range) (Str.codes "func"))
          sub_ranges).

(** [extract_func(wat)] *)
Definition extract_func (wat : list Z) : res (list Range) :=
  extract_func_impl wat (mkRange 0 (len wat - 1)).

(** [has_memory(wat)] *)
Definition has_memory (wat : list Z) : res bool :=
  sub_ranges ← split_sub_expr wat (mkRange 0 (len wat - 1));
  Ok (existsb (fun sub_range =>
                 Str.startswith (get_sub_expr wat sub_range)
                                (Str.codes "memory"))
              sub_ranges).

(** [Range.to_string(self, wat)] *)
Definition Range_to_string (r : Range) (wat : list Z) : list Z :=
  slice wat (Range_start r) (Range_end r + 1).

(** [Range.valid(self)] *)
Definition Range_valid (r : Range) : bool :=
  negb (Range_start r =? -1) && negb (Range_end r =? -1).

(** Ranges of parenthesised forms of [wat], in source order and one after
    the other, all inside [[lo, hi)]: each starts on an opening parenthesis
    and ends, further on, on a closing one. *)
Fixpoint ordered_forms (wat : list Z) (lo hi : Z) (rs : list Range) : Prop :=
  match rs with
  | [] => lo <= hi
  | r :: rs' =>
      lo <= Range_start r /\ Range_start r < Range_end r /\ Range_end r < hi
      /\ wat !! Z.to_nat (Range_start r) = Some 40
      /\ wat !! Z.to_nat (Range_end r) = Some 41
      /\ ordered_forms wat (Range_end r + 1) hi rs'
  end.

(** What the scan of [split_sub_expr] has established before index [i],
    scanning from [lo]: the ranges found so far, and the pending start if
    any, which lies after them. *)
Definition scanned (wat : list Z) (lo i : Z) (st : scan) : Prop :=
  exists b,
    ordered_forms wat lo b (subs st) /\ b <= i
    /\ (forall s, current_start st = Some s ->
          b <= s /\ s < i /\ wat !! Z.to_nat s = Some 40).



End wat_parser.

(** ** scripts/explorer_server.py: the positions of the functions *)

Module explorer_server.

(** [analyze_wat(wat)]: for every function range, the positions of its two
    ends (the values of the keys ["start"] and ["end"]). *)
Definition analyze_wat (wat : list Z) : res (list ((Z * Z) * (Z * Z))) :=
  func_ranges ← wat_parser.extract_func wat;
  let lines := Str.split 10 wat in
  Ok (map (fun func_range =>
             (wat_parser.offset_to_position lines
                (wat_parser.Range_start func_range),
              wat_parser.offset_to_position lines
                (wat_parser.Range_end func_range)))
          func_ranges).

End explorer_server.

(** ** wasm-compiler/scripts/helper/dis.py: the disassembly text *)

Module dis.

(** The exceptions of this file; its [KeyError] carries a [str]. *)
Inductive exn : Type :=
| AssertionError
| IndexError
| KeyError (key : list Z).

Inductive res (A : Type) : Type :=
| Ok (a : A)
| Raise (e : exn).
Arguments Ok {A} a.
Arguments Raise {A} e.

(** [sub in s] on strings. *)
Fixpoint contains (sub s : list Z) : bool :=
  Str.startswith s sub
  || match s with
     | [] => false
     | _ :: s' => contains sub s'
     end.

(** [s.replace(old, new)] for a non-empty [old]: the occurrences of [old]
    are replaced from left to right, without overlap.  [skip] counts the
    characters of the occurrence just replaced that are still to be
    dropped. *)
Fixpoint replace_from (old new : list Z) (skip : nat) (s : list Z) : list Z :=
  match s with
  | [] => []
  | c :: s' =>
      match skip with
      | S k => replace_from old new k s'
      | O =>
          if Str.startswith s old
          then new ++ replace_from old new (length old - 1) s'
          else c :: replace_from old new 0 s'
      end
  end.

Definition replace (s old new : list Z) : list Z := replace_from old new 0 s.

(** A [Dict[str, str]] is a [gmap (list Z) (list Z)]. *)
Definition BACKEND : list Z := Str.codes "BACKEND".

(** One iteration of the loop of [parse_config_str]. *)
Definition parse_config_item (config : gmap (list Z) (list Z))
           (config_item_str : list Z) : res (gmap (list Z) (list Z)) :=
  if contains [61] config_item_str then
    let config_item := Str.split 61 config_item_str in
    match config_item !! 0%nat with
    | None => Raise IndexError
    | Some key =>
        match config_item !! 1%nat with
        | None => Raise IndexError
        | Some value => Ok (<[key := value]> config)
        end
    end
  else Ok config.

Fixpoint parse_config_loop (items : list (list Z))
         (config : gmap (list Z) (list Z)) : res (gmap (list Z) (list Z)) :=
  match items with
  | [] => Ok config
  | config_item_str :: items' =>
      match parse_config_item config config_item_str with
      | Ok config' => parse_config_loop items' config'
      | Raise e => Raise e
      end
  end.

(** [parse_config_str(config_str)] *)
Definition parse_config_str (config_str : list Z)
  : res (gmap (list Z) (list Z)) :=
  match parse_config_loop (Str.split 32 config_str) ∅ with
  | Ok config =>
      if bool_decide (is_Some (config !! BACKEND)) then Ok config
      else Raise AssertionError
  | Raise e => Raise e
  end.

Definition MARKER : list Z :=
  Str.codes "Function or wrapper body, padded to 4B".
Definition LINEAR_MEMORY_BOUNDS_CHECKS : list Z :=
  Str.codes "LINEAR_MEMORY_BOUNDS_CHECKS".
Definition GENERIC_TRAP_HANDLER_BODY : list Z :=
  Str.codes "GenericTrapHandler Body".
Definition LANDING_PAD_BODY : list Z := Str.codes "LandingPad Body".
Definition EXTENSION_REQUEST_BODY : list Z :=
  Str.codes "ExtensionRequest Body".

(** [f"Function[{cnt}] Body"] *)
Definition function_body (cnt : Z) : list Z :=
  Str.codes "Function[" ++ Str.codes (pretty cnt) ++ Str.codes "] Body".

(** The local variables of [process_dis_output] that its loop changes. *)
Record locals : Type := mkLocals {
  dis_lines_list : list (list Z);
  need_to_replace_trap_handle : bool;
  need_to_replace_landing_pad : bool;
  need_to_replace_extension_request : bool;
  cnt : Z;
  func_positions : list Z
}.

(** [dis_lines_list[i] = dis_lines_list[i].replace(MARKER, name)] *)
Definition rename_body (i : nat) (line name : list Z) (ls : list (list Z))
  : list (list Z) :=
  <[i := replace line MARKER name]> ls.

(** The body of the loop at index [i].  The boolean is [false] when the
    iteration ends in [break]. *)
Definition loop_body (i : nat) (st : locals) : res (bool * locals) :=
  match dis_lines_list st !! i with
  | None => Raise IndexError
  | Some line =>
      if contains MARKER line then
        if need_to_replace_trap_handle st then
          Ok (true,
              mkLocals
                (rename_body i line GENERIC_TRAP_HANDLER_BODY
                   (dis_lines_list st))
                false
                (need_to_replace_landing_pad st)
                (need_to_replace_extension_request st)
                (cnt st) (func_positions st))
        else if need_to_replace_landing_pad st then
          Ok (true,
              mkLocals
                (rename_body i line LANDING_PAD_BODY (dis_lines_list st))
                (need_to_replace_trap_handle st)
                false
                (need_to_replace_extension_request st)
                (cnt st) (func_positions st))
        else if need_to_replace_extension_request st then
          Ok (true,
              mkLocals
                (rename_body i line EXTENSION_REQUEST_BODY
                   (dis_lines_list st))
                (need_to_replace_trap_handle st)
                (need_to_replace_landing_pad st)
                false
                (cnt st) (func_positions st))
        else
          Ok (true,
              mkLocals
                (rename_body i line (function_body (cnt st))
                   (dis_lines_list st))
                (need_to_replace_trap_handle st)
                (need_to_replace_landing_pad st)
                (need_to_replace_extension_request st)
                (cnt st + 1) (func_positions st ++ [Z.of_nat i]))
      else
        match line with
        | [] =>
            Ok (false,
                mkLocals
                  (dis_lines_list st)
                  (need_to_replace_trap_handle st)
                  (need_to_replace_landing_pad st)
                  (need_to_replace_extension_request st)
                  (cnt st) (func_positions st ++ [Z.of_nat i]))
        | _ :: _ => Ok (true, st)
        end
  end.

(** [for i in range(...)]: [indices] is what is left of the range. *)
Fixpoint loop (indices : list nat) (st : locals) : res locals :=
  match indices with
  | [] => Ok st
  | i :: indices' =>
      match loop_body i st with
      | Ok (true, st') => loop indices' st'
      | Ok (false, st') => Ok st'
      | Raise e => Raise e
      end
  end.

(** [process_dis_output(dis_lines, config, has_memory)].  The key is looked
    up twice in the source; the dictionary is not changed in between, so the
    second lookup gives what the first one gave. *)
Definition process_dis_output (dis_lines : list Z)
           (config : gmap (list Z) (list Z)) (has_memory : bool)
  : res (list Z * list Z) :=
  let lines := Str.split 10 dis_lines in
  match config !! LINEAR_MEMORY_BOUNDS_CHECKS with
  | None => Raise (KeyError LINEAR_MEMORY_BOUNDS_CHECKS)
  | Some checks =>
      let st :=
        mkLocals lines
                 true
                 (bool_decide (checks = Str.codes "0"))
                 (bool_decide (checks = Str.codes "1") && has_memory)
                 0 [] in
      match loop (seq 0 (length lines)) st with
      | Ok st' => Ok (Str.join 10 (dis_lines_list st'), func_positions st')
      | Raise e => Raise e
      end
  end.

(** *** Notions in which the properties of [process_dis_output] are stated *)

(** The index of the first empty line, the number of lines when there is
    none: the loop visits the lines before it. *)
Fixpoint first_empty (lines : list (list Z)) : nat :=
  match lines with
  | [] => 0
  | [] :: _ => 0
  | (_ :: _) :: lines' => S (first_empty lines')
  end.

Definition marker_at (lines : list (list Z)) (j : nat) : bool :=
  match lines !! j with
  | Some line => contains MARKER line
  | None => false
  end.

(** The indices below [n] of the lines that contain the marker. *)
Definition marker_indices (lines : list (list Z)) (n : nat) : list nat :=
  List.filter (marker_at lines) (seq 0 n).

(** The names that go to the first marker lines, in order. *)
Definition special_bodies (checks : list Z) (has_memory : bool)
  : list (list Z) :=
  GENERIC_TRAP_HANDLER_BODY
  :: (if bool_decide (checks = Str.codes "0") then [LANDING_PAD_BODY]
      else if bool_decide (checks = Str.codes "1") && has_memory
           then [EXTENSION_REQUEST_BODY]
           else []).

(** The names still to be given when the locals are [st]: one per flag that
    is set, in the order in which the loop tests the flags. *)
Definition pending (st : locals) : list (list Z) :=
  (if need_to_replace_trap_handle st then [GENERIC_TRAP_HANDLER_BODY] else [])
  ++ (if need_to_replace_landing_pad st then [LANDING_PAD_BODY] else [])
  ++ (if need_to_replace_extension_request st
      then [EXTENSION_REQUEST_BODY] else []).

(** The name of the marker line that has [r] marker lines before it, when
    the names [names] are given first and the numbering starts at [c]. *)
Definition body_name_from (names : list (list Z)) (c : Z) (r : nat) : list Z :=
  match names !! r with
  | Some name => name
  | None => function_body (c + Z.of_nat (r - length names))
  end.

(** The name of the marker line that has [r] marker lines before it. *)
Definition body_name (specials : list (list Z)) (r : nat) : list Z :=
  body_name_from specials 0 r.

(** A configuration item [key=value], with what follows a second [=]
    left aside. *)
Definition field (item key value : list Z) : Prop :=
  exists tail,
    item = key ++ 61 :: value ++ tail
    /\ (61 ∉ key) /\ (61 ∉ value)
    /\ (tail = [] \/ head tail = Some 61).

(** An item that sets [key]. *)
Definition sets_key (item key : list Z) : Prop :=
  exists rest, item = key ++ 61 :: rest /\ (61 ∉ key).

End dis.

(** ** The host process: guest instance, linear memory, log

    [lib_dwarf.py] instantiates the decoder module once, at import time; every
    later call goes through [call_func] and the exported linear memory.  The
    state of the process that the embedded code can read or change is the
    [world]: the linear memory, the rest of the instance's state, and, as
    observations, the sequence of host-to-guest events and the records
    handed to [logging]. *)

Module Host.

(** What the host does to the guest: a call of an export, with its
    arguments and its outcome, or the store of one byte into the linear
    memory. *)
Inductive event : Type :=
| Call (name : string) (args : list Z) (result : res Z)
| Store (addr : Z) (byte : Z).

(** The argument lists of the calls of export [name] among [evs], in
    order. *)
Definition calls_of (name : string) (evs : list event) : list (list Z) :=
  flat_map (fun ev => match ev with
                      | Call n args _ => if String.eqb n name then [args] else []
                      | Store _ _ => []
                      end) evs.

(** The values returned by the calls of export [name] among [evs]. *)
Definition returned (name : string) (evs : list event) : list Z :=
  flat_map (fun ev => match ev with
                      | Call n _ (Ok v) => if String.eqb n name then [v] else []
                      | _ => []
                      end) evs.

(** The stores among [evs], in order, as pairs of address and byte. *)
Definition stores_of (evs : list event) : list (Z * Z) :=
  flat_map (fun ev => match ev with
                      | Store addr byte => [(addr, byte)]
                      | Call _ _ _ => []
                      end) evs.

(** The records [dwarf.py] hands to [logging], by call site. *)
Inductive log_record : Type :=
| Debug_wasm_offset_to_machine_code_offset (m : gmap Z (list Z))
| Debug_wat_line_to_wasm_offset (m : list (Z * list Z))
| Debug_machine_code_offset_to_disassembly_line (m : gmap Z Z)
| Debug_wat_line (wat_line : Z) (wasm_offsets : list Z)
| Info_not_found (wasm_offset : Z) (wasm_opcode_str : string)
| Debug_machine_code_offsets
    (wat_line wasm_offset : Z) (machine_code_offsets : list string).

Record world (G : Type) : Type := mkWorld {
  memory : Z -> Z;
  instance : G;
  trace : list event;
  log : list log_record
}.
Arguments mkWorld {G} _ _ _ _.
Arguments memory {G} _ _.
Arguments instance {G} _.
Arguments trace {G} _.
Arguments log {G} _.

(** The behaviour of the guest's exports: the result of calling export
    [name] on [args] (a returned value, or a trap surfacing as a Python
    exception), and what the call does to the memory and to the instance. *)
Definition exports (G : Type) : Type :=
  string -> list Z -> (Z -> Z) -> G -> res Z * (Z -> Z) * G.

(** Computations of the host: they may change the world and may raise. *)
Definition M (G A : Type) : Type := world G -> res A * world G.

#[global] Instance M_ret {G} : MRet (M G) := fun A a w => (Ok a, w).
#[global] Instance M_bind {G} : MBind (M G) := fun A B k c w =>
  match c w with
  | (Ok a, w') => k a w'
  | (Raise e, w') => (Raise e, w')
  end.

(** A pure computation that may raise. *)
Definition lift {G A} (r : res A) : M G A := fun w => (r, w).

(** [logging.debug(...)] / [logging.info(...)] *)
Definition logging {G} (r : log_record) : M G unit := fun w =>
  (Ok tt, mkWorld (memory w) (instance w) (trace w) (log w ++ [r])).

End Host.

Import Host.

(** ** scripts/helper/lib_dwarf.py *)

Module lib_dwarf.

Section guest.
Context {G : Type}.
Variable guest : exports G.

(** [call_func(func_name, *args)] *)
Definition call_func (func_name : string) (args : list Z) : M G Z := fun w =>
  let '(r, mem, inst) := guest func_name args (memory w) (instance w) in
  (r, mkWorld mem inst (trace w ++ [Call func_name args r]) (log w)).

(** [read_from_linear_memory(ptr, size)]: the subscript of the memory's data
    pointer is an unchecked read of one cell. *)
Definition read_from_linear_memory (ptr size : Z) : M G (list Z) := fun w =>
  (Ok (map (fun i => memory w (ptr + i)) (wat_parser.range 0 size)), w).

(** One assignment [linear_memory.data_ptr(store)[addr] = byte]. *)
Definition store_byte (addr byte : Z) : M G unit := fun w =>
  (Ok tt,
   mkWorld (fun a => if a =? addr then byte else memory w a) (instance w)
           (trace w ++ [Store addr byte]) (log w)).

(** The stores of [write_to_linear_memory(ptr, data)], from index [i] on. *)
Fixpoint store_events (ptr i : Z) (data : list Z) : list event :=
  match data with
  | [] => []
  | e :: data' => Store (ptr + i) e :: store_events ptr (i + 1) data'
  end.

(** The loop of [write_to_linear_memory]; [i] is the index of the head of
    [data]. *)
Fixpoint write_loop (ptr i : Z) (data : list Z) : M G unit :=
  match data with
  | [] => mret tt
  | e :: data' => store_byte (ptr + i) e ;; write_loop ptr (i + 1) data'
  end.

(** [write_to_linear_memory(ptr, data)] *)
Definition write_to_linear_memory (ptr : Z) (data : list Z) : M G unit :=
  write_loop ptr 0 data.

(** [class DWO]: its two attributes. *)
Record DWO : Type := mkDWO { bin : list Z; dwo : option Z }.

(** [DWO.__init__(self, bin)] *)
Definition DWO_init (bin : list Z) : DWO := mkDWO bin None.

(** [DWO.__enter__(self)]: the returned handle, and the object after the
    assignment to [self.dwo]. *)
Definition DWO_enter (self : DWO) : M G (Z * DWO) :=
  dwarf_ptr ← call_func "cabi_realloc" [0; 0; 4; len (bin self)];
  write_to_linear_memory dwarf_ptr (bin self) ;;
  h ← call_func "dwo-create" [dwarf_ptr; len (bin self)];
  mret (h, mkDWO (bin self) (Some h)).

(** [DWO.__exit__(self, exc_type, exc_val, exc_tb)].  The attribute is an
    integer whenever [__exit__] runs, since [__enter__] has returned; the
    binding refuses [None] as an argument before any call is made. *)
Definition DWO_exit (self : DWO) : M G unit :=
  match dwo self with
  | Some h => call_func "dwo-destroy" [h] ;; mret tt
  | None => lift (Raise TypeError)
  end.

(** [with DWO(binary) as dwo: body].  [__exit__] runs when the body returns
    and when it raises; it returns [None], so an exception of the body
    propagates; an exception of [__exit__] itself replaces it.  When
    [__enter__] raises, neither the body nor [__exit__] runs. *)
Definition with_DWO {A} (binary : list Z) (body : Z -> M G A) : M G A :=
  fun w =>
    match DWO_enter (DWO_init binary) w with
    | (Raise e, w1) => (Raise e, w1)
    | (Ok (h, self), w1) =>
        let '(r, w2) := body h w1 in
        match DWO_exit self w2 with
        | (Raise e, w3) => (Raise e, w3)
        | (Ok _, w3) => (r, w3)
        end
    end.

(** [int.from_bytes(b, "little")] *)
Definition int_from_bytes_little (b : list Z) : Z :=
  foldr (fun e acc => e + 256 * acc) 0 b.

(** [b.decode("utf-8")], strict: the code points of a well-formed UTF-8
    sequence, [UnicodeDecodeError] otherwise (overlong forms, surrogates,
    code points above U+10FFFF and truncated sequences are refused). *)
Definition continuation (b : Z) : bool := (0x80 <=? b) && (b <=? 0xBF).

Fixpoint utf8_decode (b : list Z) : res (list Z) :=
  match b with
  | [] => Ok []
  | b0 :: t =>
      if b0 <? 0x80 then
        rest ← utf8_decode t; Ok (b0 :: rest)
      else if (0xC2 <=? b0) && (b0 <=? 0xDF) then
        match t with
        | b1 :: t' =>
            if continuation b1 then
              rest ← utf8_decode t';
              Ok (Z.lor (Z.shiftl (Z.land b0 0x1F) 6) (Z.land b1 0x3F) :: rest)
            else Raise UnicodeDecodeError
        | _ => Raise UnicodeDecodeError
        end
      else if (0xE0 <=? b0) && (b0 <=? 0xEF) then
        match t with
        | b1 :: b2 :: t' =>
            let lo := if b0 =? 0xE0 then 0xA0 else 0x80 in
            let hi := if b0 =? 0xED then 0x9F else 0xBF in
            if (lo <=? b1) && (b1 <=? hi) && continuation b2 then
              rest ← utf8_decode t';
              Ok (Z.lor (Z.shiftl (Z.land b0 0x0F) 12)
                    (Z.lor (Z.shiftl (Z.land b1 0x3F) 6) (Z.land b2 0x3F))
                  :: rest)
            else Raise UnicodeDecodeError
        | _ => Raise UnicodeDecodeError
        end
      else if (0xF0 <=? b0) && (b0 <=? 0xF4) then
        match t with
        | b1 :: b2 :: b3 :: t' =>
            let lo := if b0 =? 0xF0 then 0x90 else 0x80 in
            let hi := if b0 =? 0xF4 then 0x8F else 0xBF in
            if (lo <=? b1) && (b1 <=? hi) && continuation b2 && continuation b3
            then
              rest ← utf8_decode t';
              Ok (Z.lor (Z.shiftl (Z.land b0 0x07) 18)
                    (Z.lor (Z.shiftl (Z.land b1 0x3F) 12)
                       (Z.lor (Z.shiftl (Z.land b2 0x3F) 6) (Z.land b3 0x3F)))
                  :: rest)
            else Raise UnicodeDecodeError
        | _ => Raise UnicodeDecodeError
        end
      else Raise UnicodeDecodeError
  end.

(** The body of the [with] block of [get_wasm_wat_mapping]. *)
Definition get_line_map (dwo : Z) : M G (list Z) :=
  json_struct_ptr ← call_func "dwo-get-line-map" [dwo];
  b ← read_from_linear_memory json_struct_ptr 4;
  let json_ptr := int_from_bytes_little b in
  b ← read_from_linear_memory (json_struct_ptr + 4) 4;
  let json_length := int_from_bytes_little b in
  b ← read_from_linear_memory json_ptr json_length;
  debug_line ← lift (utf8_decode b);
  call_func "cabi_post_dwo-get-line-map" [json_struct_ptr] ;;
  mret debug_line.

(** [get_wasm_wat_mapping(binary)] *)
Definition get_wasm_wat_mapping (binary : list Z) : M G (list Z) :=
  with_DWO binary get_line_map.

End guest.

(** The events of one [__enter__], given the outcomes [r_alloc] of the
    allocator and [r_create] of the constructor. *)
Definition enter_events (bin : list Z) (r_alloc r_create : res Z)
  : list event :=
  Call "cabi_realloc" [0; 0; 4; len bin] r_alloc
  :: match r_alloc with
     | Raise _ => []
     | Ok dwarf_ptr =>
         store_events dwarf_ptr 0 bin
         ++ [Call "dwo-create" [dwarf_ptr; len bin] r_create]
     end.

(** The events of the body of the [with] block, given the outcome
    [r_struct] of the accessor, whether the payload decoded, and the
    outcome [r_post] of the post-return export. *)
Definition line_map_events (dwo : Z) (r_struct : res Z) (decoded : bool)
  (r_post : res Z) : list event :=
  Call "dwo-get-line-map" [dwo] r_struct
  :: match r_struct with
     | Raise _ => []
     | Ok json_struct_ptr =>
         if decoded
         then [Call "cabi_post_dwo-get-line-map" [json_struct_ptr] r_post]
         else []
     end.

(** The bytes that the body of the [with] block reads as the payload, when
    the accessor has returned [json_struct_ptr] and the linear memory is
    [mem]: the three reads of [get_wasm_wat_mapping], the first two giving
    the address and the length of the third. *)
Definition line_map_payload (mem : Z -> Z) (json_struct_ptr : Z) : list Z :=
  let json_ptr :=
    int_from_bytes_little
      (map (fun i => mem (json_struct_ptr + i)) (wat_parser.range 0 4)) in
  let json_length :=
    int_from_bytes_little
      (map (fun i => mem (json_struct_ptr + 4 + i)) (wat_parser.range 0 4)) in
  map (fun i => mem (json_ptr + i)) (wat_parser.range 0 json_length).

End lib_dwarf.

(** ** scripts/helper/dwarf.py *)

Module dwarf.

(** One object of the line-map JSON array: [{"line": .., "address": ..}]. *)
Record entry : Type := mkEntry { line : Z; address : Z }.

(** [d[k].append(v)] on a [defaultdict(list)] that is only read by key. *)
Definition dict_append (k v : Z) (d : gmap Z (list Z)) : gmap Z (list Z) :=
  <[k := default [] (d !! k) ++ [v]]> d.

(** [d[k].append(v)] on a [defaultdict(list)] that is iterated later: the
    items are kept in insertion order. *)
Fixpoint items_append (k v : Z) (d : list (Z * list Z)) : list (Z * list Z) :=
  match d with
  | [] => [(k, [v])]
  | (k', vs) :: d' =>
      if k =? k' then (k', vs ++ [v]) :: d'
      else (k', vs) :: items_append k v d'
  end.

(** The grouping of [parse_dwarf_in_wasm]: the records by line, every
    address shifted by the offset of the code section. *)
Definition group_by_line (code_section_offset : Z) (mapping : list entry)
  : list (Z * list Z) :=
  foldl (fun results item =>
           items_append (line item) (address item + code_section_offset)
                        results)
        [] mapping.

(** The grouping of [decode_dwarf]: the addresses by line. *)
Definition group_addresses (debug_line : list entry) : gmap Z (list Z) :=
  foldl (fun result e => dict_append (line e) (address e) result)
        ∅ debug_line.

(** The innermost loop of the composition,
    [for machine_code_offset in machine_code_offsets]: a plain subscript of
    the stage-3 dictionary, which raises [KeyError] on a missing key. *)
Fixpoint machine_code_offset_loop
  (machine_code_offset_to_disassembly_line : gmap Z Z) (wat_line : Z)
  (machine_code_offsets : list Z) (wat_line_to_assembly_line : gmap Z (list Z))
  : res (gmap Z (list Z)) :=
  match machine_code_offsets with
  | [] => Ok wat_line_to_assembly_line
  | machine_code_offset :: rest =>
      match machine_code_offset_to_disassembly_line !! machine_code_offset with
      | None => Raise (KeyError machine_code_offset)
      | Some assembly_line =>
          machine_code_offset_loop machine_code_offset_to_disassembly_line
            wat_line rest
            (dict_append wat_line assembly_line wat_line_to_assembly_line)
      end
  end.

Section engine.
Context {G : Type}.
Variable guest : exports G.

(** [json.loads] followed by the reading of the two fields of every element:
    the standard library's parser is not part of the repository.  A text
    that is not a JSON array of such objects raises. *)
Variable json_loads : list Z -> res (list entry).

(** [int(s, 16)]; [None] stands for [ValueError]. *)
Variable int_base16 : list Z -> option Z.

(** [decode_dwarf(dwo)] *)
Definition decode_dwarf (dwo : list Z) : M G (gmap Z (list Z)) :=
  text ← lib_dwarf.get_wasm_wat_mapping guest dwo;
  debug_line ← lift (json_loads text);
  mret (group_addresses debug_line).

(** The nested function [parse_dwarf_in_wasm] of
    [analyze_debug_info_in_dwarf]. *)
Definition parse_dwarf_in_wasm (wasm : list Z) : M G (list (Z * list Z)) :=
  code_section_offset ← lift (wasm_parser.get_code_section wasm);
  mapping ← lib_dwarf.get_wasm_wat_mapping guest wasm;
  mapping ← lift (json_loads mapping);
  mret (group_by_line code_section_offset mapping).

(** The nested function [decode_dis]; [i] is the index of the head of
    [lines]. *)
Fixpoint decode_dis_loop (i : Z) (lines : list (list Z)) (m : gmap Z Z)
  : res (gmap Z Z) :=
  match lines with
  | [] => Ok m
  | line :: lines' =>
      machine_code_offset_str ← index (Str.split 32 line) 0;
      match int_base16 machine_code_offset_str with
      | None => decode_dis_loop (i + 1) lines' m
      | Some machine_code_offset =>
          decode_dis_loop (i + 1) lines' (<[machine_code_offset := i]> m)
      end
  end.

Definition decode_dis (assembly : list Z) : res (gmap Z Z) :=
  decode_dis_loop 0 (Str.split 10 assembly) ∅.

(** The loop [for wasm_offset in wasm_offsets]. *)
Fixpoint wasm_offset_loop
  (wasm : list Z)
  (wasm_offset_to_machine_code_offset : gmap Z (list Z))
  (machine_code_offset_to_disassembly_line : gmap Z Z)
  (wat_line : Z) (wasm_offsets : list Z)
  (wat_line_to_assembly_line : gmap Z (list Z)) : M G (gmap Z (list Z)) :=
  match wasm_offsets with
  | [] => mret wat_line_to_assembly_line
  | wasm_offset :: rest =>
      match wasm_offset_to_machine_code_offset !! wasm_offset with
      | None =>
          wasm_opcode_str ←
            lift (wasm_parser.get_wasm_op_code_str wasm wasm_offset);
          logging (Info_not_found wasm_offset wasm_opcode_str) ;;
          wasm_offset_loop wasm wasm_offset_to_machine_code_offset
            machine_code_offset_to_disassembly_line wat_line rest
            wat_line_to_assembly_line
      | Some machine_code_offsets =>
          logging (Debug_machine_code_offsets wat_line wasm_offset
                     (map wasm_parser.hex machine_code_offsets)) ;;
          acc ← lift (machine_code_offset_loop
                        machine_code_offset_to_disassembly_line wat_line
                        machine_code_offsets wat_line_to_assembly_line);
          wasm_offset_loop wasm wasm_offset_to_machine_code_offset
            machine_code_offset_to_disassembly_line wat_line rest acc
      end
  end.

(** The loop [for wat_line, wasm_offsets in wat_line_to_wasm_offset.items()]. *)
Fixpoint wat_line_loop
  (wasm : list Z)
  (wasm_offset_to_machine_code_offset : gmap Z (list Z))
  (machine_code_offset_to_disassembly_line : gmap Z Z)
  (items : list (Z * list Z))
  (wat_line_to_assembly_line : gmap Z (list Z)) : M G (gmap Z (list Z)) :=
  match items with
  | [] => mret wat_line_to_assembly_line
  | (wat_line, wasm_offsets) :: rest =>
      logging (Debug_wat_line wat_line wasm_offsets) ;;
      acc ← wasm_offset_loop wasm wasm_offset_to_machine_code_offset
              machine_code_offset_to_disassembly_line wat_line wasm_offsets
              wat_line_to_assembly_line;
      wat_line_loop wasm wasm_offset_to_machine_code_offset
        machine_code_offset_to_disassembly_line rest acc
  end.

(** Stage 4 of [analyze_debug_info_in_dwarf] (from the creation of
    [wat_line_to_assembly_line] to the [return]): the composition of the
    three maps of the earlier stages. *)
Definition compose_stages
  (wasm : list Z)
  (wasm_offset_to_machine_code_offset : gmap Z (list Z))
  (wat_line_to_wasm_offset : list (Z * list Z))
  (machine_code_offset_to_disassembly_line : gmap Z Z)
  : M G (gmap Z (list Z)) :=
  wat_line_loop wasm wasm_offset_to_machine_code_offset
    machine_code_offset_to_disassembly_line wat_line_to_wasm_offset ∅.

(** [analyze_debug_info_in_dwarf(dwo, wasm, assembly)] *)
Definition analyze_debug_info_in_dwarf (dwo wasm assembly : list Z)
  : M G (gmap Z (list Z)) :=
  wasm_offset_to_machine_code_offset ← decode_dwarf dwo;
  logging (Debug_wasm_offset_to_machine_code_offset
             wasm_offset_to_machine_code_offset) ;;
  wat_line_to_wasm_offset ← parse_dwarf_in_wasm wasm;
  logging (Debug_wat_line_to_wasm_offset wat_line_to_wasm_offset) ;;
  machine_code_offset_to_disassembly_line ← lift (decode_dis assembly);
  logging (Debug_machine_code_offset_to_disassembly_line
             machine_code_offset_to_disassembly_line) ;;
  compose_stages wasm wasm_offset_to_machine_code_offset
    wat_line_to_wasm_offset machine_code_offset_to_disassembly_line.

End engine.

(** The diagnostics of unresolved offsets among the log records: the
    [logging.info] records of the composition. *)
Definition unresolved (l : list log_record) : list log_record :=
  List.filter
    (fun r => match r with Info_not_found _ _ => true | _ => false end) l.

(** The addresses of the records of line [k], in order. *)
Definition addresses_of (k : Z) (entries : list entry) : list Z :=
  map address (List.filter (fun e => line e =? k) entries).

(** The machine-code offsets that the composition looks up in stage 3 for
    the wasm offsets [offs], in order: those that stage 1 lists for them. *)
Definition reachable (stage1 : gmap Z (list Z)) (offs : list Z) : list Z :=
  flat_map (fun o => default [] (stage1 !! o)) offs.

(** The wasm offsets among [offs] that stage 1 does not know. *)
Definition missing (stage1 : gmap Z (list Z)) (offs : list Z) : list Z :=
  List.filter (fun o => bool_decide (stage1 !! o = None)) offs.

(** The first of the machine-code offsets [ms] that stage 3 does not know. *)
Definition first_missing (stage3 : gmap Z Z) (ms : list Z) : option Z :=
  head (List.filter (fun m => bool_decide (stage3 !! m = None)) ms).

(** The assembly lines of the wasm offsets [offs]: stage 3 applied to what
    stage 1 lists for them. *)
Definition assembly_lines (stage1 : gmap Z (list Z)) (stage3 : gmap Z Z)
  (offs : list Z) : list Z :=
  omap (fun m => stage3 !! m) (reachable stage1 offs).

(** All the wasm offsets of the stage-2 items, in iteration order. *)
Definition all_offsets (items : list (Z * list Z)) : list Z :=
  flat_map snd items.

(** A result that only holds what the stages know: its keys are among
    [keys], no key maps to the empty list, and every listed assembly line is
    a value of stage 3. *)
Definition sound_result (stage3 : gmap Z Z) (keys : list Z)
  (result : gmap Z (list Z)) : Prop :=
  forall k vs,
    result !! k = Some vs ->
    k ∈ keys /\ vs <> [] /\ forall x, x ∈ vs -> exists m, stage3 !! m = Some x.

(** The result of the composition when nothing is missing from stage 3. *)
Definition composed (stage1 : gmap Z (list Z)) (stage3 : gmap Z Z)
  (items : list (Z * list Z)) (acc : gmap Z (list Z)) : gmap Z (list Z) :=
  foldl (fun a it =>
           foldl (fun a' x => dict_append it.1 x a') a
                 (assembly_lines stage1 stage3 it.2))
        acc items.

(** The name that the diagnostic of a stage-1 miss carries. *)
Definition opcode_name (wasm : list Z) (wasm_offset : Z) : string :=
  match wasm_parser.get_wasm_op_code_str wasm wasm_offset with
  | Ok name => name
  | Raise _ => ""
  end.

(** The machine-code offset that [decode_dis] reads off one line: the text
    before the first space, parsed in base 16. *)
Definition line_offset (int_base16 : list Z -> option Z) (line : list Z)
  : option Z :=
  int_base16 (default [] (head (Str.split 32 line))).

End dwarf.

(** ** A small guest instance, for the worked examples

    A decoder whose allocator always answers [alloc], whose constructor
    answers the handle [1] and whose line-map accessor answers [struct_ptr];
    the exports leave the memory as it is, and any other name traps. *)

Module Demo.

Definition demo_guest (alloc struct_ptr : Z) : exports unit :=
  fun name args mem inst =>
    if String.eqb name "cabi_realloc" then (Ok alloc, mem, inst)
    else if String.eqb name "dwo-create" then (Ok 1, mem, inst)
    else if String.eqb name "dwo-get-line-map" then (Ok struct_ptr, mem, inst)
    else if String.eqb name "dwo-destroy" then (Ok 0, mem, inst)
    else if String.eqb name "cabi_post_dwo-get-line-map" then (Ok 0, mem, inst)
    else (Raise GuestTrap, mem, inst).

(** The same decoder with an accessor that traps. *)
Definition trapping_guest (alloc : Z) : exports unit :=
  fun name args mem inst =>
    if String.eqb name "dwo-get-line-map" then (Raise GuestTrap, mem, inst)
    else demo_guest alloc 0 name args mem inst.

(** A decoder whose allocator traps. *)
Definition failing_allocator_guest : exports unit :=
  fun name args mem inst =>
    if String.eqb name "cabi_realloc" then (Raise GuestTrap, mem, inst)
    else demo_guest 0 0 name args mem inst.

(** The same decoder with the given outcomes of the post-return export and
    of the destructor. *)
Definition releasing_guest (r_post r_destroy : res Z) (alloc struct_ptr : Z)
  : exports unit :=
  fun name args mem inst =>
    if String.eqb name "cabi_post_dwo-get-line-map" then (r_post, mem, inst)
    else if String.eqb name "dwo-destroy" then (r_destroy, mem, inst)
    else demo_guest alloc struct_ptr name args mem inst.

(** [n] as four little-endian bytes. *)
Definition u32_le (n : Z) : list Z :=
  [n mod 256; (n / 256) mod 256; (n / 65536) mod 256; (n / 16777216) mod 256].

(** A linear memory holding the struct [{json_ptr, len(payload)}] at
    [struct_ptr] and [payload] at [json_ptr], zero elsewhere. *)
Definition demo_memory (struct_ptr json_ptr : Z) (payload : list Z) : Z -> Z :=
  fun a =>
    if (struct_ptr <=? a) && (a <? struct_ptr + 8) then
      default 0 ((u32_le json_ptr ++ u32_le (len payload))
                   !! Z.to_nat (a - struct_ptr))
    else if (json_ptr <=? a) && (a <? json_ptr + len payload) then
      default 0 (payload !! Z.to_nat (a - json_ptr))
    else 0.

Definition demo_world (struct_ptr json_ptr : Z) (payload : list Z)
  : world unit :=
  mkWorld (demo_memory struct_ptr json_ptr payload) tt [] [].

(** A parser for the worked examples: the text [[]] is the empty array,
    anything else is refused. *)
Definition demo_json_loads (text : list Z) : res (list dwarf.entry) :=
  if decide (text = Str.codes "[]") then Ok [] else Raise JSONDecodeError.

End Demo.

(** ** The container level of the WebAssembly binary format

    What "a valid binary that contains a code section" means for the section
    scan: an 8-byte preamble, then sections [(id, size, payload)] whose size
    field is a [varuint32] equal to the length of the payload; the code
    section has id 10 and its payload is the function count followed by the
    function bodies [(bodySize, body)]. *)

Module Layout.

Definition is_byte (b : Z) : bool := (0 <=? b) && (b <? 256).

(** A [varuint32]: a terminated LEB128 encoding of at most 5 bytes whose
    value fits 32 bits (padded encodings are allowed by the format). *)
Definition varuint32 (enc : list Z) : bool :=
  leb128.terminated enc && (len enc <=? 5) && forallb is_byte enc
  && (leb128.groups_value 0 enc <? 2 ^ 32).

Definition value (enc : list Z) : Z := leb128.groups_value 0 enc.

Record section : Type := mkSection {
  sec_id : Z;
  sec_size : list Z;
  sec_payload : list Z
}.

Definition encode_section (s : section) : list Z :=
  sec_id s :: sec_size s ++ sec_payload s.

Definition section_ok (s : section) : bool :=
  is_byte (sec_id s) && varuint32 (sec_size s)
  && (value (sec_size s) =? len (sec_payload s))
  && forallb is_byte (sec_payload s).

Record function_body : Type := mkBody {
  body_size : list Z;
  body_code : list Z
}.

Definition encode_body (f : function_body) : list Z :=
  body_size f ++ body_code f.

Definition body_ok (f : function_body) : bool :=
  varuint32 (body_size f) && (value (body_size f) =? len (body_code f))
  && forallb is_byte (body_code f).

(** A binary with a code section, cut at the places the claim speaks of. *)
Record module_layout : Type := mkModule {
  preamble : list Z;
  before : list section;
  code_size : list Z;
  function_count : list Z;
  bodies : list function_body;
  after : list section
}.

Definition encode_bodies (m : module_layout) : list Z :=
  flat_map encode_body (bodies m).

(** Everything up to and including the size field of the code section. *)
Definition code_header (m : module_layout) : list Z :=
  preamble m ++ flat_map encode_section (before m)
  ++ wasm_parser.CODE_SECTION_ID :: code_size m.

Definition encode_module (m : module_layout) : list Z :=
  code_header m ++ function_count m ++ encode_bodies m
  ++ flat_map encode_section (after m).

Definition module_ok (m : module_layout) : bool :=
  (len (preamble m) =? 8) && forallb is_byte (preamble m)
  && forallb section_ok (before m)
  && forallb (fun s => negb (sec_id s =? wasm_parser.CODE_SECTION_ID))
             (before m)
  && varuint32 (code_size m)
  && (value (code_size m) =? len (function_count m ++ encode_bodies m))
  && varuint32 (function_count m)
  && (value (function_count m) =? len (bodies m))
  && forallb body_ok (bodies m)
  && forallb section_ok (after m).

(** Where the bytecode of each function starts, when the bodies are laid out
    from position [pos] on: right after the size prefix of each. *)
Fixpoint body_offsets (pos : Z) (fs : list function_body) : list Z :=
  match fs with
  | [] => []
  | f :: fs' =>
      let start := pos + len (body_size f) in
      start :: body_offsets (start + len (body_code f)) fs'
  end.

(** The smallest module with one function: a type section, a function
    section and a code section holding the body [00 0B]. *)
Definition minimal_module : module_layout :=
  mkModule [0x00; 0x61; 0x73; 0x6D; 0x01; 0x00; 0x00; 0x00]
           [mkSection 1 [4] [1; 0x60; 0; 0]; mkSection 3 [2] [1; 0]]
           [4] [1] [mkBody [2] [0x00; 0x0B]] [].

End Layout.

(** * Properties *)

(** Splitting a boolean conjunction in a hypothesis into its conjuncts, the
    integer comparisons turned into propositions. *)
Ltac split_andb H :=
  repeat match type of H with
         | (_ && _) = true =>
             let H' := fresh "Hb" in
             apply andb_prop in H as [H H']; try split_andb H'
         end;
  repeat match type of H with
         | (_ =? _) = true => apply Z.eqb_eq in H
         | (_ <=? _) = true => apply Z.leb_le in H
         | (_ <? _) = true => apply Z.ltb_lt in H
         end.

(** ** Sequence primitives *)

Lemma len_nonneg {A} (s : list A) : 0 <= len s.
Proof. unfold len. lia. Qed.

Lemma len_app {A} (s t : list A) : len (s ++ t) = len s + len t.
Proof. unfold len. rewrite length_app. lia. Qed.

Lemma len_cons {A} (x : A) (s : list A) : len (x :: s) = 1 + len s.
Proof. unfold len. simpl. lia. Qed.

Lemma len_nil {A} : len (@nil A) = 0.
Proof. reflexivity. Qed.

Create Rewrite HintDb len.
#[local] Hint Rewrite @len_app @len_cons @len_nil : len.

(** Lengths of concatenations, pushed to the leaves and handed to [lia]. *)
Ltac len_lia :=
  autorewrite with len in *;
  repeat match goal with
         | |- context [len ?s] =>
             lazymatch goal with
             | _ : 0 <= len s |- _ => fail
             | _ => pose proof (len_nonneg s)
             end
         | _ : context [len ?s] |- _ =>
             lazymatch goal with
             | _ : 0 <= len s |- _ => fail
             | _ => pose proof (len_nonneg s)
             end
         end;
  lia.

Lemma index_app_at {A} (pre : list A) (x : A) (rest : list A) :
  index (pre ++ x :: rest) (len pre) = Ok x.
Proof.
  unfold index.
  pose proof (len_nonneg pre) as Hpre.
  destruct (Z.ltb_spec (len pre) 0) as [?|_]; [lia|].
  rewrite len_app, len_cons.
  pose proof (len_nonneg rest).
  destruct (Z.leb_spec 0 (len pre)); [|lia].
  destruct (Z.ltb_spec (len pre) (len pre + (1 + len rest))); [|lia].
  simpl. unfold len. rewrite Nat2Z.id.
  rewrite lookup_app_r by lia.
  replace (length pre - length pre)%nat with 0%nat by lia. reflexivity.
Qed.

Lemma slice_app_at {A} (pre s : list A) (n : Z) :
  0 <= n ->
  slice (pre ++ s) (len pre) (len pre + n) = take (Z.to_nat n) s.
Proof.
  intros Hn. unfold slice, clamp.
  pose proof (len_nonneg pre). pose proof (len_nonneg s).
  rewrite len_app.
  destruct (Z.ltb_spec (len pre) 0); [lia|].
  destruct (Z.ltb_spec (len pre + n) 0); [lia|].
  replace (Z.max 0 (Z.min (len pre + len s) (len pre))) with (len pre) by lia.
  replace (Z.to_nat (len pre)) with (length pre) by (unfold len; lia).
  rewrite drop_app_length.
  destruct (Z.le_ge_cases n (len s)).
  - f_equal. lia.
  - rewrite !take_ge; [reflexivity | unfold len in *; lia | unfold len in *; lia].
Qed.

(** ** LEB128 decoding *)

Section leb128_facts.
Import leb128.

Lemma group_nonneg (e i : Z) : 0 <= i -> 0 <= Z.shiftl (Z.land e 0x7F) (i * 7).
Proof.
  intros Hi. apply Z.shiftl_nonneg. apply Z.land_nonneg. right. lia.
Qed.

(** While the continuation bit is set, the loop consumes the whole input. *)
Lemma decode_loop_all_continue (b : list Z) :
  forall i r last,
    all_continue b = true ->
    u.decode_loop b i r last =
      (r + groups_value i b,
       match b with [] => last | _ :: _ => Some (i + len b - 1) end).
Proof.
  induction b as [|e b IH]; intros i r last Hall; simpl.
  - f_equal. lia.
  - simpl in Hall. apply andb_prop in Hall as [He Hb].
    apply negb_true_iff in He. rewrite He.
    rewrite IH by exact Hb. f_equal; [lia|].
    destruct b as [|e' b']; [f_equal; rewrite len_cons; unfold len; simpl; lia|].
    f_equal. rewrite !len_cons. lia.
Qed.

(** On a terminated encoding the loop stops at its last byte, whatever
    follows. *)
Lemma decode_loop_terminated (enc : list Z) :
  forall rest i r last,
    terminated enc = true ->
    u.decode_loop (enc ++ rest) i r last =
      (r + groups_value i enc, Some (i + len enc - 1)).
Proof.
  induction enc as [|e enc IH]; intros rest i r last Ht; [discriminate|].
  destruct enc as [|e' enc'].
  - simpl in *. rewrite Ht. f_equal; [lia|]. f_equal. unfold len. simpl. lia.
  - change (terminated (e :: e' :: enc'))
      with (negb (Z.land e 0x80 =? 0x00) && terminated (e' :: enc')) in Ht.
    apply andb_prop in Ht as [He Ht]. apply negb_true_iff in He.
    change ((e :: e' :: enc') ++ rest) with (e :: ((e' :: enc') ++ rest)).
    cbn [u.decode_loop]. rewrite He.
    rewrite IH by exact Ht.
    cbn [groups_value]. f_equal; [lia|].
    f_equal. rewrite (len_cons e). lia.
Qed.

Lemma terminated_nonempty (enc : list Z) : terminated enc = true -> 1 <= len enc.
Proof.
  destruct enc; [discriminate|]. intros _. rewrite len_cons.
  pose proof (len_nonneg enc). lia.
Qed.

Lemma decode_terminated (enc rest : list Z) :
  terminated enc = true ->
  u.decode (enc ++ rest) = Ok (groups_value 0 enc, len enc).
Proof.
  intros Ht. unfold u.decode. rewrite decode_loop_terminated by exact Ht.
  f_equal. f_equal; lia.
Qed.

(** Reading an encoding in place: the decoder is handed the next
    [MAX_LENGTH] bytes and finds the encoding at their start. *)
Lemma decode_slice (pre enc rest : list Z) :
  terminated enc = true ->
  len enc <= MAX_LENGTH ->
  u.decode (slice (pre ++ enc ++ rest) (len pre) (len pre + MAX_LENGTH))
  = Ok (groups_value 0 enc, len enc).
Proof.
  intros Ht Hlen. rewrite slice_app_at by (unfold MAX_LENGTH; lia).
  rewrite take_app.
  rewrite take_ge by (unfold len in Hlen; lia).
  apply decode_terminated. exact Ht.
Qed.

Lemma decode_loop_bounds (b : list Z) :
  forall i r last v j,
    0 <= i -> 0 <= r ->
    u.decode_loop b i r last = (v, Some j) ->
    (last = Some j \/ i <= j) /\ 0 <= v.
Proof.
  induction b as [|e b IH]; intros i r last v j Hi Hr H; simpl in H.
  - inversion H; subst. split; [left; reflexivity | lia].
  - pose proof (group_nonneg e i Hi).
    destruct (Z.land e 0x80 =? 0x00).
    + inversion H; subst. split; [right; lia | lia].
    + apply IH in H; [|lia|lia]. destruct H as [[Hl|Hl] Hv].
      * inversion Hl; subst. split; [right; lia | lia].
      * split; [right; lia | lia].
Qed.

(** A successful decode yields a non-negative value and consumes at least
    one byte. *)
Lemma decode_bounds (b : list Z) (v l : Z) :
  u.decode b = Ok (v, l) -> 0 <= v /\ 1 <= l.
Proof.
  unfold u.decode. destruct (u.decode_loop b 0 0 None) as [r [j|]] eqn:E;
    [|discriminate].
  intros H. inversion H; subst.
  apply decode_loop_bounds in E; [|lia|lia].
  destruct E as [[Hl|Hl] Hv]; [discriminate|lia].
Qed.

Lemma decode_loop_nonempty (b : list Z) :
  forall i r last, b <> [] -> exists v j, u.decode_loop b i r last = (v, Some j).
Proof.
  induction b as [|e b IH]; intros i r last Hne; [congruence|].
  simpl. destruct (Z.land e 0x80 =? 0x00); [eauto|].
  destruct b as [|e' b']; [simpl; eauto|].
  apply IH. discriminate.
Qed.

End leb128_facts.

(** C10: on a non-empty input whose bytes all carry the continuation bit
    (an encoding cut before its end), [u.decode] returns, without an error,
    the value accumulated from all the 7-bit groups together with the length
    of the input; and the only input on which [u.decode] raises is the empty
    one. *)
Theorem u_decode_unterminated (b : list Z) :
  b <> [] ->
  leb128.all_continue b = true ->
  leb128.u.decode b = Ok (leb128.groups_value 0 b, len b)
  /\ (forall b' e, leb128.u.decode b' = Raise e -> b' = []).
Proof.
  intros Hne Hall. split.
  - unfold leb128.u.decode.
    rewrite decode_loop_all_continue by exact Hall.
    destruct b as [|e b]; [congruence|].
    f_equal. f_equal; lia.
  - intros b' e H. destruct b' as [|x b']; [reflexivity|exfalso].
    unfold leb128.u.decode in H.
    destruct (decode_loop_nonempty (x :: b') 0 0 None) as (v & j & E);
      [discriminate|].
    rewrite E in H. discriminate.
Qed.

Lemma u_decode_unterminated_witness :
  leb128.u.decode [0x80; 0xFF; 0x81] = Ok (0x7F * 128 + 1 * 16384, 3)
  /\ (forall b' e, leb128.u.decode b' = Raise e -> b' = []).
Proof.
  apply (u_decode_unterminated [0x80; 0xFF; 0x81]); [discriminate | reflexivity].
Defined.

(** ** Locating the code section *)

Section code_section_facts.
Import Layout wasm_parser.

Lemma varuint32_terminated (enc : list Z) :
  varuint32 enc = true ->
  leb128.terminated enc = true /\ len enc <= leb128.MAX_LENGTH.
Proof.
  unfold varuint32, leb128.MAX_LENGTH. intros H.
  split_andb H. split; [assumption | lia].
Qed.

(** The scan never runs out of fuel: every iteration moves [pos] forward. *)
Lemma get_code_section_loop_fuel (fuel : nat) :
  forall wasm pos,
    (Z.to_nat (len wasm - pos) <= fuel)%nat ->
    is_Some (get_code_section_loop fuel wasm pos).
Proof.
  induction fuel as [|fuel IH]; intros wasm pos Hfuel.
  - simpl. destruct (Z.ltb_spec pos (len wasm)); [lia | eauto].
  - simpl. destruct (Z.ltb_spec pos (len wasm)); [|eauto].
    destruct (index wasm pos) as [section_id|]; [|eauto].
    destruct (leb128.u.decode _) as [[length l]|] eqn:E; [|eauto].
    apply decode_bounds in E as [Hv Hl].
    destruct (section_id =? CODE_SECTION_ID).
    + destruct (leb128.u.decode _) as [[fc l']|]; eauto.
    + apply IH. lia.
Qed.

Lemma get_code_section_loop_total (wasm : list Z) :
  is_Some (get_code_section_loop (length wasm) wasm 8).
Proof. apply get_code_section_loop_fuel. unfold len. lia. Qed.

(** One section that is not the code section is stepped over by its
    declared size. *)
Lemma get_code_section_loop_skip (fuel : nat) (pre : list Z) (s : section)
      (rest : list Z) :
  section_ok s = true ->
  (sec_id s =? CODE_SECTION_ID) = false ->
  get_code_section_loop (S fuel) (pre ++ encode_section s ++ rest) (len pre)
  = get_code_section_loop fuel (pre ++ encode_section s ++ rest)
      (len (pre ++ encode_section s)).
Proof.
  intros Hok Hid. unfold section_ok in Hok.
  split_andb Hok.
  destruct (varuint32_terminated (sec_size s)) as [Ht Hl]; [assumption|].
  assert (Hsz : value (sec_size s) = len (sec_payload s)) by assumption.
  cbn [get_code_section_loop].
  unfold encode_section at 1 2 3.
  destruct (Z.ltb_spec (len pre)
              (len (pre ++ (sec_id s :: sec_size s ++ sec_payload s) ++ rest)))
    as [_|Hge]; [|len_lia].
  change ((sec_id s :: sec_size s ++ sec_payload s) ++ rest)
    with (sec_id s :: (sec_size s ++ sec_payload s) ++ rest).
  rewrite index_app_at.
  replace (pre ++ sec_id s :: (sec_size s ++ sec_payload s) ++ rest)
    with ((pre ++ [sec_id s]) ++ sec_size s ++ (sec_payload s ++ rest))
    by (rewrite <- !app_assoc; reflexivity).
  replace (len pre + 1) with (len (pre ++ [sec_id s]))
    by (rewrite len_app; reflexivity).
  rewrite decode_slice by assumption.
  rewrite Hid. fold (value (sec_size s)). rewrite Hsz.
  f_equal. unfold encode_section. len_lia.
Qed.

(** A run of such sections is stepped over one by one. *)
Lemma get_code_section_loop_skip_all (secs : list section) :
  forall fuel pre rest,
    forallb section_ok secs = true ->
    forallb (fun s => negb (sec_id s =? CODE_SECTION_ID)) secs = true ->
    get_code_section_loop (length secs + fuel)
      (pre ++ flat_map encode_section secs ++ rest) (len pre)
    = get_code_section_loop fuel
        (pre ++ flat_map encode_section secs ++ rest)
        (len (pre ++ flat_map encode_section secs)).
Proof.
  induction secs as [|s secs IH]; intros fuel pre rest Hok Hid.
  - simpl. rewrite app_nil_r. reflexivity.
  - simpl in Hok, Hid.
    apply andb_prop in Hok as [Hs Hok]. apply andb_prop in Hid as [Hi Hid].
    apply negb_true_iff in Hi.
    cbn [flat_map length Nat.add].
    rewrite <- (app_assoc (encode_section s)).
    rewrite get_code_section_loop_skip by assumption.
    rewrite (app_assoc pre (encode_section s)).
    rewrite IH by assumption.
    rewrite <- !app_assoc. reflexivity.
Qed.

(** At the code section the scan reads the size and the function count and
    returns the position after the count. *)
Lemma get_code_section_loop_found (fuel : nat) (pre size count rest : list Z) :
  varuint32 size = true ->
  varuint32 count = true ->
  get_code_section_loop (S fuel)
    (pre ++ CODE_SECTION_ID :: size ++ count ++ rest) (len pre)
  = Some (Ok (len (pre ++ CODE_SECTION_ID :: size ++ count), value count)).
Proof.
  intros Hsize Hcount.
  destruct (varuint32_terminated size) as [Hts Hls]; [assumption|].
  destruct (varuint32_terminated count) as [Htc Hlc]; [assumption|].
  cbn [get_code_section_loop].
  destruct (Z.ltb_spec (len pre)
              (len (pre ++ CODE_SECTION_ID :: size ++ count ++ rest)))
    as [_|Hge]; [|len_lia].
  rewrite index_app_at.
  replace (pre ++ CODE_SECTION_ID :: size ++ count ++ rest)
    with ((pre ++ [CODE_SECTION_ID]) ++ size ++ (count ++ rest))
    by (rewrite <- !app_assoc; reflexivity).
  replace (len pre + 1) with (len (pre ++ [CODE_SECTION_ID]))
    by (rewrite len_app; reflexivity).
  rewrite decode_slice by assumption.
  rewrite Z.eqb_refl.
  replace ((pre ++ [CODE_SECTION_ID]) ++ size ++ count ++ rest)
    with (((pre ++ [CODE_SECTION_ID]) ++ size) ++ count ++ rest)
    by (rewrite <- !app_assoc; reflexivity).
  replace (len (pre ++ [CODE_SECTION_ID]) + len size)
    with (len ((pre ++ [CODE_SECTION_ID]) ++ size))
    by (rewrite !len_app; reflexivity).
  rewrite decode_slice by assumption.
  f_equal. f_equal. f_equal. len_lia.
Qed.

Lemma encode_section_length (secs : list section) :
  (length secs <= length (flat_map encode_section secs))%nat.
Proof.
  induction secs as [|s secs IH]; simpl; [lia|].
  rewrite length_app. lia.
Qed.

(** The result of [get_code_section_impl] on the encoding of a layout. *)
Lemma get_code_section_impl_layout (m : module_layout) :
  module_ok m = true ->
  get_code_section_impl (encode_module m)
  = Ok (len (code_header m ++ function_count m), len (bodies m)).
Proof.
  intros Hok. unfold module_ok in Hok.
  split_andb Hok.
  assert (Hcount : value (function_count m) = len (bodies m)) by assumption.
  unfold get_code_section_impl.
  assert (Hpre : len (preamble m) = 8) by assumption.
  rewrite <- Hpre.
  pose (wasm := encode_module m).
  assert (Hlen : exists fuel,
             length (encode_module m) = (length (before m) + S fuel)%nat).
  { exists (length (encode_module m) - length (before m) - 1)%nat.
    pose proof (encode_section_length (before m)).
    unfold encode_module, code_header.
    rewrite !length_app. simpl. rewrite ?length_app. lia. }
  destruct Hlen as [fuel ->].
  unfold encode_module, code_header.
  rewrite <- !app_assoc.
  rewrite get_code_section_loop_skip_all by assumption.
  rewrite (app_assoc (preamble m)).
  cbn [app].
  rewrite get_code_section_loop_found by assumption.
  simpl. rewrite Hcount. rewrite <- !app_assoc. reflexivity.
Qed.

End code_section_facts.

(** C9: on the encoding of a valid binary with a code section,
    [get_code_section_impl] (scanning from byte 8 and stepping over the other
    sections by their declared size) returns [(offset, functionCount)] where
    the bytes before [offset] end with the function-count varuint of the code
    section, so that byte [offset - 1] is the last byte of that varuint, and
    the bytes from [offset] on are the function bodies, so that they begin
    with the body-size varuint of the first function. *)
Theorem get_code_section_impl_locates (m : Layout.module_layout) :
  Layout.module_ok m = true ->
  exists offset,
    wasm_parser.get_code_section_impl (Layout.encode_module m)
      = Ok (offset, len (Layout.bodies m))
    /\ take (Z.to_nat offset) (Layout.encode_module m)
       = Layout.code_header m ++ Layout.function_count m
    /\ (exists c, last (Layout.function_count m) = Some c
                  /\ Layout.encode_module m !! Z.to_nat (offset - 1) = Some c)
    /\ drop (Z.to_nat offset) (Layout.encode_module m)
       = Layout.encode_bodies m
           ++ flat_map Layout.encode_section (Layout.after m)
    /\ (forall f fs, Layout.bodies m = f :: fs ->
          exists rest,
            drop (Z.to_nat offset) (Layout.encode_module m)
            = Layout.body_size f ++ rest).
Proof.
  intros Hok.
  exists (len (Layout.code_header m ++ Layout.function_count m)).
  assert (Hnat : Z.to_nat (len (Layout.code_header m ++ Layout.function_count m))
                 = length (Layout.code_header m ++ Layout.function_count m))
    by (unfold len; lia).
  assert (Hwasm : Layout.encode_module m
                  = (Layout.code_header m ++ Layout.function_count m)
                      ++ Layout.encode_bodies m
                      ++ flat_map Layout.encode_section (Layout.after m))
    by (unfold Layout.encode_module; rewrite <- app_assoc; reflexivity).
  assert (Hdrop : drop (Z.to_nat
                          (len (Layout.code_header m ++ Layout.function_count m)))
                       (Layout.encode_module m)
                  = Layout.encode_bodies m
                      ++ flat_map Layout.encode_section (Layout.after m)).
  { rewrite Hnat, Hwasm at 1. apply drop_app_length. }
  split; [apply get_code_section_impl_layout; exact Hok|].
  split; [rewrite Hnat, Hwasm at 1; apply take_app_length|].
  split.
  - unfold Layout.module_ok in Hok. split_andb Hok.
    match goal with
    | H : Layout.varuint32 (Layout.function_count m) = true |- _ =>
        apply varuint32_terminated in H as [Ht _];
        apply terminated_nonempty in Ht
    end.
    destruct (last (Layout.function_count m)) as [c|] eqn:Hlast.
    + exists c. split; [reflexivity|].
      rewrite last_lookup in Hlast.
      rewrite Hwasm.
      replace (Z.to_nat
                 (len (Layout.code_header m ++ Layout.function_count m) - 1))
        with (length (Layout.code_header m)
              + pred (length (Layout.function_count m)))%nat
        by (rewrite len_app; unfold len in *; lia).
      rewrite <- !app_assoc.
      rewrite lookup_app_r by lia.
      rewrite lookup_app_l by (unfold len in Ht; lia).
      rewrite <- Hlast. f_equal. lia.
    + rewrite last_lookup in Hlast. apply lookup_ge_None in Hlast.
      unfold len in Ht. lia.
  - split; [exact Hdrop|].
    intros f fs Hbodies. rewrite Hdrop.
    unfold Layout.encode_bodies. rewrite Hbodies. cbn [flat_map].
    unfold Layout.encode_body. rewrite <- !app_assoc. eauto.
Qed.

Lemma get_code_section_impl_locates_witness :
  exists offset,
    wasm_parser.get_code_section_impl
      (Layout.encode_module Layout.minimal_module) = Ok (offset, 1)
    /\ take (Z.to_nat offset) (Layout.encode_module Layout.minimal_module)
       = Layout.code_header Layout.minimal_module ++ [1]
    /\ (exists c, last [1] = Some c
                  /\ Layout.encode_module Layout.minimal_module
                       !! Z.to_nat (offset - 1) = Some c)
    /\ drop (Z.to_nat offset) (Layout.encode_module Layout.minimal_module)
       = [2; 0x00; 0x0B]
    /\ (forall f fs, Layout.bodies Layout.minimal_module = f :: fs ->
          exists rest,
            drop (Z.to_nat offset) (Layout.encode_module Layout.minimal_module)
            = Layout.body_size f ++ rest).
Proof.
  apply (get_code_section_impl_locates Layout.minimal_module). reflexivity.
Defined.

(** ** Offsets and positions *)

Section position_facts.
Import wat_parser.

Lemma consumed_nonneg (lines : list (list Z)) : 0 <= consumed lines.
Proof.
  induction lines as [|l lines IH]; simpl; [lia|].
  pose proof (len_nonneg l). lia.
Qed.

(** Splitting at the terminators loses one character per terminator, and
    the scan adds one per line: one more than the length of the text. *)
Lemma consumed_split (sep : Z) (s : list Z) :
  consumed (Str.split sep s) = len s + 1.
Proof.
  induction s as [|c s IH]; [reflexivity|].
  simpl. rewrite len_cons. destruct (c =? sep).
  - simpl. rewrite IH. unfold len. simpl. lia.
  - destruct (Str.split sep s) as [|p ps].
    + simpl in IH. pose proof (len_nonneg s). lia.
    + simpl in *. rewrite len_cons. lia.
Qed.

(** The scan finds the line whose range holds the offset. *)
Lemma offset_to_position_loop_inside (rest : list (list Z)) :
  forall line_number cursor offset,
    cursor <= offset < cursor + consumed rest ->
    exists (k : nat) (column : Z),
      offset_to_position_loop rest line_number cursor offset
        = Some (line_number + Z.of_nat k, column)
      /\ (k < length rest)%nat
      /\ 0 <= column
      /\ cursor + consumed (take k rest) + column = offset.
Proof.
  induction rest as [|l rest IH]; intros n cursor offset Hin; simpl in *; [lia|].
  destruct (Z.geb_spec offset cursor) as [_|?]; [|lia].
  destruct (Z.ltb_spec offset (cursor + (len l + 1))) as [Hlt|Hge]; simpl.
  - exists 0%nat, (offset - cursor). simpl.
    repeat split; [f_equal; f_equal; lia | lia | lia | lia].
  - destruct (IH (n + 1) (cursor + (len l + 1)) offset) as (k & col & E & Hk & Hc & Hsum);
      [lia|].
    exists (S k), col. rewrite E. simpl.
    repeat split; [f_equal; f_equal; lia | lia | lia | lia].
Qed.

(** Past the consumed characters, the scan runs to its end. *)
Lemma offset_to_position_loop_beyond (rest : list (list Z)) :
  forall line_number cursor offset,
    cursor + consumed rest <= offset ->
    offset_to_position_loop rest line_number cursor offset = None.
Proof.
  induction rest as [|l rest IH]; intros n cursor offset Hge; simpl in *;
    [reflexivity|].
  pose proof (consumed_nonneg rest).
  destruct (Z.ltb_spec offset (cursor + (len l + 1))) as [Hlt|_]; [lia|].
  rewrite andb_false_r. apply IH. lia.
Qed.

Lemma offset_to_position_roundtrip_lines (lines : list (list Z)) (offset : Z) :
  0 <= offset < consumed lines ->
  position_to_offset lines (offset_to_position lines offset) = offset.
Proof.
  intros Hin. unfold offset_to_position.
  destruct (offset_to_position_loop_inside lines 0 0 offset)
    as (k & col & E & Hk & Hc & Hsum); [lia|].
  rewrite E. unfold position_to_offset. cbn [fst snd].
  rewrite Z.add_0_l, Nat2Z.id. lia.
Qed.

End position_facts.

(** C7: for every text and every offset strictly inside it, the offset
    rebuilt from the position that [offset_to_position] returns (the length
    plus one terminator of every line before the returned line, plus the
    returned column) is the original offset. *)
Theorem offset_to_position_roundtrip (text : list Z) (offset : Z) :
  0 <= offset < len text ->
  let lines := Str.split 10 text in
  wat_parser.position_to_offset lines
    (wat_parser.offset_to_position lines offset) = offset.
Proof.
  intros Hin lines. apply offset_to_position_roundtrip_lines.
  unfold lines. rewrite consumed_split. lia.
Qed.

Lemma offset_to_position_roundtrip_witness :
  let lines := Str.split 10 (Str.codes "(module
  (func))") in
  wat_parser.position_to_offset lines
    (wat_parser.offset_to_position lines 11) = 11.
Proof.
  apply (offset_to_position_roundtrip (Str.codes "(module
  (func))") 11).
  vm_compute. split; [discriminate | reflexivity].
Defined.

(** C8: for every text and every offset beyond its end,
    [offset_to_position] does not fail and returns [(numberOfLines, 0)],
    the number of lines being that of the text split at its terminators. *)
Theorem offset_to_position_beyond (text : list Z) (offset : Z) :
  len text < offset ->
  let lines := Str.split 10 text in
  wat_parser.offset_to_position lines offset = (len lines, 0).
Proof.
  intros Hgt lines. unfold wat_parser.offset_to_position.
  rewrite offset_to_position_loop_beyond; [reflexivity|].
  unfold lines. rewrite consumed_split. lia.
Qed.

(** The end of the text itself is still inside the range of the last
    line. *)
Example offset_to_position_at_end :
  wat_parser.offset_to_position (Str.split 10 (Str.codes "ab
cd")) 5 = (1, 2).
Proof. reflexivity. Qed.

Lemma offset_to_position_beyond_witness :
  let lines := Str.split 10 (Str.codes "ab
cd") in
  wat_parser.offset_to_position lines 6 = (len lines, 0).
Proof.
  apply (offset_to_position_beyond (Str.codes "ab
cd") 6).
  reflexivity.
Defined.

(** ** Top-level forms *)

Section split_facts.
Import wat_parser.

Lemma index_in_range {A} (s : list A) (i : Z) :
  0 <= i < len s -> exists x, index s i = Ok x.
Proof.
  intros Hi. unfold index.
  destruct (Z.ltb_spec i 0); [lia|].
  destruct (Z.leb_spec 0 i); [|lia].
  destruct (Z.ltb_spec i (len s)); [|lia]. simpl.
  destruct (s !! Z.to_nat i) as [x|] eqn:E; [eauto|].
  apply lookup_ge_None in E. unfold len in Hi. lia.
Qed.

Lemma split_step_ok (wat : list Z) (st : scan) (i : Z) :
  0 <= i < len wat ->
  start_known st ->
  exists st', split_step wat st i = Ok st' /\ start_known st'.
Proof.
  intros Hi Hinv. unfold split_step.
  destruct (index_in_range wat i Hi) as [c ->]. cbn.
  destruct (c =? 40).
  - destruct (Z.eqb_spec (depth st + 1) 1) as [E|E]; eexists; split;
      try reflexivity; unfold start_known in *; simpl; intros; eauto.
    apply Hinv. lia.
  - destruct (c =? 41); [|eauto].
    destruct (Z.eqb_spec (depth st - 1) 0) as [E|E].
    + destruct Hinv as [s Hs]; [lia|]. rewrite Hs.
      eexists; split; [reflexivity|].
      unfold start_known; simpl; intros; lia.
    + eexists; split; [reflexivity|].
      unfold start_known in *; simpl; intros. apply Hinv. lia.
Qed.

Lemma split_loop_ok (wat : list Z) (idx : list Z) :
  forall st,
    Forall (fun i => 0 <= i < len wat) idx ->
    start_known st ->
    exists st', split_loop wat st idx = Ok st' /\ start_known st'.
Proof.
  induction idx as [|i idx IH]; intros st Hidx Hinv; simpl; [eauto|].
  inversion Hidx as [|? ? Hi Hrest]; subst.
  destruct (split_step_ok wat st i Hi Hinv) as (st1 & -> & Hinv1). cbn.
  apply IH; assumption.
Qed.

(** Over the whole text, [split_sub_expr] always returns. *)
Lemma split_sub_expr_total (wat : list Z) :
  exists ranges, split_sub_expr wat (mkRange 0 (len wat - 1)) = Ok ranges.
Proof.
  unfold split_sub_expr. simpl.
  destruct (split_loop_ok wat (range 0 (len wat - 1 + 1)) (mkScan [] None (-1)))
    as (st & -> & _).
  - apply Forall_forall. intros i Hi. unfold range in Hi.
    apply elem_of_seqZ in Hi. lia.
  - intros H. simpl in H. lia.
  - cbn. eauto.
Qed.

(** The only failure of [extract_func] is its assertion on the empty
    text. *)
Lemma extract_func_total (wat : list Z) :
  wat <> [] -> exists ranges, extract_func wat = Ok ranges.
Proof.
  intros Hne. unfold extract_func, extract_func_impl.
  destruct (Z.eqb_spec (len wat) 0) as [E|_].
  - destruct wat; [congruence|]. rewrite len_cons in E.
    pose proof (len_nonneg wat). lia.
  - destruct (split_sub_expr_total wat) as [ranges ->]. cbn. eauto.
Qed.

End split_facts.




(** ** The guest bridge *)

Lemma calls_of_app (name : string) (a b : list event) :
  calls_of name (a ++ b) = calls_of name a ++ calls_of name b.
Proof. unfold calls_of. apply flat_map_app. Qed.

Lemma returned_app (name : string) (a b : list event) :
  returned name (a ++ b) = returned name a ++ returned name b.
Proof. unfold returned. apply flat_map_app. Qed.

Lemma calls_of_store_events (name : string) (ptr : Z) (data : list Z) :
  forall i, calls_of name (lib_dwarf.store_events ptr i data) = [].
Proof. induction data as [|e data IH]; intros i; simpl; auto. Qed.

Lemma returned_store_events (name : string) (ptr : Z) (data : list Z) :
  forall i, returned name (lib_dwarf.store_events ptr i data) = [].
Proof. induction data as [|e data IH]; intros i; simpl; auto. Qed.

Lemma M_bind_unfold {G A B} (c : M G A) (k : A -> M G B) (w : world G) :
  (c ≫= k) w
  = match c w with
    | (Ok a, w') => k a w'
    | (Raise e, w') => (Raise e, w')
    end.
Proof. reflexivity. Qed.

(** One step into a sequence of host computations. *)
Ltac m_bind := rewrite M_bind_unfold; cbv beta iota.

Section bridge_facts.
Context {G : Type}.
Variable guest : exports G.
Import lib_dwarf.

Lemma call_func_spec (name : string) (args : list Z) (w : world G) :
  exists r w',
    call_func guest name args w = (r, w')
    /\ guest name args (memory w) (instance w) = (r, memory w', instance w')
    /\ trace w' = trace w ++ [Call name args r]
    /\ log w' = log w.
Proof.
  unfold call_func.
  destruct (guest name args (memory w) (instance w)) as [[r mem] inst].
  eexists _, _. repeat split.
Qed.

Lemma write_loop_spec (ptr : Z) (data : list Z) :
  forall i (w : world G),
    exists w',
      write_loop ptr i data w = (Ok tt, w')
      /\ trace w' = trace w ++ store_events ptr i data
      /\ instance w' = instance w
      /\ log w' = log w.
Proof.
  induction data as [|e data IH]; intros i w; simpl.
  - exists w. rewrite app_nil_r. repeat split.
  - unfold mbind, M_bind, store_byte. cbn.
    match goal with
    | |- context [write_loop ptr (i + 1) data ?w1] =>
        destruct (IH (i + 1) w1) as (w' & -> & Ht & Hi & Hl)
    end.
    exists w'. simpl in *. rewrite Ht, <- app_assoc. repeat split; assumption.
Qed.

(** [__enter__]: its events and its outcome, from the outcomes of the two
    exports it calls. *)
Lemma DWO_enter_spec (self : DWO) (w : world G) :
  exists (r_alloc r_create : res Z) (w' : world G),
    DWO_enter guest self w
    = (dwarf_ptr ← r_alloc; h ← r_create; Ok (h, mkDWO (bin self) (Some h)),
       w')
    /\ (guest "cabi_realloc" [0; 0; 4; len (bin self)]
               (memory w) (instance w)).1.1 = r_alloc
    /\ trace w' = trace w ++ enter_events (bin self) r_alloc r_create
    /\ log w' = log w.
Proof.
  unfold DWO_enter, mbind at 1, M_bind at 1.
  destruct (call_func_spec "cabi_realloc" [0; 0; 4; len (bin self)] w)
    as (r1 & w1 & -> & Hg1 & Ht1 & Hl1).
  destruct r1 as [ptr|e].
  - unfold write_to_linear_memory, mbind at 1, M_bind at 1.
    destruct (write_loop_spec ptr (bin self) 0 w1) as (w2 & -> & Ht2 & _ & Hl2).
    unfold mbind at 1, M_bind at 1.
    destruct (call_func_spec "dwo-create" [ptr; len (bin self)] w2)
      as (r3 & w3 & -> & _ & Ht3 & Hl3).
    exists (Ok ptr), r3, w3. split; [destruct r3; reflexivity|].
    split; [rewrite Hg1; reflexivity|].
    split; [|congruence].
    rewrite Ht3, Ht2, Ht1. unfold enter_events.
    rewrite <- !app_assoc. reflexivity.
  - exists (Raise e), (Raise e), w1. split; [reflexivity|].
    split; [rewrite Hg1; reflexivity|].
    split; [|congruence].
    rewrite Ht1. reflexivity.
Qed.

End bridge_facts.

Section scope_facts.
Context {G : Type}.
Variable guest : exports G.
Import lib_dwarf.

(** The body of the [with] block: its events and its outcome, from the
    outcomes of the accessor, of the decoding and of the post-return
    export. *)
Lemma get_line_map_spec (h : Z) (w : world G) :
  exists (r_struct : res Z) (r_text : res (list Z)) (r_post : res Z)
         (w' : world G),
    get_line_map guest h w
    = (json_struct_ptr ← r_struct; text ← r_text; _ ← r_post; Ok text, w')
    /\ trace w' = trace w ++ line_map_events h r_struct (is_ok r_text) r_post
    /\ log w' = log w.
Proof.
  unfold get_line_map. m_bind.
  destruct (call_func_spec guest "dwo-get-line-map" [h] w)
    as (r1 & w1 & -> & _ & Ht1 & Hl1).
  destruct r1 as [ptr|e].
  - unfold read_from_linear_memory, lift. do 4 m_bind.
    match goal with
    | |- context [utf8_decode ?b] => destruct (utf8_decode b) as [text|e] eqn:E
    end.
    + m_bind.
      destruct (call_func_spec guest "cabi_post_dwo-get-line-map" [ptr] w1)
        as (r2 & w2 & -> & _ & Ht2 & Hl2).
      exists (Ok ptr), (Ok text), r2, w2.
      split; [destruct r2; reflexivity|].
      split; [|congruence].
      rewrite Ht2, Ht1, <- app_assoc. reflexivity.
    + exists (Ok ptr), (Raise e), (Raise e), w1.
      split; [reflexivity|]. split; [|congruence].
      rewrite Ht1. reflexivity.
  - exists (Raise e), (Raise e), (Raise e), w1.
    split; [reflexivity|]. split; [|congruence].
    rewrite Ht1. reflexivity.
Qed.

Lemma DWO_exit_spec (bin : list Z) (h : Z) (w : world G) :
  exists (r_destroy : res Z) (w' : world G),
    DWO_exit guest (mkDWO bin (Some h)) w = (_ ← r_destroy; Ok tt, w')
    /\ trace w' = trace w ++ [Call "dwo-destroy" [h] r_destroy]
    /\ log w' = log w.
Proof.
  unfold DWO_exit. simpl. unfold mbind at 1, M_bind at 1.
  destruct (call_func_spec guest "dwo-destroy" [h] w)
    as (r & w' & -> & _ & Ht & Hl).
  exists r, w'. split; [destruct r; reflexivity|]. split; assumption.
Qed.

(** The whole scoped acquisition.  Either [__enter__] raises, and nothing
    else happens; or it yields a handle [h], the body runs, and [__exit__]
    runs after it whatever the body's outcome. *)
Lemma get_wasm_wat_mapping_spec (binary : list Z) (w : world G) :
  exists (r_alloc r_create : res Z),
    match (dwarf_ptr ← r_alloc; r_create) with
    | Raise e =>
        exists w',
          get_wasm_wat_mapping guest binary w = (Raise e, w')
          /\ trace w' = trace w ++ enter_events binary r_alloc r_create
    | Ok h =>
        exists (r_struct : res Z) (r_text : res (list Z))
               (r_post r_destroy : res Z) (w' : world G),
          get_wasm_wat_mapping guest binary w
          = (match r_destroy with
             | Raise e => Raise e
             | Ok _ =>
                 json_struct_ptr ← r_struct; text ← r_text; _ ← r_post; Ok text
             end, w')
          /\ trace w'
             = trace w
                 ++ enter_events binary r_alloc r_create
                 ++ line_map_events h r_struct (is_ok r_text) r_post
                 ++ [Call "dwo-destroy" [h] r_destroy]
    end
    /\ (DWO_enter guest (DWO_init binary) w).1
       = (dwarf_ptr ← r_alloc; h ← r_create; Ok (h, mkDWO binary (Some h))).
Proof.
  unfold get_wasm_wat_mapping, with_DWO.
  destruct (DWO_enter_spec guest (DWO_init binary) w)
    as (r_alloc & r_create & w1 & -> & _ & Ht1 & _).
  exists r_alloc, r_create. split; [|reflexivity].
  change (bin (DWO_init binary)) with binary in *.
  destruct r_alloc as [ptr|e]; [|cbn; eauto].
  destruct r_create as [h|e]; [|cbn; eauto].
  cbn [mbind res_bind Py.bind].
  destruct (get_line_map_spec h w1)
    as (r_struct & r_text & r_post & w2 & -> & Ht2 & _).
  destruct (DWO_exit_spec binary h w2) as (r_destroy & w3 & -> & Ht3 & _).
  exists r_struct, r_text, r_post, r_destroy, w3.
  split; [destruct r_destroy; reflexivity|].
  rewrite Ht3, Ht2, Ht1, <- !app_assoc. reflexivity.
Qed.

Lemma calls_of_enter_events (name : string) (bin : list Z)
      (r_alloc r_create : res Z) :
  name <> "cabi_realloc"%string -> name <> "dwo-create"%string ->
  calls_of name (enter_events bin r_alloc r_create) = [].
Proof.
  intros H1 H2.
  apply String.eqb_neq in H1, H2. rewrite String.eqb_sym in H1, H2.
  unfold enter_events, calls_of. cbn [flat_map]. rewrite H1. cbn [app].
  destruct r_alloc as [ptr|e]; [|reflexivity].
  pose proof (calls_of_store_events name ptr bin 0) as Hs.
  unfold calls_of in Hs. rewrite flat_map_app, Hs.
  cbn [flat_map app]. rewrite H2. reflexivity.
Qed.

(** The JSON parsing of [decode_dwarf] happens after the scope is left: it
    decides the outcome and changes nothing else. *)
Lemma decode_dwarf_world (json_loads : list Z -> res (list dwarf.entry))
      (dwo : list Z) (w : world G) :
  (dwarf.decode_dwarf guest json_loads dwo w).2
  = (get_wasm_wat_mapping guest dwo w).2.
Proof.
  unfold dwarf.decode_dwarf, mbind at 1, M_bind at 1.
  destruct (get_wasm_wat_mapping guest dwo w) as [[text|e] w']; [|reflexivity].
  unfold lift. cbn. destruct (json_loads text); reflexivity.
Qed.

Lemma decode_dwarf_result (json_loads : list Z -> res (list dwarf.entry))
      (dwo : list Z) (w : world G) :
  (dwarf.decode_dwarf guest json_loads dwo w).1
  = (text ← (get_wasm_wat_mapping guest dwo w).1;
     debug_line ← json_loads text;
     Ok (dwarf.group_addresses debug_line)).
Proof.
  unfold dwarf.decode_dwarf, mbind at 1, M_bind at 1.
  destruct (get_wasm_wat_mapping guest dwo w) as [[text|e] w']; [|reflexivity].
  unfold lift. cbn. destruct (json_loads text); reflexivity.
Qed.

End scope_facts.

Lemma calls_of_line_map_events_destroy (h : Z) (r_struct : res Z)
      (decoded : bool) (r_post : res Z) :
  calls_of "dwo-destroy" (lib_dwarf.line_map_events h r_struct decoded r_post)
  = [].
Proof. destruct r_struct, decoded; reflexivity. Qed.

Lemma returned_line_map_events_create (h : Z) (r_struct : res Z)
      (decoded : bool) (r_post : res Z) :
  returned "dwo-create" (lib_dwarf.line_map_events h r_struct decoded r_post)
  = [].
Proof. destruct r_struct, decoded, r_post; reflexivity. Qed.

Lemma returned_enter_events_create (bin : list Z) (ptr h : Z) :
  returned "dwo-create" (lib_dwarf.enter_events bin (Ok ptr) (Ok h)) = [h].
Proof.
  unfold lib_dwarf.enter_events, returned. cbn [flat_map app].
  pose proof (returned_store_events "dwo-create" ptr bin 0) as Hs.
  unfold returned in Hs. rewrite flat_map_app, Hs. reflexivity.
Qed.

(** C3: whenever [__enter__] has produced a handle, the events of that
    invocation of [get_wasm_wat_mapping] hold exactly one call of
    [dwo-destroy], on the handle that [dwo-create] returned.  Nothing is
    assumed about the outcome of the body, so this covers its normal return
    and every exception raised inside the scope; and [decode_dwarf], whose
    JSON parsing may fail afterwards, adds no event. *)
Theorem dwo_destroy_exactly_once {G : Type} (guest : exports G)
        (json_loads : list Z -> res (list dwarf.entry))
        (binary : list Z) (w w1 : world G) (h : Z) (self : lib_dwarf.DWO) :
  lib_dwarf.DWO_enter guest (lib_dwarf.DWO_init binary) w = (Ok (h, self), w1) ->
  exists evs,
    trace (lib_dwarf.get_wasm_wat_mapping guest binary w).2 = trace w ++ evs
    /\ trace (dwarf.decode_dwarf guest json_loads binary w).2 = trace w ++ evs
    /\ returned "dwo-create" evs = [h]
    /\ calls_of "dwo-destroy" evs = [[h]].
Proof.
  intros Henter.
  destruct (get_wasm_wat_mapping_spec guest binary w)
    as (r_alloc & r_create & Hcase & Hres).
  rewrite Henter in Hres. cbn [fst] in Hres.
  destruct r_alloc as [ptr|e]; [|discriminate].
  destruct r_create as [h'|e]; [|discriminate].
  cbn in Hres. injection Hres as -> _.
  cbn [mbind res_bind Py.bind] in Hcase.
  destruct Hcase as (r_struct & r_text & r_post & r_destroy & w' & Hrun & Ht).
  eexists. rewrite decode_dwarf_world, Hrun. cbn [snd].
  split; [exact Ht|]. split; [exact Ht|]. split.
  - rewrite !returned_app, returned_enter_events_create,
      returned_line_map_events_create.
    destruct r_destroy; reflexivity.
  - rewrite !calls_of_app, calls_of_enter_events,
      calls_of_line_map_events_destroy by discriminate.
    reflexivity.
Qed.

Lemma dwo_destroy_exactly_once_witness :
  let guest := Demo.demo_guest 1024 64 in
  let w := Demo.demo_world 64 128 (Str.codes "{") in
  exists evs,
    trace (lib_dwarf.get_wasm_wat_mapping guest [1; 2; 3] w).2 = trace w ++ evs
    /\ trace (dwarf.decode_dwarf guest Demo.demo_json_loads [1; 2; 3] w).2
       = trace w ++ evs
    /\ returned "dwo-create" evs = [1]
    /\ calls_of "dwo-destroy" evs = [[1]].
Proof.
  intros guest w.
  apply (dwo_destroy_exactly_once guest Demo.demo_json_loads [1; 2; 3] w
           (lib_dwarf.DWO_enter guest (lib_dwarf.DWO_init [1; 2; 3]) w).2
           1 (lib_dwarf.mkDWO [1; 2; 3] (Some 1))).
  reflexivity.
Defined.

(** The exit paths of the scope on the small guest: normal return, a trap of
    the accessor, a payload that does not decode.  Each run ends with the
    one call of [dwo-destroy]. *)
Example scope_exit_normal :
  let run := lib_dwarf.get_wasm_wat_mapping (Demo.demo_guest 1024 64) [1; 2; 3]
               (Demo.demo_world 64 128 (Str.codes "[]")) in
  run.1 = Ok (Str.codes "[]")
  /\ trace run.2
     = [Call "cabi_realloc" [0; 0; 4; 3] (Ok 1024);
        Store 1024 1; Store 1025 2; Store 1026 3;
        Call "dwo-create" [1024; 3] (Ok 1);
        Call "dwo-get-line-map" [1] (Ok 64);
        Call "cabi_post_dwo-get-line-map" [64] (Ok 0);
        Call "dwo-destroy" [1] (Ok 0)].
Proof. split; reflexivity. Qed.

Example scope_exit_trap :
  let run := lib_dwarf.get_wasm_wat_mapping (Demo.trapping_guest 1024) [1; 2; 3]
               (Demo.demo_world 64 128 (Str.codes "[]")) in
  run.1 = Raise GuestTrap
  /\ trace run.2
     = [Call "cabi_realloc" [0; 0; 4; 3] (Ok 1024);
        Store 1024 1; Store 1025 2; Store 1026 3;
        Call "dwo-create" [1024; 3] (Ok 1);
        Call "dwo-get-line-map" [1] (Raise GuestTrap);
        Call "dwo-destroy" [1] (Ok 0)].
Proof. split; reflexivity. Qed.

Example scope_exit_decode_error :
  let run := lib_dwarf.get_wasm_wat_mapping (Demo.demo_guest 1024 64) [1; 2; 3]
               (Demo.demo_world 64 128 [0xC3]) in
  run.1 = Raise UnicodeDecodeError
  /\ trace run.2
     = [Call "cabi_realloc" [0; 0; 4; 3] (Ok 1024);
        Store 1024 1; Store 1025 2; Store 1026 3;
        Call "dwo-create" [1024; 3] (Ok 1);
        Call "dwo-get-line-map" [1] (Ok 64);
        Call "dwo-destroy" [1] (Ok 0)].
Proof. split; reflexivity. Qed.

(** When [__enter__] raises there is no handle, and nothing is destroyed. *)
Lemma dwo_destroy_needs_handle {G : Type} (guest : exports G)
      (binary : list Z) (w w1 : world G) (e : exn) :
  lib_dwarf.DWO_enter guest (lib_dwarf.DWO_init binary) w = (Raise e, w1) ->
  lib_dwarf.get_wasm_wat_mapping guest binary w = (Raise e, w1)
  /\ calls_of "dwo-destroy" (trace w1) = calls_of "dwo-destroy" (trace w).
Proof.
  intros Henter. split.
  - unfold lib_dwarf.get_wasm_wat_mapping, lib_dwarf.with_DWO.
    rewrite Henter. reflexivity.
  - destruct (DWO_enter_spec guest (lib_dwarf.DWO_init binary) w)
      as (r_alloc & r_create & w' & Hrun & _ & Ht & _).
    rewrite Henter in Hrun. injection Hrun as _ <-.
    rewrite Ht, calls_of_app, calls_of_enter_events by discriminate.
    apply app_nil_r.
Qed.

(** C4, as stated, fails: when the payload is not valid UTF-8 the decoding
    raises inside the scope, after the accessor has returned the struct
    pointer [64], and the post-return export is never called. *)
Lemma post_return_skipped_counterexample :
  let guest := Demo.demo_guest 1024 64 in
  let w := Demo.demo_world 64 128 [0xFF] in
  let run := dwarf.decode_dwarf guest Demo.demo_json_loads [1; 2; 3] w in
  run.1 = Raise UnicodeDecodeError
  /\ returned "dwo-get-line-map" (trace run.2) = [64]
  /\ calls_of "cabi_post_dwo-get-line-map" (trace run.2) = [].
Proof. repeat split; reflexivity. Qed.

(** The body of the [with] block once the accessor has returned and the
    payload decodes: the post-return export is called, and its outcome
    decides the outcome of the body. *)
Lemma get_line_map_decoded {G : Type} (guest : exports G) (h : Z)
      (w1 w2 : world G) (json_struct_ptr : Z) (text : list Z) :
  lib_dwarf.call_func guest "dwo-get-line-map" [h] w1
  = (Ok json_struct_ptr, w2) ->
  lib_dwarf.utf8_decode
    (lib_dwarf.line_map_payload (memory w2) json_struct_ptr) = Ok text ->
  exists (r_post : res Z) (w3 : world G),
    lib_dwarf.get_line_map guest h w1 = (_ ← r_post; Ok text, w3)
    /\ trace w3
       = trace w1
           ++ lib_dwarf.line_map_events h (Ok json_struct_ptr) true r_post.
Proof.
  intros Hacc Hdec.
  destruct (call_func_spec guest "dwo-get-line-map" [h] w1)
    as (r & w' & Hc & _ & Ht & _).
  rewrite Hacc in Hc. injection Hc as <- <-.
  unfold lib_dwarf.get_line_map. m_bind. rewrite Hacc.
  unfold lib_dwarf.read_from_linear_memory, lift. do 4 m_bind.
  match goal with
  | |- context [lib_dwarf.utf8_decode ?b] =>
      change b
        with (lib_dwarf.line_map_payload (memory w2) json_struct_ptr)
  end.
  rewrite Hdec. m_bind.
  destruct (call_func_spec guest "cabi_post_dwo-get-line-map"
              [json_struct_ptr] w2)
    as (r_post & w3 & -> & _ & Ht3 & _).
  exists r_post, w3. split; [destruct r_post; reflexivity|].
  rewrite Ht3, Ht, <- app_assoc. reflexivity.
Qed.

(** C4, amended: in every invocation in which the accessor has returned a
    struct pointer and the payload read through it decodes as UTF-8, the
    events of the invocation hold exactly one call of the post-return
    export, on that struct pointer.  Nothing is assumed of the outcome of
    the post-return export or of [dwo-destroy]: either may trap.  The JSON
    parsing of [decode_dwarf] comes after the invocation: it adds no event,
    and when it fails on the returned text its exception is the outcome. *)
Theorem post_return_after_retrieval {G : Type} (guest : exports G)
        (json_loads : list Z -> res (list dwarf.entry))
        (dwo : list Z) (w w1 w2 : world G) (h : Z) (self : lib_dwarf.DWO)
        (json_struct_ptr : Z) (text : list Z) :
  lib_dwarf.DWO_enter guest (lib_dwarf.DWO_init dwo) w = (Ok (h, self), w1) ->
  lib_dwarf.call_func guest "dwo-get-line-map" [h] w1
  = (Ok json_struct_ptr, w2) ->
  lib_dwarf.utf8_decode
    (lib_dwarf.line_map_payload (memory w2) json_struct_ptr) = Ok text ->
  let run := lib_dwarf.get_wasm_wat_mapping guest dwo w in
  exists evs,
    trace run.2 = trace w ++ evs
    /\ returned "dwo-get-line-map" evs = [json_struct_ptr]
    /\ calls_of "cabi_post_dwo-get-line-map" evs = [[json_struct_ptr]]
    /\ (dwarf.decode_dwarf guest json_loads dwo w).2 = run.2
    /\ (forall text',
          run.1 = Ok text' ->
          text' = text
          /\ forall e, json_loads text' = Raise e ->
               (dwarf.decode_dwarf guest json_loads dwo w).1 = Raise e).
Proof.
  intros Henter Hacc Hdec run.
  destruct (DWO_enter_spec guest (lib_dwarf.DWO_init dwo) w)
    as (r_alloc & r_create & w1' & Hrun & _ & Ht1 & _).
  rewrite Henter in Hrun. injection Hrun as Hres <-.
  destruct r_alloc as [ptr|?]; [|discriminate].
  destruct r_create as [h'|?]; [|discriminate].
  cbn in Hres. injection Hres as <- ->.
  change (lib_dwarf.bin (lib_dwarf.DWO_init dwo)) with dwo in *.
  destruct (get_line_map_decoded guest h w1 w2 json_struct_ptr text Hacc Hdec)
    as (r_post & w3 & Hbody & Ht2).
  destruct (DWO_exit_spec guest dwo h w3) as (r_destroy & w4 & Hexit & Ht3 & _).
  assert (Hmap : run
                 = (match r_destroy with
                    | Raise e => Raise e
                    | Ok _ => _ ← r_post; Ok text
                    end, w4)).
  { unfold run, lib_dwarf.get_wasm_wat_mapping, lib_dwarf.with_DWO.
    rewrite Henter, Hbody, Hexit. destruct r_destroy; reflexivity. }
  exists (lib_dwarf.enter_events dwo (Ok ptr) (Ok h)
          ++ lib_dwarf.line_map_events h (Ok json_struct_ptr) true r_post
          ++ [Call "dwo-destroy" [h] r_destroy]).
  split.
  { rewrite Hmap. cbn [snd]. rewrite Ht3, Ht2, Ht1, <- !app_assoc.
    reflexivity. }
  split.
  { rewrite !returned_app. unfold lib_dwarf.enter_events, returned.
    cbn [flat_map app].
    pose proof (returned_store_events "dwo-get-line-map" ptr dwo 0) as Hs.
    unfold returned in Hs. rewrite flat_map_app, Hs.
    destruct r_post, r_destroy; reflexivity. }
  split.
  { rewrite !calls_of_app, calls_of_enter_events by discriminate.
    reflexivity. }
  split.
  - apply decode_dwarf_world.
  - intros text' Hok.
    assert (text' = text) as ->.
    { rewrite Hmap in Hok. cbn [fst] in Hok.
      destruct r_destroy; [|discriminate].
      destruct r_post; [|discriminate]. cbn in Hok. congruence. }
    split; [reflexivity|].
    intros e He. rewrite decode_dwarf_result. fold run. rewrite Hok.
    cbn. rewrite He. reflexivity.
Qed.

Lemma post_return_after_retrieval_witness :
  let guest :=
    Demo.releasing_guest (Raise GuestTrap) (Raise GuestTrap) 1024 64 in
  let w := Demo.demo_world 64 128 (Str.codes "{") in
  let run := lib_dwarf.get_wasm_wat_mapping guest [1; 2; 3] w in
  run.1 = Raise GuestTrap
  /\ exists evs,
       trace run.2 = trace w ++ evs
       /\ returned "dwo-get-line-map" evs = [64]
       /\ calls_of "cabi_post_dwo-get-line-map" evs = [[64]]
       /\ (dwarf.decode_dwarf guest Demo.demo_json_loads [1; 2; 3] w).2
          = run.2
       /\ (forall text',
             run.1 = Ok text' ->
             text' = Str.codes "{"
             /\ forall e, Demo.demo_json_loads text' = Raise e ->
                  (dwarf.decode_dwarf guest Demo.demo_json_loads
                     [1; 2; 3] w).1 = Raise e).
Proof.
  intros guest w run. split; [reflexivity|].
  apply (post_return_after_retrieval guest Demo.demo_json_loads [1; 2; 3] w
           (lib_dwarf.DWO_enter guest (lib_dwarf.DWO_init [1; 2; 3]) w).2
           (lib_dwarf.call_func guest "dwo-get-line-map" [1]
              (lib_dwarf.DWO_enter guest (lib_dwarf.DWO_init [1; 2; 3]) w).2).2
           1 (lib_dwarf.mkDWO [1; 2; 3] (Some 1)) 64 (Str.codes "{"));
    reflexivity.
Defined.

(** C5, as stated, fails: with an allocator that answers the null pointer,
    [__enter__] raises nothing; it stores the blob at addresses 0, 1, 2 and
    returns the handle of [dwo-create]. *)
Lemma DWO_enter_null_pointer_counterexample :
  let guest := Demo.demo_guest 0 64 in
  let w := Demo.demo_world 64 128 [] in
  let run := lib_dwarf.DWO_enter guest (lib_dwarf.DWO_init [7; 8; 9]) w in
  run.1 = Ok (1, lib_dwarf.mkDWO [7; 8; 9] (Some 1))
  /\ trace run.2
     = [Call "cabi_realloc" [0; 0; 4; 3] (Ok 0);
        Store 0 7; Store 1 8; Store 2 9;
        Call "dwo-create" [0; 3] (Ok 1)].
Proof. split; reflexivity. Qed.

(** C5, amended: [__enter__] does not inspect the pointer it gets.  When
    the allocator answers the null pointer, the blob is stored byte by byte
    from address 0 on, [dwo-create] is called with [(0, len(blob))], and the
    outcome of [__enter__] is the outcome of that call. *)
Theorem DWO_enter_null_pointer {G : Type} (guest : exports G)
        (blob : list Z) (w : world G) :
  (guest "cabi_realloc" [0; 0; 4; len blob] (memory w) (instance w)).1.1
  = Ok 0 ->
  exists (r_create : res Z) (w' : world G),
    lib_dwarf.DWO_enter guest (lib_dwarf.DWO_init blob) w
    = (h ← r_create; Ok (h, lib_dwarf.mkDWO blob (Some h)), w')
    /\ trace w'
       = trace w
           ++ Call "cabi_realloc" [0; 0; 4; len blob] (Ok 0)
           :: lib_dwarf.store_events 0 0 blob
           ++ [Call "dwo-create" [0; len blob] r_create].
Proof.
  intros Halloc.
  destruct (DWO_enter_spec guest (lib_dwarf.DWO_init blob) w)
    as (r_alloc & r_create & w' & Hrun & Hr & Ht & _).
  change (lib_dwarf.bin (lib_dwarf.DWO_init blob)) with blob in *.
  rewrite Halloc in Hr. subst r_alloc.
  exists r_create, w'. split; [exact Hrun | exact Ht].
Qed.

Lemma DWO_enter_null_pointer_witness :
  let guest := Demo.demo_guest 0 64 in
  let w := Demo.demo_world 64 128 [] in
  exists (r_create : res Z) (w' : world unit),
    lib_dwarf.DWO_enter guest (lib_dwarf.DWO_init [7; 8; 9]) w
    = (h ← r_create; Ok (h, lib_dwarf.mkDWO [7; 8; 9] (Some h)), w')
    /\ trace w'
       = trace w
           ++ Call "cabi_realloc" [0; 0; 4; 3] (Ok 0)
           :: lib_dwarf.store_events 0 0 [7; 8; 9]
           ++ [Call "dwo-create" [0; 3] r_create].
Proof.
  intros guest w.
  apply (DWO_enter_null_pointer guest [7; 8; 9] w). reflexivity.
Defined.

(** ** The composition of the stages *)

Section compose_facts.
Context {G : Type}.
Import dwarf.

(** A machine-code offset that stage 3 does not know ends the innermost
    loop with [KeyError]. *)
Lemma machine_code_offset_loop_missing (stage3 : gmap Z Z) (wat_line : Z)
      (known : list Z) (missing : Z) (rest : list Z) :
  forall acc,
    Forall (fun o => is_Some (stage3 !! o)) known ->
    stage3 !! missing = None ->
    machine_code_offset_loop stage3 wat_line (known ++ missing :: rest) acc
    = Raise (KeyError missing).
Proof.
  induction known as [|o known IH]; intros acc Hknown Hmiss; simpl.
  - rewrite Hmiss. reflexivity.
  - inversion Hknown as [|? ? [line Ho] Hk]; subst. rewrite Ho.
    apply IH; assumption.
Qed.

(** A wasm offset that stage 1 does not know is logged and skipped: the
    loop goes on with the next offset and the result is untouched. *)
Lemma wasm_offset_loop_missing (wasm : list Z) (stage1 : gmap Z (list Z))
      (stage3 : gmap Z Z) (wat_line wasm_offset : Z) (rest : list Z)
      (acc : gmap Z (list Z)) (w : world G) (name : string) :
  stage1 !! wasm_offset = None ->
  wasm_parser.get_wasm_op_code_str wasm wasm_offset = Ok name ->
  wasm_offset_loop wasm stage1 stage3 wat_line (wasm_offset :: rest) acc w
  = wasm_offset_loop wasm stage1 stage3 wat_line rest acc
      (mkWorld (memory w) (instance w) (trace w)
               (log w ++ [Info_not_found wasm_offset name])).
Proof.
  intros Hmiss Hname. cbn [wasm_offset_loop]. rewrite Hmiss.
  m_bind. unfold lift. rewrite Hname. m_bind. reflexivity.
Qed.

End compose_facts.

(** C2: on the line records [{(addr=10, line=3)}] (addresses absolute, so
    grouped with a zero code-section offset), the machine-code map
    [{10: [0x1000]}] and the assembly index [{0x1000: 7}], the composition
    returns exactly [{3: [7]}]. *)
Theorem compose_stages_example {G : Type} (wasm : list Z) (w : world G) :
  dwarf.group_by_line 0 [dwarf.mkEntry 3 10] = [(3, [10])]
  /\ (dwarf.compose_stages wasm {[10 := [0x1000]]}
        (dwarf.group_by_line 0 [dwarf.mkEntry 3 10]) {[0x1000 := 7]} w).1
     = Ok {[3 := [7]]}.
Proof. split; reflexivity. Qed.

(** C1: the code at the failing input.  On the same line records and
    machine-code map but an empty assembly index, the composition does not
    return the empty mapping: the subscript of the stage-3 dictionary raises
    [KeyError] for the address [0x1000], and no diagnostic of an unresolved
    offset has been recorded. *)
Theorem compose_stages_gap_raises {G : Type} (wasm : list Z) (w : world G) :
  let run := dwarf.compose_stages wasm {[10 := [0x1000]]}
               (dwarf.group_by_line 0 [dwarf.mkEntry 3 10]) ∅ w in
  run.1 = Raise (KeyError 0x1000)
  /\ log run.2
     = log w ++ [Debug_wat_line 3 [10];
                 Debug_machine_code_offsets 3 10 ["0x1000"%string]]
  /\ dwarf.unresolved (log run.2) = dwarf.unresolved (log w).
Proof.
  intros run. split; [reflexivity|].
  assert (Hlog : log run.2
                 = log w ++ [Debug_wat_line 3 [10];
                             Debug_machine_code_offsets 3 10 ["0x1000"%string]]).
  { change (log run.2)
      with ((log w ++ [Debug_wat_line 3 [10]])
              ++ [Debug_machine_code_offsets 3 10 ["0x1000"%string]]).
    rewrite <- app_assoc. reflexivity. }
  split; [exact Hlog|].
  rewrite Hlog. unfold dwarf.unresolved. rewrite List.filter_app.
  cbn. apply app_nil_r.
Qed.

(** * Further properties of the embedded code *)

(** ** LEB128: consumed bytes, value bounds, sign extension *)

Section leb128_more.
Import leb128.

Lemma group_bounds (e i : Z) :
  0 <= i ->
  0 <= Z.shiftl (Z.land e 0x7F) (i * 7) <= 127 * 2 ^ (7 * i).
Proof.
  intros Hi. rewrite Z.shiftl_mul_pow2 by lia.
  change 0x7F with (Z.ones 7). rewrite Z.land_ones by lia.
  pose proof (Z.mod_pos_bound e (2 ^ 7) ltac:(lia)) as Hm.
  replace (i * 7) with (7 * i) by lia.
  assert (0 < 2 ^ (7 * i)) by (apply Z.pow_pos_nonneg; lia).
  change (Z.ones 7) with 127.
  generalize dependent (2 ^ (7 * i)). generalize dependent (e `mod` 2 ^ 7).
  intros m Hm p Hp. change (2 ^ 7) with 128 in Hm. nia.
Qed.

Lemma pow_7_succ (i : Z) : 0 <= i -> 2 ^ (7 * (i + 1)) = 128 * 2 ^ (7 * i).
Proof.
  intros Hi. replace (7 * (i + 1)) with (7 * i + 7) by lia.
  rewrite Z.pow_add_r by lia. change (2 ^ 7) with 128. lia.
Qed.

(** The groups from index [i] on stay below [2^(7*(i + len b))]. *)
Lemma groups_value_bounds (b : list Z) :
  forall i, 0 <= i ->
    0 <= groups_value i b /\
    groups_value i b + 2 ^ (7 * i) <= 2 ^ (7 * (i + len b)).
Proof.
  induction b as [|e b IH]; intros i Hi; simpl.
  - unfold len. simpl. rewrite Z.add_0_r. lia.
  - pose proof (group_bounds e i Hi) as Hg.
    destruct (IH (i + 1) ltac:(lia)) as [H0 H1].
    rewrite len_cons.
    replace (i + (1 + len b)) with (i + 1 + len b) by lia.
    rewrite pow_7_succ in H1 by lia. lia.
Qed.

Lemma groups_value_app (a b : list Z) :
  forall i, groups_value i (a ++ b) = groups_value i a + groups_value (i + len a) b.
Proof.
  induction a as [|e a IH]; intros i; simpl.
  - unfold len. simpl. rewrite Z.add_0_r. reflexivity.
  - rewrite IH, len_cons. replace (i + 1 + len a) with (i + (1 + len a)) by lia.
    lia.
Qed.

(** The loop of [u.decode], on any input: it consumes a prefix [used] made of
    bytes with the continuation bit, closed by one byte without it or by the
    end of the input. *)
Lemma u_decode_loop_shape (b : list Z) :
  forall i r last,
    b <> [] ->
    exists used rest,
      b = used ++ rest
      /\ used <> []
      /\ all_continue (removelast used) = true
      /\ (terminated used = true \/ rest = [])
      /\ u.decode_loop b i r last
         = (r + groups_value i used, Some (i + len used - 1)).
Proof.
  induction b as [|e b IH]; intros i r last Hne; [congruence|].
  simpl. destruct (Z.land e 0x80 =? 0x00) eqn:He.
  - exists [e], b. simpl. rewrite He.
    repeat split; auto; try discriminate.
    f_equal; [lia|]. f_equal. unfold len. simpl. lia.
  - destruct b as [|e' b'].
    + exists [e], []. simpl.
      repeat split; auto; try discriminate.
      f_equal; [lia|]. f_equal. unfold len. simpl. lia.
    + destruct (IH (i + 1) (r + Z.shiftl (Z.land e 0x7F) (i * 7)) (Some i))
        as (used & rest & Hb & Hu & Hall & Hend & Hrun); [discriminate|].
      exists (e :: used), rest. rewrite Hb at 1.
      split; [reflexivity|]. split; [discriminate|].
      destruct used as [|u0 used']; [congruence|].
      split; [|split].
      * change (removelast (e :: u0 :: used')) with (e :: removelast (u0 :: used')).
        simpl. rewrite He. simpl. exact Hall.
      * destruct Hend as [Ht|Hr]; [left|right; exact Hr].
        change (terminated (e :: u0 :: used'))
          with (negb (Z.land e 0x80 =? 0x00) && terminated (u0 :: used')).
        rewrite He. exact Ht.
      * rewrite Hrun. cbn [groups_value]. f_equal; [lia|].
        f_equal. rewrite (len_cons e). lia.
Qed.

(** The loops of the two decoders run alike. *)
Lemma i_decode_loop_u (b : list Z) :
  forall i r last,
    (i.decode_loop b i r last).1 = (u.decode_loop b i r (fst <$> last)).1
    /\ fst <$> (i.decode_loop b i r last).2
       = (u.decode_loop b i r (fst <$> last)).2.
Proof.
  induction b as [|e b IH]; intros i r last; simpl; [auto|].
  destruct (Z.land e 0x80 =? 0x00); simpl; [auto|].
  apply (IH (i + 1) _ (Some (i, e))).
Qed.

(** The element the loop of [i.decode] ends on is the last consumed one. *)
Lemma i_decode_loop_last (used : list Z) :
  forall rest i r prev e,
    all_continue (removelast used) = true ->
    (terminated used = true \/ rest = []) ->
    last used = Some e ->
    (i.decode_loop (used ++ rest) i r prev).2 = Some (i + len used - 1, e).
Proof.
  induction used as [|x used IH]; intros rest i r prev e Hall Hend Hlast;
    [discriminate|].
  destruct used as [|y used'].
  - simpl in Hlast. injection Hlast as ->. simpl.
    destruct (Z.land e 0x80 =? 0x00) eqn:He.
    + simpl. f_equal. f_equal. unfold len. simpl. lia.
    + destruct Hend as [Ht | ->]; [simpl in Ht; congruence|].
      simpl. f_equal. f_equal. unfold len. simpl. lia.
  - change (removelast (x :: y :: used')) with (x :: removelast (y :: used')) in Hall.
    simpl in Hall. apply andb_prop in Hall as [Hx Hall].
    apply negb_true_iff in Hx.
    change ((x :: y :: used') ++ rest) with (x :: (y :: used') ++ rest).
    cbn [i.decode_loop]. rewrite Hx.
    rewrite (IH rest (i + 1) _ (Some (i, x)) e); try assumption.
    + f_equal. f_equal. rewrite (len_cons x). lia.
    + destruct Hend as [Ht|Hr]; [left|right; exact Hr].
      change (terminated (x :: y :: used'))
        with (negb (Z.land x 0x80 =? 0x00) && terminated (y :: used')) in Ht.
      apply andb_prop in Ht as [_ Ht]. exact Ht.
Qed.

Lemma terminated_removelast (enc : list Z) :
  terminated enc = true -> all_continue (removelast enc) = true.
Proof.
  induction enc as [|x enc IH]; [discriminate|].
  destruct enc as [|y enc']; [reflexivity|].
  change (terminated (x :: y :: enc'))
    with (negb (Z.land x 0x80 =? 0x00) && terminated (y :: enc')).
  intros H. apply andb_prop in H as [Hx Ht].
  change (removelast (x :: y :: enc')) with (x :: removelast (y :: enc')).
  simpl. rewrite Hx. simpl. apply IH. exact Ht.
Qed.

(** Setting the bits from [n] on in a value below [2^n] subtracts [2^n]. *)
Lemma lor_sign_mask (r n : Z) :
  0 <= n -> 0 <= r < 2 ^ n ->
  Z.lor r (- Z.shiftl 1 n) = r - 2 ^ n.
Proof.
  intros Hn Hr. rewrite Z.shiftl_1_l.
  assert (Hland : Z.land r (- 2 ^ n) = 0).
  { apply Z.bits_inj'. intros m Hm. rewrite Z.land_spec, Z.bits_0.
    destruct (Z.lt_ge_cases m n) as [Hlt|Hge].
    - rewrite Z.bits_opp by lia.
      replace (Z.pred (2 ^ n)) with (Z.ones n)
        by (rewrite Z.ones_equiv; reflexivity).
      rewrite Z.ones_spec_low by lia. simpl. apply andb_false_r.
    - assert (Z.testbit r m = false) as ->; [|reflexivity].
      destruct (Z.eq_dec r 0) as [->|Hr0]; [apply Z.bits_0|].
      apply Z.bits_above_log2; [lia|].
      apply Z.log2_lt_pow2; [lia|].
      assert (2 ^ n <= 2 ^ m) by (apply Z.pow_le_mono_r; lia). lia. }
  rewrite <- Z.lxor_lor by exact Hland.
  rewrite <- Z.add_nocarry_lxor by exact Hland. lia.
Qed.

(** [i.decode] on an input that starts with the consumed bytes [used]. *)
Lemma i_decode_shape (used rest : list Z) (e : Z) :
  all_continue (removelast used) = true ->
  (terminated used = true \/ rest = []) ->
  last used = Some e ->
  i.decode (used ++ rest)
  = Ok (if Z.land e 0x40 =? 0 then groups_value 0 used
        else groups_value 0 used - 2 ^ (7 * len used),
        len used)
  /\ u.decode (used ++ rest) = Ok (groups_value 0 used, len used).
Proof.
  intros Hall Hend Hlast.
  assert (Hne : used ++ rest <> []) by (destruct used; discriminate).
  destruct (u_decode_loop_shape (used ++ rest) 0 0 None Hne)
    as (used' & rest' & Hsplit & Hne' & Hall' & Hend' & Hrun).
  pose proof (i_decode_loop_last used rest 0 0 None e Hall Hend Hlast) as Hi2.
  destruct (i_decode_loop_u (used ++ rest) 0 0 None) as [H1 H2].
  change (fst <$> (@None (Z * Z))) with (@None Z) in H1, H2.
  rewrite Hrun in H1, H2. rewrite Hi2 in H2. cbn in H1, H2.
  injection H2 as Hlen.
  assert (Hlen' : len used' = len used) by lia.
  assert (Hused : used' = used).
  { apply (f_equal (take (length used))) in Hsplit.
    rewrite take_app_length in Hsplit.
    replace (length used) with (length used') in Hsplit
      by (unfold len in Hlen'; lia).
    rewrite take_app_length in Hsplit. congruence. }
  subst used'. split.
  - unfold i.decode.
    destruct (i.decode_loop (used ++ rest) 0 0 None) as [r o].
    cbn in H1, Hi2. subst r o.
    destruct (groups_value_bounds used 0 ltac:(lia)) as [Hlo Hhi].
    rewrite Z.add_0_l.
    destruct (Z.land e 0x40 =? 0); cbn [negb].
    + f_equal. f_equal. lia.
    + rewrite lor_sign_mask.
      * f_equal. f_equal; [|lia]. f_equal. f_equal. lia.
      * pose proof (len_nonneg used). destruct used; [discriminate|].
        rewrite len_cons. rewrite len_cons in *. lia.
      * replace ((0 + len used - 1) * 7 + 7) with (7 * (0 + len used)) by lia.
        change (2 ^ (7 * 0)) with 1 in Hhi. lia.
  - unfold u.decode. rewrite Hrun. f_equal. f_equal; lia.
Qed.

End leb128_more.

(** X1: [u.decode] reads an encoding in place.  On a terminated encoding
    followed by any bytes it returns the value of the encoding and its
    length, the bytes after it being ignored; the value is below
    [2^(7*length)]. *)
Theorem u_decode_prefix (enc rest : list Z) :
  leb128.terminated enc = true ->
  leb128.u.decode (enc ++ rest) = Ok (leb128.groups_value 0 enc, len enc)
  /\ 0 <= leb128.groups_value 0 enc < 2 ^ (7 * len enc).
Proof.
  intros Ht. split; [apply decode_terminated; exact Ht|].
  destruct (groups_value_bounds enc 0 ltac:(lia)) as [Hlo Hhi].
  change (2 ^ (7 * 0)) with 1 in Hhi. rewrite Z.add_0_l in Hhi. lia.
Qed.

Lemma u_decode_prefix_witness :
  leb128.u.decode ([0xE5; 0x8E; 0x26] ++ [0xFF; 0x00])
  = Ok (leb128.groups_value 0 [0xE5; 0x8E; 0x26], len [0xE5; 0x8E; 0x26])
  /\ 0 <= leb128.groups_value 0 [0xE5; 0x8E; 0x26]
       < 2 ^ (7 * len [0xE5; 0x8E; 0x26]).
Proof. apply (u_decode_prefix [0xE5; 0x8E; 0x26] [0xFF; 0x00]). reflexivity. Defined.

(** X2: what [u.decode] consumes, on any non-empty input: the bytes up to
    and including the first one without the continuation bit, or the whole
    input when there is none.  The result is the value of the consumed
    groups and their number. *)
Theorem u_decode_consumes (b : list Z) :
  b <> [] ->
  exists used rest,
    b = used ++ rest
    /\ used <> []
    /\ leb128.all_continue (removelast used) = true
    /\ (leb128.terminated used = true \/ rest = [])
    /\ leb128.u.decode b = Ok (leb128.groups_value 0 used, len used).
Proof.
  intros Hne.
  destruct (u_decode_loop_shape b 0 0 None Hne)
    as (used & rest & Hb & Hu & Hall & Hend & Hrun).
  exists used, rest. repeat split; try assumption.
  unfold leb128.u.decode. rewrite Hrun. f_equal. f_equal; lia.
Qed.

Lemma u_decode_consumes_witness :
  exists used rest,
    [0x80; 0x01; 0x7F] = used ++ rest
    /\ used <> []
    /\ leb128.all_continue (removelast used) = true
    /\ (leb128.terminated used = true \/ rest = [])
    /\ leb128.u.decode [0x80; 0x01; 0x7F]
       = Ok (leb128.groups_value 0 used, len used).
Proof. apply (u_decode_consumes [0x80; 0x01; 0x7F]). discriminate. Defined.

(** X3: [i.decode] sign-extends.  On a terminated encoding followed by any
    bytes it returns the length of the encoding and, when bit [0x40] of its
    last byte is clear, the unsigned value; when that bit is set, the
    unsigned value minus [2^(7*length)]. *)
Theorem i_decode_sign_extension (enc rest : list Z) (e : Z) :
  leb128.terminated enc = true ->
  last enc = Some e ->
  leb128.i.decode (enc ++ rest)
  = Ok (if Z.land e 0x40 =? 0 then leb128.groups_value 0 enc
        else leb128.groups_value 0 enc - 2 ^ (7 * len enc),
        len enc).
Proof.
  intros Ht Hlast.
  apply i_decode_shape; [apply terminated_removelast| |]; auto.
Qed.

Lemma i_decode_sign_extension_witness :
  leb128.i.decode ([0xC0; 0xBB; 0x78] ++ [0x01])
  = Ok (if Z.land 0x78 0x40 =? 0 then leb128.groups_value 0 [0xC0; 0xBB; 0x78]
        else leb128.groups_value 0 [0xC0; 0xBB; 0x78]
             - 2 ^ (7 * len [0xC0; 0xBB; 0x78]),
        len [0xC0; 0xBB; 0x78]).
Proof.
  apply (i_decode_sign_extension [0xC0; 0xBB; 0x78] [0x01] 0x78); reflexivity.
Defined.

(** X4: the two decoders agree on what they consume.  They fail together
    (on the empty input only), they return the same number of consumed
    bytes [l], and the signed value is the unsigned one or the unsigned one
    minus [2^(7*l)]. *)
Theorem i_decode_vs_u_decode (b : list Z) :
  match leb128.u.decode b with
  | Ok (v, l) =>
      exists v', leb128.i.decode b = Ok (v', l)
                 /\ (v' = v \/ v' = v - 2 ^ (7 * l))
  | Raise e => b = [] /\ leb128.i.decode b = Raise e
  end.
Proof.
  destruct b as [|x b]; [split; reflexivity|].
  destruct (u_decode_loop_shape (x :: b) 0 0 None ltac:(discriminate))
    as (used & rest & Hb & Hu & Hall & Hend & _).
  destruct (last used) as [e|] eqn:Hlast.
  - destruct (i_decode_shape used rest e Hall Hend Hlast) as [Hi Hu'].
    rewrite Hb, Hu', Hi. eexists. split; [reflexivity|].
    destruct (Z.land e 0x40 =? 0); auto.
  - rewrite last_lookup in Hlast. apply lookup_ge_None in Hlast.
    destruct used; [congruence|simpl in Hlast; lia].
Qed.

(** ** The binary module reader: missing code section, function offsets,
    opcode names *)

Section reader_more.
Import Layout wasm_parser.

Lemma body_ok_size (f : function_body) :
  body_ok f = true ->
  leb128.terminated (body_size f) = true
  /\ len (body_size f) <= leb128.MAX_LENGTH
  /\ leb128.groups_value 0 (body_size f) = len (body_code f).
Proof.
  unfold body_ok. intros H. split_andb H. unfold value in *.
  match goal with
  | Hv : varuint32 _ = true |- _ =>
      destruct (varuint32_terminated _ Hv) as [Ht Hl]
  end.
  split; [|split]; assumption.
Qed.

(** The loop of [get_func_offsets] over bodies laid out at [len pre]. *)
Lemma get_func_offsets_loop_layout (fs : list function_body) :
  forall pre post results,
    forallb body_ok fs = true ->
    get_func_offsets_loop (length fs)
      (pre ++ flat_map encode_body fs ++ post) (len pre) results
    = Ok (results ++ body_offsets (len pre) fs).
Proof.
  induction fs as [|f fs IH]; intros pre post results Hok.
  - simpl. rewrite app_nil_r. reflexivity.
  - simpl in Hok. apply andb_prop in Hok as [Hf Hok].
    destruct (body_ok_size f Hf) as (Ht & Hl & Hv).
    cbn [length get_func_offsets_loop flat_map body_offsets].
    change (encode_body f) with (body_size f ++ body_code f).
    rewrite <- !app_assoc.
    rewrite decode_slice by assumption. cbn.
    rewrite Hv.
    replace (pre ++ body_size f ++ body_code f ++ flat_map encode_body fs ++ post)
      with ((pre ++ body_size f ++ body_code f)
              ++ flat_map encode_body fs ++ post)
      by (rewrite <- !app_assoc; reflexivity).
    replace (len pre + len (body_size f) + len (body_code f))
      with (len (pre ++ body_size f ++ body_code f)) by len_lia.
    rewrite IH by assumption. rewrite <- app_assoc. reflexivity.
Qed.

(** Every offset of [body_offsets] is the place of the bytecode of its
    function. *)
Lemma body_offsets_point (fs : list function_body) :
  forall pre post i f off,
    fs !! i = Some f ->
    body_offsets (len pre) fs !! i = Some off ->
    0 <= off /\
    exists rest,
      drop (Z.to_nat off) (pre ++ flat_map encode_body fs ++ post)
      = body_code f ++ rest.
Proof.
  induction fs as [|g fs IH]; intros pre post i f off Hf Hoff; [discriminate|].
  destruct i as [|i].
  - simpl in Hf, Hoff. injection Hf as ->. injection Hoff as <-.
    split; [len_lia|].
    exists (flat_map encode_body fs ++ post).
    cbn [flat_map]. change (encode_body f) with (body_size f ++ body_code f).
    replace (pre ++ ((body_size f ++ body_code f) ++ flat_map encode_body fs) ++ post)
      with ((pre ++ body_size f) ++ body_code f ++ flat_map encode_body fs ++ post)
      by (rewrite <- !app_assoc; reflexivity).
    replace (Z.to_nat (len pre + len (body_size f)))
      with (length (pre ++ body_size f))
      by (rewrite length_app; unfold len; lia).
    apply drop_app_length.
  - cbn [body_offsets] in Hoff. simpl in Hf.
    change ((?x :: ?l) !! S i) with (l !! i) in Hoff.
    replace (len pre + len (body_size g) + len (body_code g))
      with (len (pre ++ encode_body g)) in Hoff
      by (unfold encode_body; len_lia).
    destruct (IH (pre ++ encode_body g) post i f off Hf Hoff) as (H0 & rest & Hd).
    split; [exact H0|]. exists rest. rewrite <- Hd.
    cbn [flat_map]. rewrite <- !app_assoc. reflexivity.
Qed.

Lemma body_offsets_length (fs : list function_body) :
  forall pos, length (body_offsets pos fs) = length fs.
Proof. induction fs; intros pos; simpl; auto. Qed.

End reader_more.

(** X5: a binary without a code section.  When every section after the
    8-byte preamble is well formed and none has id 10, the scan runs to the
    end of the buffer and [get_code_section_impl] raises [AssertionError];
    so do [get_code_section] and [get_func_offsets].  The same holds for a
    buffer of at most 8 bytes. *)
Theorem get_code_section_impl_absent
        (preamble : list Z) (secs : list Layout.section) :
  len preamble = 8 ->
  forallb Layout.section_ok secs = true ->
  forallb (fun s => negb (Layout.sec_id s =? wasm_parser.CODE_SECTION_ID))
          secs = true ->
  let wasm := preamble ++ flat_map Layout.encode_section secs in
  wasm_parser.get_code_section_impl wasm = Raise AssertionError
  /\ wasm_parser.get_code_section wasm = Raise AssertionError
  /\ wasm_parser.get_func_offsets wasm = Raise AssertionError
  /\ (forall short : list Z,
        len short <= 8 ->
        wasm_parser.get_code_section_impl short = Raise AssertionError).
Proof.
  intros Hpre Hok Hid wasm.
  assert (Himpl : wasm_parser.get_code_section_impl wasm = Raise AssertionError).
  { unfold wasm_parser.get_code_section_impl, wasm.
    assert (Hlen : exists fuel,
               length (preamble ++ flat_map Layout.encode_section secs)
               = (length secs + fuel)%nat).
    { exists (length (preamble ++ flat_map Layout.encode_section secs)
              - length secs)%nat.
      pose proof (encode_section_length secs). rewrite length_app. lia. }
    destruct Hlen as [fuel ->]. rewrite <- Hpre.
    rewrite <- (app_nil_r (flat_map Layout.encode_section secs)).
    rewrite get_code_section_loop_skip_all by assumption.
    rewrite !app_nil_r.
    destruct fuel; simpl; rewrite Z.ltb_irrefl; reflexivity. }
  split; [exact Himpl|].
  split; [unfold wasm_parser.get_code_section; rewrite Himpl; reflexivity|].
  split; [unfold wasm_parser.get_func_offsets; rewrite Himpl; reflexivity|].
  intros short Hshort. unfold wasm_parser.get_code_section_impl.
  destruct (length short); simpl;
    destruct (Z.ltb_spec 8 (len short)); try lia; reflexivity.
Qed.

Lemma get_code_section_impl_absent_witness :
  let wasm := [0x00; 0x61; 0x73; 0x6D; 0x01; 0x00; 0x00; 0x00]
              ++ flat_map Layout.encode_section
                   [Layout.mkSection 1 [4] [1; 0x60; 0; 0];
                    Layout.mkSection 0 [2] [1; 0x41]] in
  wasm_parser.get_code_section_impl wasm = Raise AssertionError
  /\ wasm_parser.get_code_section wasm = Raise AssertionError
  /\ wasm_parser.get_func_offsets wasm = Raise AssertionError
  /\ (forall short : list Z,
        len short <= 8 ->
        wasm_parser.get_code_section_impl short = Raise AssertionError).
Proof.
  apply (get_code_section_impl_absent
           [0x00; 0x61; 0x73; 0x6D; 0x01; 0x00; 0x00; 0x00]
           [Layout.mkSection 1 [4] [1; 0x60; 0; 0];
            Layout.mkSection 0 [2] [1; 0x41]]); reflexivity.
Defined.

(** X6: on the encoding of a valid binary with a code section,
    [get_func_offsets] returns one offset per function body, in order, and
    the bytes at each offset are the bytecode of that function: the offset
    immediately follows the size prefix of the body. *)
Theorem get_func_offsets_locates (m : Layout.module_layout) :
  Layout.module_ok m = true ->
  exists offsets,
    wasm_parser.get_func_offsets (Layout.encode_module m) = Ok offsets
    /\ length offsets = length (Layout.bodies m)
    /\ (forall i f off,
          Layout.bodies m !! i = Some f ->
          offsets !! i = Some off ->
          0 <= off /\
          exists rest,
            drop (Z.to_nat off) (Layout.encode_module m)
            = Layout.body_code f ++ rest).
Proof.
  intros Hok.
  pose proof (get_code_section_impl_layout m Hok) as Himpl.
  unfold Layout.module_ok in Hok. split_andb Hok.
  exists (Layout.body_offsets
            (len (Layout.code_header m ++ Layout.function_count m))
            (Layout.bodies m)).
  assert (Hwasm : Layout.encode_module m
                  = (Layout.code_header m ++ Layout.function_count m)
                      ++ flat_map Layout.encode_body (Layout.bodies m)
                      ++ flat_map Layout.encode_section (Layout.after m))
    by (unfold Layout.encode_module, Layout.encode_bodies;
        rewrite <- app_assoc; reflexivity).
  split; [|split].
  - unfold wasm_parser.get_func_offsets. rewrite Himpl. cbn.
    replace (Z.to_nat (len (Layout.bodies m)))
      with (length (Layout.bodies m)) by (unfold len; lia).
    rewrite Hwasm.
    rewrite get_func_offsets_loop_layout by assumption. reflexivity.
  - apply body_offsets_length.
  - intros i f off Hf Hoff. rewrite Hwasm.
    eapply body_offsets_point; eassumption.
Qed.

Lemma get_func_offsets_locates_witness :
  exists offsets,
    wasm_parser.get_func_offsets (Layout.encode_module Layout.minimal_module)
    = Ok offsets
    /\ length offsets = length (Layout.bodies Layout.minimal_module)
    /\ (forall i f off,
          Layout.bodies Layout.minimal_module !! i = Some f ->
          offsets !! i = Some off ->
          0 <= off /\
          exists rest,
            drop (Z.to_nat off) (Layout.encode_module Layout.minimal_module)
            = Layout.body_code f ++ rest).
Proof. apply (get_func_offsets_locates Layout.minimal_module). reflexivity. Defined.


(** [get_wasm_op_code_str] returns a name inside the buffer and raises
    [IndexError] outside. *)
Lemma get_wasm_op_code_str_bounds (wasm : list Z) (offset : Z) :
  match wasm_parser.get_wasm_op_code_str wasm offset with
  | Ok _ => - len wasm <= offset < len wasm
  | Raise e => e = IndexError /\ (offset < - len wasm \/ len wasm <= offset)
  end.
Proof.
  unfold wasm_parser.get_wasm_op_code_str, index.
  pose proof (len_nonneg wasm).
  destruct (Z.ltb_spec offset 0).
  - destruct (Z.leb_spec 0 (offset + len wasm)); [|cbn; split; [reflexivity|lia]].
    destruct (Z.ltb_spec (offset + len wasm) (len wasm)); [|lia]. simpl.
    destruct (wasm !! Z.to_nat (offset + len wasm)) as [op|] eqn:E.
    + cbn. destruct (op =? 0xFC); cbn; lia.
    + apply lookup_ge_None in E. unfold len in *. lia.
  - destruct (Z.leb_spec 0 offset); [|lia].
    destruct (Z.ltb_spec offset (len wasm)); [|cbn; split; [reflexivity|lia]].
    simpl.
    destruct (wasm !! Z.to_nat offset) as [op|] eqn:E.
    + cbn. destruct (op =? 0xFC); cbn; lia.
    + apply lookup_ge_None in E. unfold len in *. lia.
Qed.

(** X8: [get_wasm_op_code_str] raises exactly when the offset is outside
    the buffer, counting a negative offset from the end as Python does:
    [IndexError] for [offset >= len(wasm)] or [offset < -len(wasm)], a name
    otherwise (an unknown opcode gets a fallback name, not an error). *)
Theorem get_wasm_op_code_str_raises (wasm : list Z) (offset : Z) :
  match wasm_parser.get_wasm_op_code_str wasm offset with
  | Ok _ => - len wasm <= offset < len wasm
  | Raise e => e = IndexError /\ (offset < - len wasm \/ len wasm <= offset)
  end.
Proof. apply get_wasm_op_code_str_bounds. Qed.

(** ** The source position indexer: valid positions, well-formed ranges *)

Section indexer_more.
Import wat_parser.

(** Inside the consumed characters the scan returns a line of the list and
    a column on that line (the column just after the line standing for its
    terminator). *)
Lemma offset_to_position_loop_column (rest : list (list Z)) :
  forall line_number cursor offset,
    cursor <= offset < cursor + consumed rest ->
    exists (k : nat) (column : Z) (line : list Z),
      offset_to_position_loop rest line_number cursor offset
        = Some (line_number + Z.of_nat k, column)
      /\ rest !! k = Some line
      /\ 0 <= column <= len line.
Proof.
  induction rest as [|l rest IH]; intros n cursor offset Hin; simpl in *; [lia|].
  destruct (Z.geb_spec offset cursor) as [_|?]; [|lia].
  destruct (Z.ltb_spec offset (cursor + (len l + 1))) as [Hlt|Hge]; simpl.
  - exists 0%nat, (offset - cursor), l. simpl.
    split; [f_equal; f_equal; lia|]. split; [reflexivity | lia].
  - destruct (IH (n + 1) (cursor + (len l + 1)) offset)
      as (k & col & line & E & Hk & Hc); [lia|].
    exists (S k), col, line. rewrite E. simpl.
    split; [f_equal; f_equal; lia|]. split; assumption.
Qed.

(** Before the cursor, the scan runs to its end. *)
Lemma offset_to_position_loop_before (rest : list (list Z)) :
  forall line_number cursor offset,
    offset < cursor ->
    offset_to_position_loop rest line_number cursor offset = None.
Proof.
  induction rest as [|l rest IH]; intros n cursor offset Hlt; simpl;
    [reflexivity|].
  destruct (Z.geb_spec offset cursor) as [?|_]; [lia|]. simpl.
  apply IH. pose proof (len_nonneg l). lia.
Qed.

Lemma index_lookup {A} (s : list A) (i : Z) :
  0 <= i < len s ->
  exists x, index s i = Ok x /\ s !! Z.to_nat i = Some x.
Proof.
  intros Hi. unfold index.
  destruct (Z.ltb_spec i 0); [lia|].
  destruct (Z.leb_spec 0 i); [|lia].
  destruct (Z.ltb_spec i (len s)); [|lia]. simpl.
  destruct (s !! Z.to_nat i) as [x|] eqn:E; [eauto|].
  apply lookup_ge_None in E. unfold len in Hi. lia.
Qed.

Lemma ordered_forms_mono (wat : list Z) (rs : list Range) :
  forall lo hi hi',
    ordered_forms wat lo hi rs -> hi <= hi' -> ordered_forms wat lo hi' rs.
Proof.
  induction rs as [|r rs IH]; intros lo hi hi' H Hle; simpl in *; [lia|].
  destruct H as (H1 & H2 & H3 & H4 & H5 & H6).
  repeat split; try assumption; try lia. eapply IH; eassumption.
Qed.

Lemma ordered_forms_snoc (wat : list Z) (rs : list Range) :
  forall lo b s e,
    ordered_forms wat lo b rs ->
    b <= s -> s < e ->
    wat !! Z.to_nat s = Some 40 -> wat !! Z.to_nat e = Some 41 ->
    ordered_forms wat lo (e + 1) (rs ++ [mkRange s e]).
Proof.
  induction rs as [|r rs IH]; intros lo b s e H Hb Hse Hs He; simpl in *.
  - repeat split; try assumption; lia.
  - destruct H as (H1 & H2 & H3 & H4 & H5 & H6).
    repeat split; try assumption; try lia. eapply IH; eassumption.
Qed.

Lemma ordered_forms_bounds (wat : list Z) (rs : list Range) :
  forall lo hi,
    ordered_forms wat lo hi rs ->
    Forall (fun r => lo <= Range_start r /\ Range_start r < Range_end r
                     /\ Range_end r < hi
                     /\ wat !! Z.to_nat (Range_start r) = Some 40
                     /\ wat !! Z.to_nat (Range_end r) = Some 41) rs.
Proof.
  induction rs as [|r rs IH]; intros lo hi H; [constructor|].
  simpl in H. destruct H as (H1 & H2 & H3 & H4 & H5 & H6).
  constructor; [repeat split; assumption|].
  eapply Forall_impl; [apply (IH _ _ H6)|].
  intros x (?&?&?&?&?). repeat split; try assumption. lia.
Qed.

(** One step of the scan keeps what has been established. *)
Lemma split_step_scanned (wat : list Z) (lo : Z) (st : scan) (i : Z) :
  0 <= i < len wat ->
  start_known st ->
  scanned wat lo i st ->
  exists st',
    split_step wat st i = Ok st' /\ start_known st' /\ scanned wat lo (i + 1) st'.
Proof.
  intros Hi Hknown (b & Hord & Hb & Hcur). unfold split_step.
  destruct (index_lookup wat i Hi) as (c & -> & Hc). cbn.
  destruct (Z.eqb_spec c 40) as [->|Hn40].
  - destruct (Z.eqb_spec (depth st + 1) 1) as [E|E].
    + eexists. split; [reflexivity|]. split.
      * unfold start_known; simpl; eauto.
      * exists b. simpl. split; [assumption|]. split; [lia|].
        intros s [= <-]. split; [lia|]. split; [lia|assumption].
    + eexists. split; [reflexivity|]. split.
      * unfold start_known in *; simpl; intros. apply Hknown. lia.
      * exists b. simpl. split; [assumption|]. split; [lia|].
        intros s Hs. destruct (Hcur s Hs) as (?&?&?).
        split; [lia|]. split; [lia|assumption].
  - destruct (Z.eqb_spec c 41) as [->|Hn41].
    + destruct (Z.eqb_spec (depth st - 1) 0) as [E|E].
      * destruct Hknown as [s Hs]; [lia|]. rewrite Hs.
        destruct (Hcur s Hs) as (Hbs & Hsi & Hws).
        eexists. split; [reflexivity|]. split.
        -- unfold start_known; simpl; intros; lia.
        -- exists (i + 1). simpl. split; [|split; [lia|discriminate]].
           eapply ordered_forms_snoc; eassumption.
      * eexists. split; [reflexivity|]. split.
        -- unfold start_known in *; simpl; intros. apply Hknown. lia.
        -- exists b. simpl. split; [assumption|]. split; [lia|].
           intros s Hs. destruct (Hcur s Hs) as (?&?&?).
           split; [lia|]. split; [lia|assumption].
    + exists st. split; [reflexivity|]. split; [assumption|].
      exists b. split; [assumption|]. split; [lia|].
      intros s Hs. destruct (Hcur s Hs) as (?&?&?).
      split; [lia|]. split; [lia|assumption].
Qed.

Lemma split_loop_scanned (wat : list Z) (lo : Z) (n : nat) :
  forall i st,
    0 <= i -> i + Z.of_nat n <= len wat ->
    start_known st ->
    scanned wat lo i st ->
    exists st',
      split_loop wat st (seqZ i (Z.of_nat n)) = Ok st'
      /\ start_known st' /\ scanned wat lo (i + Z.of_nat n) st'.
Proof.
  induction n as [|n IH]; intros i st Hi Hlen Hknown Hsc.
  - simpl. rewrite Z.add_0_r. eauto.
  - rewrite seqZ_cons by lia. cbn [split_loop].
    destruct (split_step_scanned wat lo st i) as (st1 & -> & Hk1 & Hs1);
      [lia|assumption|assumption|]. cbn.
    replace (Z.pred (Z.of_nat (S n))) with (Z.of_nat n) by lia.
    replace (i + Z.of_nat (S n)) with (Z.succ i + Z.of_nat n) by lia.
    apply IH; try assumption; try lia.
Qed.

(** [split_sub_expr] over a range that lies inside the text. *)
Lemma split_sub_expr_ordered (wat : list Z) (lo hi : Z) :
  0 <= lo -> lo <= hi + 1 -> hi + 1 <= len wat ->
  exists rs,
    split_sub_expr wat (mkRange lo hi) = Ok rs
    /\ ordered_forms wat lo (hi + 1) rs.
Proof.
  intros Hlo Hle Hhi. unfold split_sub_expr, range. simpl.
  replace (hi + 1 - lo) with (Z.of_nat (Z.to_nat (hi + 1 - lo))) by lia.
  destruct (split_loop_scanned wat lo (Z.to_nat (hi + 1 - lo)) lo
              (mkScan [] None (-1)))
    as (st & -> & _ & b & Hord & Hb & _); try lia.
  - intros H. simpl in H. lia.
  - exists lo. simpl. split; [lia|]. split; [lia|discriminate].
  - cbn. eexists. split; [reflexivity|].
    eapply ordered_forms_mono; [eassumption|lia].
Qed.

End indexer_more.

Lemma Forall_List_filter {A} (P : A -> Prop) (f : A -> bool) (l : list A) :
  Forall P l -> Forall P (List.filter f l).
Proof.
  induction 1 as [|x l Hx Hl IH]; simpl; [constructor|].
  destruct (f x); [constructor|]; assumption.
Qed.

(** The ranges of [extract_func] lie inside the text. *)
Lemma extract_func_bounds (wat : list Z) (rs : list wat_parser.Range) :
  wat_parser.extract_func wat = Ok rs ->
  Forall (fun r => 0 <= wat_parser.Range_start r
                   /\ wat_parser.Range_start r < wat_parser.Range_end r
                   /\ wat_parser.Range_end r < len wat) rs.
Proof.
  unfold wat_parser.extract_func, wat_parser.extract_func_impl.
  destruct (Z.eqb_spec (len wat) 0); [discriminate|].
  destruct (split_sub_expr_ordered wat 0 (len wat - 1)) as (subs & -> & Hord);
    [lia | pose proof (len_nonneg wat); lia | lia |].
  cbn. intros [= <-]. apply Forall_List_filter.
  eapply Forall_impl; [apply (ordered_forms_bounds _ _ _ _ Hord)|].
  intros r (?&?&?&_). split; [lia|]. split; [lia|lia].
Qed.

(** X9: for an offset inside what the lines consume, [offset_to_position]
    returns a valid position: the index of one of the lines, and a column
    between 0 and the length of that line (the length itself standing for
    the line terminator). *)
Theorem offset_to_position_valid (lines : list (list Z)) (offset : Z) :
  0 <= offset < wat_parser.consumed lines ->
  exists l c line,
    wat_parser.offset_to_position lines offset = (l, c)
    /\ 0 <= l < len lines
    /\ lines !! Z.to_nat l = Some line
    /\ 0 <= c <= len line.
Proof.
  intros Hin. unfold wat_parser.offset_to_position.
  destruct (offset_to_position_loop_column lines 0 0 offset)
    as (k & col & line & -> & Hk & Hc); [lia|].
  exists (0 + Z.of_nat k), col, line.
  split; [reflexivity|]. rewrite Z.add_0_l, Nat2Z.id.
  apply lookup_lt_Some in Hk as Hlt.
  split; [unfold len; lia|]. split; assumption.
Qed.

Lemma offset_to_position_valid_witness :
  exists l c line,
    wat_parser.offset_to_position [[40; 97]; []; [41]] 3 = (l, c)
    /\ 0 <= l < len [[40; 97]; []; [41]]
    /\ [[40; 97]; []; [41]] !! Z.to_nat l = Some line
    /\ 0 <= c <= len line.
Proof.
  apply (offset_to_position_valid [[40; 97]; []; [41]] 3).
  vm_compute. split; [discriminate | reflexivity].
Defined.

(** X10: [offset_to_position] returns the fallback [(len(lines), 0)] exactly
    for the offsets outside what the lines consume: the negative ones and
    those from the sum of the line lengths plus terminators on. *)
Theorem offset_to_position_fallback (lines : list (list Z)) (offset : Z) :
  wat_parser.offset_to_position lines offset = (len lines, 0)
  <-> offset < 0 \/ wat_parser.consumed lines <= offset.
Proof.
  split.
  - intros Hres.
    destruct (Z.lt_ge_cases offset 0) as [?|H0]; [left; assumption|].
    destruct (Z.lt_ge_cases offset (wat_parser.consumed lines)) as [Hlt|?];
      [|right; assumption].
    exfalso. unfold wat_parser.offset_to_position in Hres.
    destruct (offset_to_position_loop_column lines 0 0 offset)
      as (k & col & line & E & Hk & Hc); [lia|].
    rewrite E in Hres. injection Hres as Hl _.
    apply lookup_lt_Some in Hk. unfold len in Hl. lia.
  - intros [Hneg|Hge]; unfold wat_parser.offset_to_position.
    + rewrite offset_to_position_loop_before by lia. reflexivity.
    + rewrite offset_to_position_loop_beyond by lia. reflexivity.
Qed.

(** X11: [split_sub_expr] over a range inside the text never raises, and
    the ranges it returns are well formed: each starts on an opening
    parenthesis and ends, further on, on a closing one; they lie inside the
    scanned range, in source order, each after the end of the one before. *)
Theorem split_sub_expr_forms (wat : list Z) (lo hi : Z) :
  0 <= lo -> lo <= hi + 1 -> hi + 1 <= len wat ->
  exists rs,
    wat_parser.split_sub_expr wat (wat_parser.mkRange lo hi) = Ok rs
    /\ wat_parser.ordered_forms wat lo (hi + 1) rs.
Proof. apply split_sub_expr_ordered. Qed.

Lemma split_sub_expr_forms_witness :
  exists rs,
    wat_parser.split_sub_expr (Str.codes "(m (f (x)) )(g)")
      (wat_parser.mkRange 0 11) = Ok rs
    /\ wat_parser.ordered_forms (Str.codes "(m (f (x)) )(g)") 0 (11 + 1) rs.
Proof.
  apply (split_sub_expr_forms (Str.codes "(m (f (x)) )(g)") 0 11);
    vm_compute; discriminate.
Defined.

(** X12: the failures of the two scans of a whole text.  [extract_func]
    raises exactly on the empty text, by its assertion; [has_memory] never
    raises (on the empty text it answers [False]). *)
Theorem extract_func_raises_on_empty (wat : list Z) :
  match wat_parser.extract_func wat with
  | Ok _ => wat <> []
  | Raise e => e = AssertionError /\ wat = []
  end
  /\ (exists b, wat_parser.has_memory wat = Ok b)
  /\ wat_parser.has_memory [] = Ok false.
Proof.
  split; [|split; [|reflexivity]].
  - destruct wat as [|c wat]; [split; reflexivity|].
    destruct (extract_func_total (c :: wat)) as [rs ->]; discriminate.
  - unfold wat_parser.has_memory.
    destruct (split_sub_expr_total wat) as [rs ->]. cbn. eauto.
Qed.

(** X13: the ranges returned by [split_sub_expr] over a whole text are
    valid ranges, and [Range.to_string] renders each as a text that starts
    with an opening parenthesis, ends with a closing one and has
    [end - start + 1] characters. *)
Theorem split_sub_expr_to_string (wat : list Z) (rs : list wat_parser.Range) :
  wat_parser.split_sub_expr wat (wat_parser.mkRange 0 (len wat - 1)) = Ok rs ->
  Forall (fun r =>
            wat_parser.Range_valid r = true
            /\ head (wat_parser.Range_to_string r wat) = Some 40
            /\ last (wat_parser.Range_to_string r wat) = Some 41
            /\ len (wat_parser.Range_to_string r wat)
               = wat_parser.Range_end r - wat_parser.Range_start r + 1) rs.
Proof.
  intros Hrun. pose proof (len_nonneg wat) as Hlen.
  destruct (split_sub_expr_ordered wat 0 (len wat - 1)) as (rs' & Hrun' & Hord);
    [lia|lia|lia|].
  rewrite Hrun in Hrun'. injection Hrun' as <-.
  eapply Forall_impl; [apply (ordered_forms_bounds _ _ _ _ Hord)|].
  intros [s e]. simpl. intros (Hs & Hse & He & Hws & Hwe).
  unfold wat_parser.Range_valid, wat_parser.Range_to_string, slice, clamp.
  simpl.
  destruct (Z.eqb_spec s (-1)); [lia|]. destruct (Z.eqb_spec e (-1)); [lia|].
  destruct (Z.ltb_spec s 0); [lia|]. destruct (Z.ltb_spec (e + 1) 0); [lia|].
  replace (Z.max 0 (Z.min (len wat) s)) with s by lia.
  replace (Z.max 0 (Z.min (len wat) (e + 1))) with (e + 1) by lia.
  assert (Hlen_t : length (take (Z.to_nat (e + 1 - s)) (drop (Z.to_nat s) wat))
                   = Z.to_nat (e + 1 - s)).
  { rewrite length_take, length_drop. unfold len in *. lia. }
  split; [reflexivity|]. split; [|split].
  - rewrite head_lookup, lookup_take_lt by lia.
    rewrite lookup_drop, Nat.add_0_r. exact Hws.
  - rewrite last_lookup, Hlen_t, lookup_take_lt by lia.
    rewrite lookup_drop.
    replace (Z.to_nat s + pred (Z.to_nat (e + 1 - s)))%nat with (Z.to_nat e)
      by lia.
    exact Hwe.
  - unfold len at 1. rewrite Hlen_t. lia.
Qed.

Lemma split_sub_expr_to_string_witness :
  Forall (fun r =>
            wat_parser.Range_valid r = true
            /\ head (wat_parser.Range_to_string r (Str.codes "((a)(b c))"))
               = Some 40
            /\ last (wat_parser.Range_to_string r (Str.codes "((a)(b c))"))
               = Some 41
            /\ len (wat_parser.Range_to_string r (Str.codes "((a)(b c))"))
               = wat_parser.Range_end r - wat_parser.Range_start r + 1)
         [wat_parser.mkRange 1 3; wat_parser.mkRange 4 8].
Proof.
  apply (split_sub_expr_to_string (Str.codes "((a)(b c))")). reflexivity.
Defined.

(** X14: the positions that [analyze_wat] reports are faithful.  On a
    non-empty text it does not raise, it reports one pair of positions per
    function range of [extract_func], in order, and the offset rebuilt from
    each position is the start, respectively the end, of the range. *)
Theorem analyze_wat_positions (wat : list Z) :
  wat <> [] ->
  exists ranges positions,
    wat_parser.extract_func wat = Ok ranges
    /\ explorer_server.analyze_wat wat = Ok positions
    /\ Forall2 (fun r p =>
                  wat_parser.position_to_offset (Str.split 10 wat) p.1
                  = wat_parser.Range_start r
                  /\ wat_parser.position_to_offset (Str.split 10 wat) p.2
                     = wat_parser.Range_end r)
               ranges positions.
Proof.
  intros Hne. destruct (extract_func_total wat Hne) as [ranges Hrun].
  pose proof (extract_func_bounds wat ranges Hrun) as Hb.
  exists ranges. eexists. split; [exact Hrun|].
  unfold explorer_server.analyze_wat. rewrite Hrun. cbn.
  split; [reflexivity|].
  clear Hrun. induction Hb as [|r rs (H0 & Hse & He) _ IH]; [constructor|].
  cbn [map]. constructor; [|exact IH]. cbn [fst snd].
  split; apply offset_to_position_roundtrip_lines;
    rewrite consumed_split; lia.
Qed.

Lemma analyze_wat_positions_witness :
  exists ranges positions,
    wat_parser.extract_func (Str.codes "(module
 (func $f))") = Ok ranges
    /\ explorer_server.analyze_wat (Str.codes "(module
 (func $f))") = Ok positions
    /\ Forall2 (fun r p =>
                  wat_parser.position_to_offset
                    (Str.split 10 (Str.codes "(module
 (func $f))")) p.1
                  = wat_parser.Range_start r
                  /\ wat_parser.position_to_offset
                       (Str.split 10 (Str.codes "(module
 (func $f))")) p.2
                     = wat_parser.Range_end r)
               ranges positions.
Proof.
  apply (analyze_wat_positions (Str.codes "(module
 (func $f))")). discriminate.
Defined.

(** ** The guest bridge: memory marshalling and the protocol of one request *)

Section marshalling_more.
Context {G : Type}.
Import lib_dwarf.

(** What the loop of [write_to_linear_memory] leaves in memory. *)
Lemma write_loop_memory (ptr : Z) (data : list Z) :
  forall i (w : world G),
    (forall (j : nat) x,
        data !! j = Some x ->
        memory (write_loop ptr i data w).2 (ptr + i + Z.of_nat j) = x)
    /\ (forall a, a < ptr + i \/ ptr + i + len data <= a ->
          memory (write_loop ptr i data w).2 a = memory w a).
Proof.
  induction data as [|e data IH]; intros i w.
  - split; [intros j x H; discriminate | reflexivity].
  - cbn [write_loop]. rewrite M_bind_unfold. unfold store_byte at 1.
    cbv beta iota.
    match goal with
    | |- context [write_loop ptr (i + 1) data ?w1] =>
        destruct (IH (i + 1) w1) as [Hin Hout]
    end.
    split.
    + intros [|j] x Hx.
      * simpl in Hx. injection Hx as <-.
        rewrite Hout by lia. simpl.
        destruct (Z.eqb_spec (ptr + i + Z.of_nat 0) (ptr + i)); [reflexivity|lia].
      * simpl in Hx. specialize (Hin j x Hx).
        replace (ptr + i + Z.of_nat (S j)) with (ptr + (i + 1) + Z.of_nat j)
          by lia.
        exact Hin.
    + intros a Ha. rewrite len_cons in Ha. pose proof (len_nonneg data).
      rewrite Hout by lia. simpl.
      destruct (Z.eqb_spec a (ptr + i)); [lia|reflexivity].
Qed.

Lemma map_seqZ_lookup (f : Z -> Z) (data : list Z) :
  (forall (j : nat) x, data !! j = Some x -> f (Z.of_nat j) = x) ->
  map f (seqZ 0 (len data)) = data.
Proof.
  intros Hf. apply list_eq. intros j. rewrite list_lookup_fmap.
  destruct (data !! j) as [x|] eqn:E.
  - apply lookup_lt_Some in E as Hlt.
    rewrite lookup_seqZ_lt by (unfold len; lia). simpl.
    rewrite Z.add_0_l, (Hf j x E). reflexivity.
  - apply lookup_ge_None in E.
    rewrite lookup_seqZ_ge by (unfold len; lia). reflexivity.
Qed.

Lemma stores_of_app (a b : list event) :
  stores_of (a ++ b) = stores_of a ++ stores_of b.
Proof. unfold stores_of. apply flat_map_app. Qed.

Lemma stores_of_store_events (ptr : Z) (data : list Z) :
  forall i,
    stores_of (store_events ptr i data) = zip (seqZ (ptr + i) (len data)) data.
Proof.
  induction data as [|e data IH]; intros i; [reflexivity|].
  cbn [store_events]. change (stores_of (Store ?a ?b :: ?l))
    with ((a, b) :: stores_of l).
  rewrite IH, len_cons.
  rewrite (seqZ_cons (ptr + i)) by (pose proof (len_nonneg data); lia).
  cbn [zip zip_with]. f_equal.
  replace (Z.succ (ptr + i)) with (ptr + (i + 1)) by lia.
  replace (Z.pred (1 + len data)) with (len data) by lia. reflexivity.
Qed.

Lemma stores_of_line_map_events (h : Z) (r_struct : res Z) (decoded : bool)
      (r_post : res Z) :
  stores_of (line_map_events h r_struct decoded r_post) = [].
Proof. destruct r_struct, decoded; reflexivity. Qed.

End marshalling_more.

(** X15: marshalling round trip.  After [write_to_linear_memory(ptr, data)],
    [read_from_linear_memory(ptr, len(data))] returns [data] and leaves the
    world as it is; the write changes no memory cell outside
    [[ptr, ptr + len(data))]. *)
Theorem write_read_roundtrip {G : Type} (ptr : Z) (data : list Z)
        (w : world G) :
  let w' := (lib_dwarf.write_to_linear_memory ptr data w).2 in
  lib_dwarf.read_from_linear_memory ptr (len data) w' = (Ok data, w')
  /\ (forall a, a < ptr \/ ptr + len data <= a -> memory w' a = memory w a).
Proof.
  intros w'. unfold w', lib_dwarf.write_to_linear_memory.
  destruct (write_loop_memory ptr data 0 w) as [Hin Hout].
  split.
  - unfold lib_dwarf.read_from_linear_memory. f_equal. f_equal.
    unfold wat_parser.range. rewrite Z.sub_0_r.
    apply map_seqZ_lookup. intros j x Hx.
    rewrite <- (Hin j x Hx). f_equal. lia.
  - intros a Ha. apply Hout. lia.
Qed.

(** X16: a failure of [__enter__] aborts the request at once.  When the
    allocator or the constructor raises, [get_wasm_wat_mapping] and
    [decode_dwarf] raise the same exception, and neither the line-map
    accessor, nor the post-return export, nor the destructor is called. *)
Theorem enter_failure_aborts {G : Type} (guest : exports G)
        (json_loads : list Z -> res (list dwarf.entry))
        (binary : list Z) (w w1 : world G) (e : exn) :
  lib_dwarf.DWO_enter guest (lib_dwarf.DWO_init binary) w = (Raise e, w1) ->
  lib_dwarf.get_wasm_wat_mapping guest binary w = (Raise e, w1)
  /\ dwarf.decode_dwarf guest json_loads binary w = (Raise e, w1)
  /\ exists evs,
       trace w1 = trace w ++ evs
       /\ calls_of "dwo-get-line-map" evs = []
       /\ calls_of "cabi_post_dwo-get-line-map" evs = []
       /\ calls_of "dwo-destroy" evs = [].
Proof.
  intros Henter.
  assert (Hrun : lib_dwarf.get_wasm_wat_mapping guest binary w = (Raise e, w1)).
  { unfold lib_dwarf.get_wasm_wat_mapping, lib_dwarf.with_DWO.
    rewrite Henter. reflexivity. }
  split; [exact Hrun|]. split.
  - unfold dwarf.decode_dwarf. rewrite M_bind_unfold, Hrun. reflexivity.
  - destruct (DWO_enter_spec guest (lib_dwarf.DWO_init binary) w)
      as (r_alloc & r_create & w' & Hspec & _ & Ht & _).
    rewrite Henter in Hspec. injection Hspec as _ <-.
    eexists. split; [exact Ht|].
    rewrite !calls_of_enter_events by discriminate. auto.
Qed.

Lemma enter_failure_aborts_witness :
  let guest := Demo.failing_allocator_guest in
  let w := Demo.demo_world 64 128 [] in
  let w1 := (lib_dwarf.DWO_enter guest (lib_dwarf.DWO_init [1; 2]) w).2 in
  lib_dwarf.get_wasm_wat_mapping guest [1; 2] w = (Raise GuestTrap, w1)
  /\ dwarf.decode_dwarf guest Demo.demo_json_loads [1; 2] w
     = (Raise GuestTrap, w1)
  /\ exists evs,
       trace w1 = trace w ++ evs
       /\ calls_of "dwo-get-line-map" evs = []
       /\ calls_of "cabi_post_dwo-get-line-map" evs = []
       /\ calls_of "dwo-destroy" evs = [].
Proof.
  intros guest w w1.
  apply (enter_failure_aborts guest Demo.demo_json_loads [1; 2] w w1 GuestTrap).
  reflexivity.
Defined.

(** X17: what the host writes into the guest.  In any invocation of
    [get_wasm_wat_mapping], whatever its outcome, the stores into the linear
    memory are exactly the bytes of the blob, in order, at the addresses
    [ptr, ptr + 1, ...] from the pointer [ptr] the allocator returned; when
    the allocator raises nothing is stored. *)
Theorem stores_are_the_blob {G : Type} (guest : exports G)
        (binary : list Z) (w : world G) :
  exists evs,
    trace (lib_dwarf.get_wasm_wat_mapping guest binary w).2 = trace w ++ evs
    /\ stores_of evs
       = match returned "cabi_realloc" evs with
         | [ptr] => zip (seqZ ptr (len binary)) binary
         | _ => []
         end.
Proof.
  destruct (get_wasm_wat_mapping_spec guest binary w)
    as (r_alloc & r_create & Hcase & _).
  destruct r_alloc as [ptr|e].
  - assert (Henter : stores_of (lib_dwarf.enter_events binary (Ok ptr) r_create)
                     = zip (seqZ ptr (len binary)) binary
                     /\ returned "cabi_realloc"
                          (lib_dwarf.enter_events binary (Ok ptr) r_create)
                        = [ptr]).
    { unfold lib_dwarf.enter_events. split.
      - change (stores_of (Call ?n ?a ?r :: ?l)) with (stores_of l).
        rewrite stores_of_app, stores_of_store_events, Z.add_0_r.
        cbn. apply app_nil_r.
      - unfold returned. cbn [flat_map app String.eqb Ascii.eqb Bool.eqb].
        pose proof (returned_store_events "cabi_realloc" ptr binary 0) as Hs.
        unfold returned in Hs. rewrite flat_map_app, Hs.
        destruct r_create; reflexivity. }
    destruct Henter as [Hst Hret].
    destruct r_create as [h|e]; cbn [mbind res_bind Py.bind] in Hcase.
    + destruct Hcase as (r_struct & r_text & r_post & r_destroy & w' & -> & Ht).
      eexists. split; [exact Ht|].
      rewrite !stores_of_app, !returned_app, Hst, Hret,
        stores_of_line_map_events.
      assert (Hno : returned "cabi_realloc"
                      (lib_dwarf.line_map_events h r_struct (is_ok r_text) r_post)
                    = []
                    /\ returned "cabi_realloc" [Call "dwo-destroy" [h] r_destroy]
                       = []).
      { split; [destruct r_struct, (is_ok r_text), r_post; reflexivity
               | destruct r_destroy; reflexivity]. }
      destruct Hno as [-> ->]. cbn. rewrite !app_nil_r. reflexivity.
    + destruct Hcase as (w' & -> & Ht).
      eexists. split; [exact Ht|]. rewrite Hst, Hret. reflexivity.
  - cbn [mbind res_bind Py.bind] in Hcase.
    destruct Hcase as (w' & -> & Ht).
    eexists. split; [exact Ht|]. reflexivity.
Qed.

(** X18: the protocol of a successful request.  When
    [get_wasm_wat_mapping] returns, its events are, in this order: the
    allocation of [len(blob)] bytes, the stores of the blob, [dwo-create] on
    the allocated pointer and the length, [dwo-get-line-map] on the handle,
    the post-return export on the struct pointer, and [dwo-destroy] on the
    handle; every one of these calls has returned. *)
Theorem successful_request_protocol {G : Type} (guest : exports G)
        (binary : list Z) (w w' : world G) (text : list Z) :
  lib_dwarf.get_wasm_wat_mapping guest binary w = (Ok text, w') ->
  exists ptr h json_struct_ptr v_post v_destroy,
    trace w'
    = trace w
        ++ Call "cabi_realloc" [0; 0; 4; len binary] (Ok ptr)
        :: lib_dwarf.store_events ptr 0 binary
        ++ [Call "dwo-create" [ptr; len binary] (Ok h);
            Call "dwo-get-line-map" [h] (Ok json_struct_ptr);
            Call "cabi_post_dwo-get-line-map" [json_struct_ptr] (Ok v_post);
            Call "dwo-destroy" [h] (Ok v_destroy)].
Proof.
  intros Hrun.
  destruct (get_wasm_wat_mapping_spec guest binary w)
    as (r_alloc & r_create & Hcase & _).
  destruct r_alloc as [ptr|e];
    [|cbn in Hcase; destruct Hcase as (? & Hc & _); congruence].
  destruct r_create as [h|e];
    [|cbn in Hcase; destruct Hcase as (? & Hc & _); congruence].
  cbn [mbind res_bind Py.bind] in Hcase.
  destruct Hcase as (r_struct & r_text & r_post & r_destroy & w2 & Hrun' & Ht).
  rewrite Hrun in Hrun'. injection Hrun' as Hres <-.
  destruct r_destroy as [vd|?]; [|discriminate].
  destruct r_struct as [sp|?]; [|discriminate].
  destruct r_text as [text'|?]; [|discriminate].
  destruct r_post as [vp|?]; [|discriminate].
  exists ptr, h, sp, vp, vd. rewrite Ht.
  unfold lib_dwarf.enter_events, lib_dwarf.line_map_events. cbn [is_ok app].
  rewrite <- app_assoc. reflexivity.
Qed.

Lemma successful_request_protocol_witness :
  let guest := Demo.demo_guest 1024 64 in
  let w := Demo.demo_world 64 128 (Str.codes "[]") in
  let w' := (lib_dwarf.get_wasm_wat_mapping guest [1; 2; 3] w).2 in
  exists ptr h json_struct_ptr v_post v_destroy,
    trace w'
    = trace w
        ++ Call "cabi_realloc" [0; 0; 4; len [1; 2; 3]] (Ok ptr)
        :: lib_dwarf.store_events ptr 0 [1; 2; 3]
        ++ [Call "dwo-create" [ptr; len [1; 2; 3]] (Ok h);
            Call "dwo-get-line-map" [h] (Ok json_struct_ptr);
            Call "cabi_post_dwo-get-line-map" [json_struct_ptr] (Ok v_post);
            Call "dwo-destroy" [h] (Ok v_destroy)].
Proof.
  intros guest w w'.
  apply (successful_request_protocol guest [1; 2; 3] w w' (Str.codes "[]")).
  reflexivity.
Defined.

(** ** The correlation engine: grouping, indexing, composing *)

Section grouping_more.
Import dwarf.

Lemma dict_append_lookup (k v : Z) (d : gmap Z (list Z)) (k' : Z) :
  dict_append k v d !! k'
  = if decide (k' = k) then Some (default [] (d !! k) ++ [v]) else d !! k'.
Proof.
  unfold dict_append. destruct (decide (k' = k)) as [->|Hne].
  - apply lookup_insert_eq.
  - apply lookup_insert_ne. congruence.
Qed.

(** Appending a list of values under one key. *)
Lemma dict_append_all_lookup (k : Z) (xs : list Z) :
  forall (d : gmap Z (list Z)) (k' : Z),
    foldl (fun a x => dict_append k x a) d xs !! k'
    = if decide (k' = k)
      then match xs with
           | [] => d !! k
           | _ :: _ => Some (default [] (d !! k) ++ xs)
           end
      else d !! k'.
Proof.
  induction xs as [|x xs IH]; intros d k'; simpl.
  - destruct (decide (k' = k)) as [->|]; reflexivity.
  - rewrite IH. destruct (decide (k' = k)) as [->|Hne].
    + rewrite dict_append_lookup. destruct (decide (k = k)); [|congruence].
      simpl. destruct xs; [reflexivity|]. rewrite <- app_assoc. reflexivity.
    + rewrite dict_append_lookup. destruct (decide (k' = k)); congruence.
Qed.

Lemma group_fold_lookup (entries : list entry) :
  forall (acc : gmap Z (list Z)) (k : Z),
    foldl (fun r e => dict_append (line e) (address e) r) acc entries !! k
    = match addresses_of k entries with
      | [] => acc !! k
      | xs => Some (default [] (acc !! k) ++ xs)
      end.
Proof.
  induction entries as [|e es IH]; intros acc k; [reflexivity|].
  cbn [foldl]. rewrite IH. unfold addresses_of. cbn [List.filter].
  rewrite dict_append_lookup.
  destruct (Z.eqb_spec (line e) k) as [<-|Hne].
  - destruct (decide (line e = line e)); [|congruence]. cbn [map default].
    destruct (map address (List.filter (fun e0 => line e0 =? line e) es));
      [reflexivity|].
    unfold id. rewrite <- app_assoc. reflexivity.
  - destruct (decide (k = line e)); [congruence|]. reflexivity.
Qed.

(** The insertion-ordered dictionary holds what the plain one holds. *)
Lemma items_append_to_map (k v : Z) (d : list (Z * list Z)) :
  (list_to_map (items_append k v d) : gmap Z (list Z))
  = dict_append k v (list_to_map d).
Proof.
  induction d as [|[k' vs] d IH]; [reflexivity|].
  cbn [items_append]. destruct (Z.eqb_spec k k') as [->|Hne].
  - cbn [list_to_map foldr uncurry curry]. unfold dict_append.
    change (list_to_map ((k', vs) :: d))
      with (<[k' := vs]> (list_to_map d : gmap Z (list Z))).
    change (list_to_map ((k', vs ++ [v]) :: d))
      with (<[k' := vs ++ [v]]> (list_to_map d : gmap Z (list Z))).
    rewrite lookup_insert_eq. cbn [default].
    rewrite insert_insert_eq. reflexivity.
  - change (list_to_map ((k', vs) :: items_append k v d))
      with (<[k' := vs]> (list_to_map (items_append k v d) : gmap Z (list Z))).
    change (list_to_map ((k', vs) :: d))
      with (<[k' := vs]> (list_to_map d : gmap Z (list Z))).
    rewrite IH. unfold dict_append.
    rewrite lookup_insert_ne by congruence.
    apply insert_insert_ne. congruence.
Qed.

Lemma items_append_keys (k v : Z) (d : list (Z * list Z)) :
  d.*1 = (items_append k v d).*1 \/
  ((k ∉ d.*1) /\ (items_append k v d).*1 = d.*1 ++ [k]).
Proof.
  induction d as [|[k' vs] d IH]; [right; split; [apply not_elem_of_nil|reflexivity]|].
  cbn [items_append]. destruct (Z.eqb_spec k k') as [->|Hne].
  - left. reflexivity.
  - destruct IH as [IH|[Hnot IH]].
    + left. cbn. f_equal. exact IH.
    + right. split.
      * cbn. rewrite not_elem_of_cons. split; assumption.
      * cbn. f_equal. exact IH.
Qed.

Lemma items_append_NoDup (k v : Z) (d : list (Z * list Z)) :
  NoDup d.*1 -> NoDup (items_append k v d).*1.
Proof.
  intros Hnd. destruct (items_append_keys k v d) as [<-|[Hnot ->]];
    [assumption|].
  apply NoDup_app. split; [assumption|]. split.
  - intros x Hx Hx'. apply list_elem_of_singleton in Hx'. congruence.
  - apply NoDup_singleton.
Qed.

Lemma group_by_line_fold (off : Z) (mapping : list entry) :
  forall d,
    NoDup d.*1 ->
    let r := foldl (fun results item =>
                      items_append (line item) (address item + off) results)
                   d mapping in
    NoDup r.*1
    /\ (list_to_map r : gmap Z (list Z))
       = foldl (fun r e => dict_append (line e) (address e + off) r)
               (list_to_map d) mapping.
Proof.
  induction mapping as [|e es IH]; intros d Hnd; [split; [assumption|reflexivity]|].
  cbn [foldl].
  destruct (IH (items_append (line e) (address e + off) d)
              (items_append_NoDup _ _ _ Hnd)) as [H1 H2].
  split; [exact H1|]. cbv zeta in H2. rewrite H2, items_append_to_map.
  reflexivity.
Qed.

End grouping_more.

(** X19: the grouping of [decode_dwarf].  In the dictionary built from the
    records, a key is present exactly when some record has it as its
    [line], and its value is the list of the [address]es of those records,
    in the order of the records. *)
Theorem group_addresses_lookup (entries : list dwarf.entry) (k : Z) :
  dwarf.group_addresses entries !! k
  = match dwarf.addresses_of k entries with
    | [] => None
    | xs => Some xs
    end.
Proof.
  unfold dwarf.group_addresses. rewrite group_fold_lookup.
  rewrite lookup_empty. reflexivity.
Qed.

(** X20: the grouping of [parse_dwarf_in_wasm].  The items it builds have
    pairwise distinct keys; a key is present exactly when some record has it
    as its [line], and its value is the list of the [address]es of those
    records, in order, each shifted by the offset of the code section. *)
Theorem group_by_line_lookup (code_section_offset : Z)
        (mapping : list dwarf.entry) (k : Z) :
  NoDup (dwarf.group_by_line code_section_offset mapping).*1
  /\ (list_to_map (dwarf.group_by_line code_section_offset mapping)
        : gmap Z (list Z)) !! k
     = match dwarf.addresses_of k mapping with
       | [] => None
       | xs => Some (map (fun a => a + code_section_offset) xs)
       end.
Proof.
  destruct (group_by_line_fold code_section_offset mapping [] (NoDup_nil_2))
    as [Hnd Hmap].
  split; [exact Hnd|]. unfold dwarf.group_by_line. cbv zeta in Hmap.
  rewrite Hmap. clear Hnd Hmap.
  change (list_to_map []) with (∅ : gmap Z (list Z)).
  assert (Hshift : forall (acc : gmap Z (list Z)),
             foldl (fun r e => dwarf.dict_append (dwarf.line e)
                                 (dwarf.address e + code_section_offset) r)
                   acc mapping
             = foldl (fun r e => dwarf.dict_append (dwarf.line e)
                                   (dwarf.address e) r)
                     acc
                     (map (fun e => dwarf.mkEntry (dwarf.line e)
                                      (dwarf.address e + code_section_offset))
                          mapping)).
  { induction mapping as [|e es IH]; intros acc; [reflexivity|].
    cbn [foldl map]. apply IH. }
  rewrite Hshift, group_fold_lookup, lookup_empty. clear Hshift.
  assert (Haddr : dwarf.addresses_of k
                    (map (fun e => dwarf.mkEntry (dwarf.line e)
                                     (dwarf.address e + code_section_offset))
                         mapping)
                  = map (fun a => a + code_section_offset)
                        (dwarf.addresses_of k mapping)).
  { unfold dwarf.addresses_of. induction mapping as [|e es IH]; [reflexivity|].
    cbn [map List.filter dwarf.line].
    destruct (dwarf.line e =? k); cbn [map dwarf.address]; rewrite IH;
      reflexivity. }
  rewrite Haddr. destruct (dwarf.addresses_of k mapping); reflexivity.
Qed.

Section indexing_more.
Variable int_base16 : list Z -> option Z.
Import dwarf.

Lemma split_head (sep : Z) (s : list Z) :
  exists p ps, Str.split sep s = p :: ps.
Proof.
  induction s as [|c s (p & ps & IH)]; simpl; [eauto|].
  destruct (c =? sep); [eauto|]. rewrite IH. eauto.
Qed.

(** The loop of [decode_dis] never raises; a key of its result maps to the
    index of the last line that carries it, or to what the dictionary held
    when no line carries it. *)
Lemma decode_dis_loop_spec (lines : list (list Z)) :
  forall i m,
    exists m',
      decode_dis_loop int_base16 i lines m = Ok m'
      /\ forall k v,
           m' !! k = Some v <->
           (exists (j : nat) line,
               lines !! j = Some line
               /\ line_offset int_base16 line = Some k
               /\ v = i + Z.of_nat j
               /\ forall (j' : nat) line',
                    (j < j')%nat -> lines !! j' = Some line' ->
                    line_offset int_base16 line' <> Some k)
           \/ (m !! k = Some v
               /\ forall (j : nat) line,
                    lines !! j = Some line ->
                    line_offset int_base16 line <> Some k).
Proof.
  induction lines as [|l ls IH]; intros i m.
  - exists m. split; [reflexivity|]. intros k v. split.
    + intros H. right. split; [assumption|]. intros j line Hj. discriminate.
    + intros [(j & line & Hj & _)|[H _]]; [discriminate|assumption].
  - cbn [decode_dis_loop].
    destruct (split_head 32 l) as (p & ps & Hsplit).
    assert (Hidx : index (Str.split 32 l) 0 = Ok p) by (rewrite Hsplit; reflexivity).
    assert (Htok : line_offset int_base16 l = int_base16 p)
      by (unfold line_offset; rewrite Hsplit; reflexivity).
    rewrite Hidx. cbn [mbind res_bind Py.bind].
    set (m1 := match int_base16 p with
               | Some k0 => <[k0 := i]> m
               | None => m
               end).
    destruct (IH (i + 1) m1) as (m' & Hrun & Hspec).
    exists m'. split.
    { unfold m1 in Hrun. destruct (int_base16 p); exact Hrun. }
    intros k v. rewrite Hspec. clear Hspec Hrun.
    assert (Hm1 : line_offset int_base16 l <> Some k -> m1 !! k = m !! k).
    { intros Hne. unfold m1. rewrite Htok in Hne.
      destruct (int_base16 p) as [k0|]; [|reflexivity].
      apply lookup_insert_ne. congruence. }
    assert (Hm1' : line_offset int_base16 l = Some k -> m1 !! k = Some i).
    { intros He. unfold m1. rewrite Htok in He. rewrite He.
      apply lookup_insert_eq. }
    split.
    + intros [(j & line & Hj & Ht & Hv & Hlater)|[Hm Hnone]].
      * left. exists (S j), line. split; [exact Hj|]. split; [exact Ht|].
        split; [lia|]. intros [|j'] line' Hlt Hj'; [lia|].
        apply (Hlater j' line'); [lia|exact Hj'].
      * destruct (decide (line_offset int_base16 l = Some k)) as [He|Hne].
        -- left. exists 0%nat, l. split; [reflexivity|]. split; [exact He|].
           rewrite (Hm1' He) in Hm. injection Hm as <-.
           split; [lia|]. intros [|j'] line' Hlt Hj'; [lia|].
           apply (Hnone j' line'). exact Hj'.
        -- right. rewrite (Hm1 Hne) in Hm. split; [exact Hm|].
           intros [|j] line Hj; [injection Hj as <-; exact Hne|].
           apply (Hnone j line). exact Hj.
    + intros [(j & line & Hj & Ht & Hv & Hlater)|[Hm Hnone]].
      * destruct j as [|j].
        -- injection Hj as <-. right. split.
           ++ rewrite (Hm1' Ht). f_equal. lia.
           ++ intros j' line' Hj'. apply (Hlater (S j') line'); [lia|exact Hj'].
        -- left. exists j, line. split; [exact Hj|]. split; [exact Ht|].
           split; [lia|]. intros j' line' Hlt Hj'.
           apply (Hlater (S j') line'); [lia|exact Hj'].
      * right. split.
        -- rewrite Hm1; [exact Hm|]. apply (Hnone 0%nat l). reflexivity.
        -- intros j line Hj. apply (Hnone (S j) line). exact Hj.
Qed.

End indexing_more.

(** X21: the disassembly line index.  [decode_dis] never raises; lines whose
    first token does not parse as a hexadecimal number are skipped; a
    machine-code offset is a key exactly when some line carries it, and it
    maps to the zero-based index of the last such line (a later line
    overrides an earlier one with the same offset). *)
Theorem decode_dis_index (int_base16 : list Z -> option Z) (assembly : list Z) :
  exists m,
    dwarf.decode_dis int_base16 assembly = Ok m
    /\ forall k i,
         m !! k = Some i <->
         exists (j : nat) line,
           Str.split 10 assembly !! j = Some line
           /\ i = Z.of_nat j
           /\ dwarf.line_offset int_base16 line = Some k
           /\ forall (j' : nat) line',
                (j < j')%nat -> Str.split 10 assembly !! j' = Some line' ->
                dwarf.line_offset int_base16 line' <> Some k.
Proof.
  unfold dwarf.decode_dis.
  destruct (decode_dis_loop_spec int_base16 (Str.split 10 assembly) 0 ∅)
    as (m & Hrun & Hspec).
  exists m. split; [exact Hrun|]. intros k i. rewrite Hspec. split.
  - intros [(j & line & Hj & Ht & Hv & Hlater)|[Hm _]].
    + exists j, line. split; [exact Hj|]. split; [lia|]. split; assumption.
    + rewrite lookup_empty in Hm. discriminate.
  - intros (j & line & Hj & Hv & Ht & Hlater). left.
    exists j, line. split; [exact Hj|]. split; [exact Ht|]. split; [lia|].
    exact Hlater.
Qed.

Section composing_more.
Context {G : Type}.
Import dwarf.

Lemma first_missing_app (stage3 : gmap Z Z) (a b : list Z) :
  first_missing stage3 (a ++ b)
  = match first_missing stage3 a with
    | Some m => Some m
    | None => first_missing stage3 b
    end.
Proof.
  unfold first_missing. rewrite List.filter_app.
  destruct (List.filter _ a); reflexivity.
Qed.

Lemma unresolved_app (a b : list log_record) :
  unresolved (a ++ b) = unresolved a ++ unresolved b.
Proof. apply List.filter_app. Qed.

(** The innermost loop: [KeyError] on the first offset that stage 3 does
    not know, the lines of all the offsets otherwise. *)
Lemma machine_code_offset_loop_outcome (stage3 : gmap Z Z) (wat_line : Z)
      (ms : list Z) :
  forall acc,
    machine_code_offset_loop stage3 wat_line ms acc
    = match first_missing stage3 ms with
      | Some m => Raise (KeyError m)
      | None =>
          Ok (foldl (fun a x => dict_append wat_line x a) acc
                    (omap (fun m => stage3 !! m) ms))
      end.
Proof.
  induction ms as [|m ms IH]; intros acc; [reflexivity|].
  cbn [machine_code_offset_loop]. unfold first_missing. cbn [List.filter].
  destruct (stage3 !! m) as [x|] eqn:E.
  - rewrite bool_decide_eq_false_2 by discriminate.
    rewrite IH. unfold first_missing.
    destruct (head _); [reflexivity|].
    cbn [omap list_omap]. rewrite E. reflexivity.
  - rewrite bool_decide_eq_true_2 by reflexivity. reflexivity.
Qed.

Lemma reachable_cons (stage1 : gmap Z (list Z)) (o : Z) (offs : list Z) :
  reachable stage1 (o :: offs)
  = default [] (stage1 !! o) ++ reachable stage1 offs.
Proof. reflexivity. Qed.

Lemma reachable_app (stage1 : gmap Z (list Z)) (a b : list Z) :
  reachable stage1 (a ++ b) = reachable stage1 a ++ reachable stage1 b.
Proof. unfold reachable. apply flat_map_app. Qed.

Lemma missing_cons (stage1 : gmap Z (list Z)) (o : Z) (offs : list Z) :
  missing stage1 (o :: offs)
  = if bool_decide (stage1 !! o = None) then o :: missing stage1 offs
    else missing stage1 offs.
Proof. reflexivity. Qed.

Lemma missing_app (stage1 : gmap Z (list Z)) (a b : list Z) :
  missing stage1 (a ++ b) = missing stage1 a ++ missing stage1 b.
Proof. unfold missing. apply List.filter_app. Qed.

Lemma assembly_lines_cons (stage1 : gmap Z (list Z)) (stage3 : gmap Z Z)
      (o : Z) (offs : list Z) :
  assembly_lines stage1 stage3 (o :: offs)
  = omap (fun m => stage3 !! m) (default [] (stage1 !! o))
      ++ assembly_lines stage1 stage3 offs.
Proof. unfold assembly_lines. rewrite reachable_cons. apply omap_app. Qed.

Lemma opcode_name_in_range (wasm : list Z) (o : Z) :
  - len wasm <= o < len wasm ->
  wasm_parser.get_wasm_op_code_str wasm o = Ok (opcode_name wasm o).
Proof.
  intros Hin. unfold opcode_name.
  pose proof (get_wasm_op_code_str_bounds wasm o) as H.
  destruct (wasm_parser.get_wasm_op_code_str wasm o) as [name|e];
    [reflexivity|]. destruct H as [_ H]. lia.
Qed.

Lemma wasm_offset_loop_known (wasm : list Z) (stage1 : gmap Z (list Z))
      (stage3 : gmap Z Z) (wat_line o : Z) (offs ms : list Z)
      (acc : gmap Z (list Z)) (w : world G) :
  stage1 !! o = Some ms ->
  wasm_offset_loop wasm stage1 stage3 wat_line (o :: offs) acc w
  = let w1 := mkWorld (memory w) (instance w) (trace w)
                (log w ++ [Debug_machine_code_offsets wat_line o
                             (map wasm_parser.hex ms)]) in
    match machine_code_offset_loop stage3 wat_line ms acc with
    | Ok acc' => wasm_offset_loop wasm stage1 stage3 wat_line offs acc' w1
    | Raise e => (Raise e, w1)
    end.
Proof.
  intros Hs. cbn [wasm_offset_loop]. rewrite Hs.
  m_bind. unfold logging at 1. cbv beta iota. m_bind. unfold lift.
  destruct (machine_code_offset_loop stage3 wat_line ms acc); reflexivity.
Qed.

(** The loop over the wasm offsets of one line, when every offset that
    stage 1 does not know lies inside the wasm buffer. *)
Lemma wasm_offset_loop_outcome (wasm : list Z) (stage1 : gmap Z (list Z))
      (stage3 : gmap Z Z) (wat_line : Z) (offs : list Z) :
  forall acc (w : world G),
    Forall (fun o => stage1 !! o = None -> - len wasm <= o < len wasm) offs ->
    let run := wasm_offset_loop wasm stage1 stage3 wat_line offs acc w in
    run.1
    = match first_missing stage3 (reachable stage1 offs) with
      | Some m => Raise (KeyError m)
      | None =>
          Ok (foldl (fun a x => dict_append wat_line x a) acc
                    (assembly_lines stage1 stage3 offs))
      end
    /\ (first_missing stage3 (reachable stage1 offs) = None ->
        unresolved (log run.2)
        = unresolved (log w)
            ++ map (fun o => Info_not_found o (opcode_name wasm o))
                   (missing stage1 offs)).
Proof.
  induction offs as [|o offs IH]; intros acc w Hb run.
  - split; [reflexivity|]. intros _. unfold run. cbn. rewrite app_nil_r.
    reflexivity.
  - inversion Hb as [|? ? Ho Hrest]; subst.
    unfold run.
    rewrite reachable_cons, missing_cons, assembly_lines_cons.
    destruct (stage1 !! o) as [ms|] eqn:E.
    + rewrite (wasm_offset_loop_known _ _ _ _ _ _ ms) by exact E. cbv zeta.
      rewrite bool_decide_eq_false_2 by discriminate.
      change (default [] (Some ms)) with ms.
      rewrite first_missing_app, foldl_app.
      rewrite machine_code_offset_loop_outcome.
      destruct (first_missing stage3 ms) as [m|];
        [split; [reflexivity|discriminate]|].
      match goal with
      | |- context [wasm_offset_loop wasm stage1 stage3 wat_line offs ?a ?w1] =>
          destruct (IH a w1 Hrest) as [H1 H2]
      end.
      cbv zeta in H1, H2. split; [exact H1|].
      intros Hnone. rewrite (H2 Hnone). cbn [log].
      rewrite unresolved_app. cbn. rewrite app_nil_r. reflexivity.
    + rewrite (wasm_offset_loop_missing wasm stage1 stage3 wat_line o offs acc w
                 (opcode_name wasm o) E
                 (opcode_name_in_range wasm o (Ho eq_refl))).
      rewrite bool_decide_eq_true_2 by reflexivity.
      change (default [] (@None (list Z))) with (@nil Z).
      cbn [app map omap list_omap].
      match goal with
      | |- context [wasm_offset_loop wasm stage1 stage3 wat_line offs ?a ?w1] =>
          destruct (IH a w1 Hrest) as [H1 H2]
      end.
      cbv zeta in H1, H2. split; [exact H1|].
      intros Hnone. rewrite (H2 Hnone). cbn [log].
      rewrite unresolved_app. cbn. rewrite <- app_assoc. reflexivity.
Qed.

End composing_more.

Section composing_lines.
Context {G : Type}.
Import dwarf.

Lemma wasm_offset_loop_unknown (wasm : list Z) (stage1 : gmap Z (list Z))
      (stage3 : gmap Z Z) (wat_line o : Z) (offs : list Z)
      (acc : gmap Z (list Z)) (w : world G) :
  stage1 !! o = None ->
  wasm_offset_loop wasm stage1 stage3 wat_line (o :: offs) acc w
  = match wasm_parser.get_wasm_op_code_str wasm o with
    | Ok name =>
        wasm_offset_loop wasm stage1 stage3 wat_line offs acc
          (mkWorld (memory w) (instance w) (trace w)
                   (log w ++ [Info_not_found o name]))
    | Raise e => (Raise e, w)
    end.
Proof.
  intros Hs. cbn [wasm_offset_loop]. rewrite Hs. m_bind. unfold lift.
  destruct (wasm_parser.get_wasm_op_code_str wasm o); [|reflexivity].
  m_bind. reflexivity.
Qed.

Lemma wat_line_loop_cons (wasm : list Z) (stage1 : gmap Z (list Z))
      (stage3 : gmap Z Z) (wat_line : Z) (offs : list Z)
      (rest : list (Z * list Z)) (acc : gmap Z (list Z)) (w : world G) :
  wat_line_loop wasm stage1 stage3 ((wat_line, offs) :: rest) acc w
  = match wasm_offset_loop wasm stage1 stage3 wat_line offs acc
            (mkWorld (memory w) (instance w) (trace w)
                     (log w ++ [Debug_wat_line wat_line offs])) with
    | (Ok acc', w2) => wat_line_loop wasm stage1 stage3 rest acc' w2
    | (Raise e, w2) => (Raise e, w2)
    end.
Proof.
  cbn [wat_line_loop]. m_bind. unfold logging at 1. cbv beta iota.
  m_bind. reflexivity.
Qed.

(** The composition makes no call to the guest and no store: it only
    appends to the log. *)
Lemma wasm_offset_loop_frame (wasm : list Z) (stage1 : gmap Z (list Z))
      (stage3 : gmap Z Z) (wat_line : Z) (offs : list Z) :
  forall acc (w : world G),
    let w' := (wasm_offset_loop wasm stage1 stage3 wat_line offs acc w).2 in
    memory w' = memory w /\ instance w' = instance w /\ trace w' = trace w
    /\ exists L, log w' = log w ++ L.
Proof.
  induction offs as [|o offs IH]; intros acc w w'.
  - repeat split. exists []. symmetry. apply app_nil_r.
  - unfold w'. destruct (stage1 !! o) as [ms|] eqn:E.
    + rewrite (wasm_offset_loop_known _ _ _ _ _ _ ms) by exact E. cbv zeta.
      destruct (machine_code_offset_loop stage3 wat_line ms acc) as [acc'|e].
      * match goal with
        | |- context [wasm_offset_loop _ _ _ _ offs acc' ?w1] =>
            destruct (IH acc' w1) as (Hm & Hi & Ht & L & Hl)
        end.
        cbv zeta in Hm, Hi, Ht, Hl. rewrite Hm, Hi, Ht, Hl.
        repeat split. cbn [log]. rewrite <- app_assoc. eauto.
      * repeat split. cbn. eauto.
    + rewrite wasm_offset_loop_unknown by exact E.
      destruct (wasm_parser.get_wasm_op_code_str wasm o) as [name|e].
      * match goal with
        | |- context [wasm_offset_loop _ _ _ _ offs acc ?w1] =>
            destruct (IH acc w1) as (Hm & Hi & Ht & L & Hl)
        end.
        cbv zeta in Hm, Hi, Ht, Hl. rewrite Hm, Hi, Ht, Hl.
        repeat split. cbn [log]. rewrite <- app_assoc. eauto.
      * repeat split. exists []. symmetry. apply app_nil_r.
Qed.

Lemma wat_line_loop_frame (wasm : list Z) (stage1 : gmap Z (list Z))
      (stage3 : gmap Z Z) (items : list (Z * list Z)) :
  forall acc (w : world G),
    let w' := (wat_line_loop wasm stage1 stage3 items acc w).2 in
    memory w' = memory w /\ instance w' = instance w /\ trace w' = trace w
    /\ exists L, log w' = log w ++ L.
Proof.
  induction items as [|[wl offs] items IH]; intros acc w w'.
  - repeat split. exists []. symmetry. apply app_nil_r.
  - unfold w'. rewrite wat_line_loop_cons.
    match goal with
    | |- context [wasm_offset_loop wasm stage1 stage3 wl offs acc ?w1] =>
        pose proof (wasm_offset_loop_frame wasm stage1 stage3 wl offs acc w1)
          as (Hm & Hi & Ht & L & Hl);
        destruct (wasm_offset_loop wasm stage1 stage3 wl offs acc w1)
          as [[acc'|e] w2]
    end; cbn [snd memory instance trace log] in Hm, Hi, Ht, Hl.
    + destruct (IH acc' w2) as (Hm' & Hi' & Ht' & L' & Hl').
      cbv zeta in Hm', Hi', Ht', Hl'.
      rewrite Hm', Hi', Ht', Hl', Hm, Hi, Ht, Hl.
      repeat split. rewrite <- !app_assoc. eauto.
    + cbn [snd]. rewrite Hm, Hi, Ht, Hl.
      repeat split. rewrite <- app_assoc. eauto.
Qed.

(** The loop over the lines, when every wasm offset that stage 1 does not
    know lies inside the wasm buffer. *)
Lemma wat_line_loop_outcome (wasm : list Z) (stage1 : gmap Z (list Z))
      (stage3 : gmap Z Z) (items : list (Z * list Z)) :
  forall acc (w : world G),
    Forall (fun o => stage1 !! o = None -> - len wasm <= o < len wasm)
           (all_offsets items) ->
    let run := wat_line_loop wasm stage1 stage3 items acc w in
    run.1
    = match first_missing stage3 (reachable stage1 (all_offsets items)) with
      | Some m => Raise (KeyError m)
      | None => Ok (composed stage1 stage3 items acc)
      end
    /\ (first_missing stage3 (reachable stage1 (all_offsets items)) = None ->
        unresolved (log run.2)
        = unresolved (log w)
            ++ map (fun o => Info_not_found o (opcode_name wasm o))
                   (missing stage1 (all_offsets items))).
Proof.
  induction items as [|[wl offs] items IH]; intros acc w Hb run.
  - split; [reflexivity|]. intros _. unfold run. cbn. rewrite app_nil_r.
    reflexivity.
  - unfold all_offsets in Hb. cbn [flat_map snd] in Hb.
    apply Forall_app in Hb as [Hb1 Hb2].
    unfold run. rewrite wat_line_loop_cons.
    unfold all_offsets. cbn [flat_map snd]. fold (all_offsets items).
    rewrite reachable_app, missing_app, first_missing_app.
    match goal with
    | |- context [wasm_offset_loop wasm stage1 stage3 wl offs acc ?w1] =>
        destruct (wasm_offset_loop_outcome wasm stage1 stage3 wl offs acc w1 Hb1)
          as [H1 H2];
        destruct (wasm_offset_loop wasm stage1 stage3 wl offs acc w1)
          as [r w2]
    end.
    cbn [fst snd] in H1, H2.
    destruct (first_missing stage3 (reachable stage1 offs)) as [m|].
    + subst r. split; [reflexivity|discriminate].
    + subst r. cbv beta iota.
      match goal with
      | |- context [wat_line_loop wasm stage1 stage3 items ?a w2] =>
          destruct (IH a w2 Hb2) as [H3 H4]
      end.
      cbv zeta in H3, H4.
      split; [exact H3|].
      intros Hnone. rewrite (H4 Hnone), (H2 eq_refl). cbn [log].
      rewrite unresolved_app. cbn. rewrite app_nil_r, map_app, app_assoc.
      reflexivity.
Qed.

Lemma composed_cons (stage1 : gmap Z (list Z)) (stage3 : gmap Z Z)
      (wl : Z) (offs : list Z) (items : list (Z * list Z))
      (acc : gmap Z (list Z)) :
  composed stage1 stage3 ((wl, offs) :: items) acc
  = composed stage1 stage3 items
      (foldl (fun a x => dict_append wl x a) acc
             (assembly_lines stage1 stage3 offs)).
Proof. reflexivity. Qed.

Lemma composed_other (stage1 : gmap Z (list Z)) (stage3 : gmap Z Z)
      (items : list (Z * list Z)) :
  forall acc k, k ∉ items.*1 -> composed stage1 stage3 items acc !! k = acc !! k.
Proof.
  induction items as [|[wl offs] items IH]; intros acc k Hk; [reflexivity|].
  cbn in Hk. apply not_elem_of_cons in Hk as [Hne Hk].
  rewrite composed_cons, IH by exact Hk.
  rewrite dict_append_all_lookup. destruct (decide (k = wl)); congruence.
Qed.

Lemma composed_lookup (stage1 : gmap Z (list Z)) (stage3 : gmap Z Z)
      (items : list (Z * list Z)) :
  forall acc wl offs,
    NoDup items.*1 ->
    (wl, offs) ∈ items ->
    acc !! wl = None ->
    composed stage1 stage3 items acc !! wl
    = match assembly_lines stage1 stage3 offs with
      | [] => None
      | xs => Some xs
      end.
Proof.
  induction items as [|[wl0 offs0] items IH]; intros acc wl offs Hnd Hin Hacc.
  - apply elem_of_nil in Hin. contradiction.
  - cbn in Hnd. apply NoDup_cons in Hnd as [Hnot Hnd].
    rewrite composed_cons.
    apply elem_of_cons in Hin as [Heq|Hin].
    + injection Heq as -> ->.
      rewrite composed_other by exact Hnot.
      rewrite dict_append_all_lookup. destruct (decide (wl0 = wl0)); [|congruence].
      rewrite Hacc. destruct (assembly_lines stage1 stage3 offs0); reflexivity.
    + assert (Hne : wl <> wl0).
      { intros ->. apply Hnot. apply list_elem_of_fmap.
        exists (wl0, offs). split; [reflexivity|exact Hin]. }
      apply (IH _ wl offs Hnd Hin).
      rewrite dict_append_all_lookup. destruct (decide (wl = wl0)); congruence.
Qed.

Lemma sound_result_append (stage3 : gmap Z Z) (keys : list Z)
      (acc : gmap Z (list Z)) (wl m x : Z) :
  sound_result stage3 keys acc -> wl ∈ keys -> stage3 !! m = Some x ->
  sound_result stage3 keys (dict_append wl x acc).
Proof.
  intros Hs Hwl Hm k vs Hk. rewrite dict_append_lookup in Hk.
  destruct (decide (k = wl)) as [->|Hne]; [|apply (Hs k vs Hk)].
  injection Hk as <-. split; [exact Hwl|]. split.
  - destruct (default [] (acc !! wl)); discriminate.
  - intros y Hy. apply elem_of_app in Hy as [Hy|Hy].
    + destruct (acc !! wl) as [old|] eqn:E; [|apply elem_of_nil in Hy; contradiction].
      destruct (Hs wl old E) as (_ & _ & Hold). apply Hold. exact Hy.
    + apply list_elem_of_singleton in Hy as ->. eauto.
Qed.

Lemma machine_code_offset_loop_sound (stage3 : gmap Z Z) (keys : list Z)
      (wl : Z) (ms : list Z) :
  forall acc acc',
    sound_result stage3 keys acc -> wl ∈ keys ->
    machine_code_offset_loop stage3 wl ms acc = Ok acc' ->
    sound_result stage3 keys acc'.
Proof.
  induction ms as [|m ms IH]; intros acc acc' Hs Hwl Hrun; simpl in Hrun.
  - injection Hrun as <-. exact Hs.
  - destruct (stage3 !! m) as [x|] eqn:E; [|discriminate].
    eapply IH; [|exact Hwl|exact Hrun].
    eapply sound_result_append; eassumption.
Qed.

Lemma wasm_offset_loop_sound (wasm : list Z) (stage1 : gmap Z (list Z))
      (stage3 : gmap Z Z) (keys : list Z) (wl : Z) (offs : list Z) :
  forall acc acc' (w w' : world G),
    sound_result stage3 keys acc -> wl ∈ keys ->
    wasm_offset_loop wasm stage1 stage3 wl offs acc w = (Ok acc', w') ->
    sound_result stage3 keys acc'.
Proof.
  induction offs as [|o offs IH]; intros acc acc' w w' Hs Hwl Hrun.
  - injection Hrun as <- _. exact Hs.
  - destruct (stage1 !! o) as [ms|] eqn:E.
    + rewrite (wasm_offset_loop_known _ _ _ _ _ _ ms) in Hrun by exact E.
      cbv zeta in Hrun.
      destruct (machine_code_offset_loop stage3 wl ms acc) as [acc1|e] eqn:Em;
        [|discriminate].
      eapply IH; [|exact Hwl|exact Hrun].
      eapply machine_code_offset_loop_sound; eassumption.
    + rewrite wasm_offset_loop_unknown in Hrun by exact E.
      destruct (wasm_parser.get_wasm_op_code_str wasm o); [|discriminate].
      eapply IH; eassumption.
Qed.

Lemma wat_line_loop_sound (wasm : list Z) (stage1 : gmap Z (list Z))
      (stage3 : gmap Z Z) (keys : list Z) (items : list (Z * list Z)) :
  forall acc acc' (w w' : world G),
    sound_result stage3 keys acc ->
    Forall (fun it => it.1 ∈ keys) items ->
    wat_line_loop wasm stage1 stage3 items acc w = (Ok acc', w') ->
    sound_result stage3 keys acc'.
Proof.
  induction items as [|[wl offs] items IH]; intros acc acc' w w' Hs Hk Hrun.
  - injection Hrun as <- _. exact Hs.
  - inversion Hk as [|? ? Hwl Hrest]; subst. cbn [fst] in Hwl.
    rewrite wat_line_loop_cons in Hrun.
    match type of Hrun with
    | context [wasm_offset_loop wasm stage1 stage3 wl offs acc ?w1] =>
        destruct (wasm_offset_loop wasm stage1 stage3 wl offs acc w1)
          as [[acc1|e] w2] eqn:E1
    end; [|discriminate].
    eapply IH; [|exact Hrest|exact Hrun].
    eapply wasm_offset_loop_sound; eassumption.
Qed.

End composing_lines.

(** Deciding, on concrete stages, that every wasm offset unknown to stage 1
    lies inside the wasm buffer. *)
Ltac offsets_in_range :=
  unfold dwarf.all_offsets; cbn [flat_map snd app];
  repeat (apply Forall_cons_2;
          [let H := fresh in
           intros H; vm_compute in H |- *;
           first [discriminate H | split; [discriminate | reflexivity]] |]);
  apply Forall_nil_2.

(** X22: the composition only tells what the stages know.  Whenever it
    returns a mapping, every key of the mapping is a line of stage 2, no key
    maps to the empty list, and every assembly line listed is a value of
    stage 3. *)
Theorem compose_stages_sound {G : Type} (wasm : list Z)
        (stage1 : gmap Z (list Z)) (stage2 : list (Z * list Z))
        (stage3 : gmap Z Z) (w : world G) (result : gmap Z (list Z)) :
  (dwarf.compose_stages wasm stage1 stage2 stage3 w).1 = Ok result ->
  dwarf.sound_result stage3 stage2.*1 result.
Proof.
  intros Hrun. unfold dwarf.compose_stages in Hrun.
  destruct (dwarf.wat_line_loop wasm stage1 stage3 stage2 ∅ w) as [r w'] eqn:E.
  cbn in Hrun. subst r.
  eapply wat_line_loop_sound; [| |exact E].
  - intros k vs Hk. rewrite lookup_empty in Hk. discriminate.
  - apply Forall_forall. intros [wl offs] Hin. cbn.
    apply list_elem_of_fmap. exists (wl, offs). split; [reflexivity|exact Hin].
Qed.

Lemma compose_stages_sound_witness :
  dwarf.sound_result {[0x1000 := 7]} [(3, [10])].*1 {[3 := [7]]}.
Proof.
  apply (compose_stages_sound (G:=unit) [] {[10 := [0x1000]]} [(3, [10])]
           {[0x1000 := 7]} (Demo.demo_world 64 128 []) {[3 := [7]]}).
  reflexivity.
Defined.

(** X23: the composition, when nothing is missing from stage 3.  Suppose
    that every wasm offset of stage 2 that stage 1 does not know lies inside
    the wasm buffer, that stage 3 knows every machine-code offset that
    stage 1 lists for the wasm offsets of stage 2, and that the lines of
    stage 2 are distinct.  Then the composition returns a mapping; a line of
    stage 2 maps to the assembly lines of its wasm offsets, in order (wasm
    offsets unknown to stage 1 contributing nothing), and is absent when
    there is none; no other key is present. *)
Theorem compose_stages_complete {G : Type} (wasm : list Z)
        (stage1 : gmap Z (list Z)) (stage2 : list (Z * list Z))
        (stage3 : gmap Z Z) (w : world G) :
  Forall (fun o => stage1 !! o = None -> - len wasm <= o < len wasm)
         (dwarf.all_offsets stage2) ->
  dwarf.first_missing stage3 (dwarf.reachable stage1 (dwarf.all_offsets stage2))
  = None ->
  NoDup stage2.*1 ->
  exists result,
    (dwarf.compose_stages wasm stage1 stage2 stage3 w).1 = Ok result
    /\ (forall wat_line offs,
          (wat_line, offs) ∈ stage2 ->
          result !! wat_line
          = match dwarf.assembly_lines stage1 stage3 offs with
            | [] => None
            | xs => Some xs
            end)
    /\ (forall k, k ∉ stage2.*1 -> result !! k = None).
Proof.
  intros Hb Hnone Hnd.
  destruct (wat_line_loop_outcome wasm stage1 stage3 stage2 ∅ w Hb) as [H1 _].
  cbv zeta in H1. rewrite Hnone in H1.
  exists (dwarf.composed stage1 stage3 stage2 ∅).
  split; [exact H1|]. split.
  - intros wl offs Hin. apply composed_lookup; [exact Hnd|exact Hin|].
    apply lookup_empty.
  - intros k Hk. rewrite composed_other by exact Hk. apply lookup_empty.
Qed.

Lemma compose_stages_complete_witness :
  exists result,
    (dwarf.compose_stages (G:=unit) [0x00; 0x0B] {[10 := [0x1000; 0x1004]]}
       [(3, [0; 10])] {[0x1000 := 7; 0x1004 := 8]}
       (Demo.demo_world 64 128 [])).1 = Ok result
    /\ (forall wat_line offs,
          (wat_line, offs) ∈ [(3, [0; 10])] ->
          result !! wat_line
          = match dwarf.assembly_lines {[10 := [0x1000; 0x1004]]}
                    {[0x1000 := 7; 0x1004 := 8]} offs with
            | [] => None
            | xs => Some xs
            end)
    /\ (forall k, k ∉ [(3, [0; 10])].*1 -> result !! k = None).
Proof.
  apply (compose_stages_complete (G:=unit) [0x00; 0x0B]
           {[10 := [0x1000; 0x1004]]} [(3, [0; 10])]
           {[0x1000 := 7; 0x1004 := 8]} (Demo.demo_world 64 128 [])).
  - offsets_in_range.
  - reflexivity.
  - apply NoDup_singleton.
Defined.

(** X24: one diagnostic per stage-1 miss.  Under the first two conditions
    of X23, the unresolved-offset records that the composition adds to the
    log are exactly one per wasm offset of stage 2 that stage 1 does not
    know, in iteration order, each carrying the offset and the name of the
    opcode at that offset of the wasm buffer. *)
Theorem compose_stages_diagnostics {G : Type} (wasm : list Z)
        (stage1 : gmap Z (list Z)) (stage2 : list (Z * list Z))
        (stage3 : gmap Z Z) (w : world G) :
  Forall (fun o => stage1 !! o = None -> - len wasm <= o < len wasm)
         (dwarf.all_offsets stage2) ->
  dwarf.first_missing stage3 (dwarf.reachable stage1 (dwarf.all_offsets stage2))
  = None ->
  dwarf.unresolved (log (dwarf.compose_stages wasm stage1 stage2 stage3 w).2)
  = dwarf.unresolved (log w)
      ++ map (fun o => Info_not_found o (dwarf.opcode_name wasm o))
             (dwarf.missing stage1 (dwarf.all_offsets stage2)).
Proof.
  intros Hb Hnone.
  destruct (wat_line_loop_outcome wasm stage1 stage3 stage2 ∅ w Hb) as [_ H2].
  apply H2. exact Hnone.
Qed.

Lemma compose_stages_diagnostics_witness :
  dwarf.unresolved
    (log (dwarf.compose_stages (G:=unit) [0x00; 0x0B] {[10 := [0x1000]]}
            [(3, [0; 10]); (4, [1])] {[0x1000 := 7]}
            (Demo.demo_world 64 128 [])).2)
  = dwarf.unresolved (log (Demo.demo_world 64 128 []))
      ++ map (fun o => Info_not_found o (dwarf.opcode_name [0x00; 0x0B] o))
             (dwarf.missing {[10 := [0x1000]]}
                (dwarf.all_offsets [(3, [0; 10]); (4, [1])])).
Proof.
  apply (compose_stages_diagnostics (G:=unit) [0x00; 0x0B] {[10 := [0x1000]]}
           [(3, [0; 10]); (4, [1])] {[0x1000 := 7]}
           (Demo.demo_world 64 128 [])).
  - offsets_in_range.
  - reflexivity.
Defined.

(** X25: a machine-code offset missing from stage 3 aborts the
    composition.  When every wasm offset that stage 1 does not know lies
    inside the wasm buffer, and [m] is the first machine-code offset, in
    iteration order, that stage 1 lists and stage 3 does not know, the
    composition raises [KeyError(m)] and returns no mapping. *)
Theorem compose_stages_key_error {G : Type} (wasm : list Z)
        (stage1 : gmap Z (list Z)) (stage2 : list (Z * list Z))
        (stage3 : gmap Z Z) (w : world G) (m : Z) :
  Forall (fun o => stage1 !! o = None -> - len wasm <= o < len wasm)
         (dwarf.all_offsets stage2) ->
  dwarf.first_missing stage3 (dwarf.reachable stage1 (dwarf.all_offsets stage2))
  = Some m ->
  (dwarf.compose_stages wasm stage1 stage2 stage3 w).1 = Raise (KeyError m).
Proof.
  intros Hb Hm.
  destruct (wat_line_loop_outcome wasm stage1 stage3 stage2 ∅ w Hb) as [H1 _].
  cbv zeta in H1. rewrite Hm in H1. exact H1.
Qed.

Lemma compose_stages_key_error_witness :
  (dwarf.compose_stages (G:=unit) [0x00; 0x0B]
     {[10 := [0x1000; 0x2000; 0x3000]]} [(3, [10])] {[0x1000 := 7]}
     (Demo.demo_world 64 128 [])).1 = Raise (KeyError 0x2000).
Proof.
  apply (compose_stages_key_error (G:=unit) [0x00; 0x0B]
           {[10 := [0x1000; 0x2000; 0x3000]]} [(3, [10])] {[0x1000 := 7]}
           (Demo.demo_world 64 128 []) 0x2000).
  - offsets_in_range.
  - reflexivity.
Defined.

(** X26: the composition leaves the guest alone.  Whatever its inputs and
    its outcome, stage 4 calls no export and stores nothing: the linear
    memory, the instance and the sequence of guest events are unchanged, and
    the log only grows. *)
Theorem compose_stages_frame {G : Type} (wasm : list Z)
        (stage1 : gmap Z (list Z)) (stage2 : list (Z * list Z))
        (stage3 : gmap Z Z) (w : world G) :
  let w' := (dwarf.compose_stages wasm stage1 stage2 stage3 w).2 in
  memory w' = memory w /\ instance w' = instance w /\ trace w' = trace w
  /\ exists added, log w' = log w ++ added.
Proof. apply wat_line_loop_frame. Qed.

(** X27: a wasm module without a code section.  When [get_code_section]
    raises on the wasm bytes, [analyze_debug_info_in_dwarf] raises the same
    exception right after the debug object has been decoded and logged: the
    line table of the wasm module is never requested from the guest, and
    the disassembly is not read. *)
Theorem analyze_without_code_section {G : Type} (guest : exports G)
        (json_loads : list Z -> res (list dwarf.entry))
        (int_base16 : list Z -> option Z)
        (dwo wasm assembly : list Z) (w w1 : world G)
        (stage1 : gmap Z (list Z)) (e : exn) :
  wasm_parser.get_code_section wasm = Raise e ->
  dwarf.decode_dwarf guest json_loads dwo w = (Ok stage1, w1) ->
  dwarf.analyze_debug_info_in_dwarf guest json_loads int_base16
    dwo wasm assembly w
  = (Raise e,
     mkWorld (memory w1) (instance w1) (trace w1)
             (log w1 ++ [Debug_wasm_offset_to_machine_code_offset stage1])).
Proof.
  intros Hcs Hdec. unfold dwarf.analyze_debug_info_in_dwarf.
  m_bind. rewrite Hdec. m_bind. unfold logging at 1. cbv beta iota.
  m_bind. unfold dwarf.parse_dwarf_in_wasm. m_bind. unfold lift at 1.
  rewrite Hcs. reflexivity.
Qed.

Lemma analyze_without_code_section_witness :
  let guest := Demo.demo_guest 1024 64 in
  let w := Demo.demo_world 64 128 (Str.codes "[]") in
  let w1 := (dwarf.decode_dwarf guest Demo.demo_json_loads [1; 2] w).2 in
  dwarf.analyze_debug_info_in_dwarf guest Demo.demo_json_loads (fun _ => None)
    [1; 2] [0x00; 0x61; 0x73; 0x6D; 0x01; 0x00; 0x00; 0x00] [] w
  = (Raise AssertionError,
     mkWorld (memory w1) (instance w1) (trace w1)
             (log w1 ++ [Debug_wasm_offset_to_machine_code_offset ∅])).
Proof.
  intros guest w w1.
  apply (analyze_without_code_section guest Demo.demo_json_loads (fun _ => None)
           [1; 2] [0x00; 0x61; 0x73; 0x6D; 0x01; 0x00; 0x00; 0x00] [] w w1 ∅
           AssertionError); reflexivity.
Defined.

(** ** The disassembly text *)

Section disassembly_more.

Lemma codes_String (a : Ascii.ascii) (s : string) :
  Str.codes (String a s) = Z.of_N (Ascii.N_of_ascii a) :: Str.codes s.
Proof. reflexivity. Qed.

Lemma split_app_sep (sep : Z) (p r : list Z) :
  sep ∉ p -> Str.split sep (p ++ sep :: r) = p :: Str.split sep r.
Proof.
  induction p as [|c p IH]; intros Hp.
  - simpl. rewrite Z.eqb_refl. reflexivity.
  - apply not_elem_of_cons in Hp as [Hc Hp].
    cbn [app Str.split]. rewrite IH by assumption.
    destruct (Z.eqb_spec c sep) as [->|_]; [contradiction|reflexivity].
Qed.

Lemma split_without_sep (sep : Z) (p : list Z) :
  sep ∉ p -> Str.split sep p = [p].
Proof.
  induction p as [|c p IH]; intros Hp; [reflexivity|].
  apply not_elem_of_cons in Hp as [Hc Hp].
  cbn [Str.split]. rewrite IH by assumption.
  destruct (Z.eqb_spec c sep) as [->|_]; [contradiction|reflexivity].
Qed.

Lemma split_no_sep (sep : Z) (s : list Z) :
  Forall (fun l => sep ∉ l) (Str.split sep s).
Proof.
  induction s as [|c s IH]; cbn [Str.split].
  - apply Forall_cons_2; [apply not_elem_of_nil|apply Forall_nil_2].
  - destruct (Z.eqb_spec c sep) as [->|Hc].
    + apply Forall_cons_2; [apply not_elem_of_nil|assumption].
    + destruct (Str.split sep s) as [|p ps].
      * apply Forall_cons_2; [|apply Forall_nil_2].
        apply not_elem_of_cons; split; [congruence|apply not_elem_of_nil].
      * apply Forall_cons_1 in IH as [Hp Hps].
        apply Forall_cons_2; [|assumption].
        apply not_elem_of_cons; split; [congruence|assumption].
Qed.

Lemma split_join (sep : Z) (ls : list (list Z)) :
  ls <> [] -> Forall (fun l => sep ∉ l) ls ->
  Str.split sep (Str.join sep ls) = ls.
Proof.
  induction ls as [|l ls IH]; intros Hne Hall; [congruence|].
  apply Forall_cons_1 in Hall as [Hl Hls].
  destruct ls as [|l' ls].
  - simpl. apply split_without_sep, Hl.
  - change (Str.join sep (l :: l' :: ls))
      with (l ++ sep :: Str.join sep (l' :: ls)).
    rewrite split_app_sep by assumption.
    rewrite IH by (assumption || discriminate). reflexivity.
Qed.

Lemma replace_from_not_in (old new : list Z) (c : Z) (s : list Z) (k : nat) :
  c ∉ s -> c ∉ new -> c ∉ dis.replace_from old new k s.
Proof.
  intros Hs Hnew. revert k.
  induction s as [|a s IH]; intros k; [apply not_elem_of_nil|].
  apply not_elem_of_cons in Hs as [Ha Hs].
  cbn [dis.replace_from]. destruct k as [|k]; [|apply IH, Hs].
  destruct (Str.startswith (a :: s) old).
  - apply not_elem_of_app; split; [assumption|apply IH, Hs].
  - apply not_elem_of_cons; split; [assumption|apply IH, Hs].
Qed.

Lemma pretty_N_char_digit (n : N) :
  45 <= Z.of_N (Ascii.N_of_ascii (pretty_N_char n)) <= 57.
Proof.
  unfold pretty_N_char.
  repeat (match goal with
          | |- context [match ?x with _ => _ end] => destruct x
          end); vm_compute; split; discriminate.
Qed.

Lemma pretty_N_go_codes (x : N) (s : string) :
  Forall (fun c => 45 <= c <= 57) (Str.codes s) ->
  Forall (fun c => 45 <= c <= 57) (Str.codes (pretty_N_go x s)).
Proof.
  revert s. induction (N.lt_wf_0 x) as [x _ IH]; intros s Hs.
  destruct (N.eq_dec x 0) as [->|Hx].
  - rewrite pretty_N_go_0. assumption.
  - rewrite pretty_N_go_step by lia.
    apply IH; [apply N.div_lt; lia|].
    rewrite codes_String.
    apply Forall_cons_2; [apply pretty_N_char_digit|assumption].
Qed.

Lemma pretty_Z_codes (z : Z) :
  Forall (fun c => 45 <= c <= 57) (Str.codes (pretty z)).
Proof.
  assert (Hpos : forall p : positive,
             Forall (fun c => 45 <= c <= 57) (Str.codes (pretty p))).
  { intros p. unfold pretty, pretty_positive, pretty, pretty_N.
    destruct (decide (N.pos p = 0%N)); [discriminate|].
    apply pretty_N_go_codes. apply Forall_nil_2. }
  destruct z as [|p|p]; unfold pretty, pretty_Z.
  - vm_compute. apply Forall_cons_2; [split; discriminate|apply Forall_nil_2].
  - apply Hpos.
  - change (Str.codes ("-" +:+ pretty p)) with (45 :: Str.codes (pretty p)).
    apply Forall_cons_2; [lia|apply Hpos].
Qed.

Lemma function_body_one_line (c : Z) : 10 ∉ dis.function_body c.
Proof.
  unfold dis.function_body.
  rewrite !not_elem_of_app. split; [|split].
  - vm_compute. intros H.
    repeat (apply elem_of_cons in H as [H|H]; [discriminate|]).
    apply elem_of_nil in H. exact H.
  - intros H. pose proof (pretty_Z_codes c) as Hall.
    rewrite Forall_forall in Hall. apply Hall in H. lia.
  - vm_compute. intros H.
    repeat (apply elem_of_cons in H as [H|H]; [discriminate|]).
    apply elem_of_nil in H. exact H.
Qed.

Lemma marker_indices_cons (l : list Z) (ls : list (list Z)) (n : nat) :
  dis.marker_indices (l :: ls) (S n)
  = (if dis.contains dis.MARKER l then [0%nat] else [])
    ++ map S (dis.marker_indices ls n).
Proof.
  unfold dis.marker_indices.
  rewrite <- cons_seq, <- fmap_S_seq. cbn [List.filter].
  assert (Htail : List.filter (dis.marker_at (l :: ls)) (S <$> seq 0 n)
                  = map S (List.filter (dis.marker_at ls) (seq 0 n))).
  { induction (seq 0 n) as [|j js IH]; [reflexivity|].
    cbn [fmap list_fmap List.filter map].
    change (dis.marker_at (l :: ls) (S j)) with (dis.marker_at ls j).
    fold (@fmap list _ nat nat S js). rewrite IH.
    destruct (dis.marker_at ls j); reflexivity. }
  change (dis.marker_at (l :: ls) 0) with (dis.contains dis.MARKER l).
  rewrite Htail. destruct (dis.contains dis.MARKER l); reflexivity.
Qed.

Lemma body_name_from_pending (name : list Z) (names : list (list Z))
      (c : Z) (r : nat) :
  dis.body_name_from (name :: names) c (S r) = dis.body_name_from names c r.
Proof. reflexivity. Qed.

Lemma body_name_from_numbered (c : Z) (r : nat) :
  dis.body_name_from [] c (S r) = dis.body_name_from [] (c + 1) r.
Proof.
  unfold dis.body_name_from. cbn [lookup list_lookup length].
  f_equal. lia.
Qed.

(** One iteration on a line with the marker: the line gets the first
    pending name, or the next number when none is pending. *)
Lemma loop_body_marker (i : nat) (st : dis.locals) (line : list Z) :
  dis.dis_lines_list st !! i = Some line ->
  dis.contains dis.MARKER line = true ->
  exists st1,
    dis.loop_body i st = dis.Ok (true, st1)
    /\ dis.dis_lines_list st1
       = <[i := dis.replace line dis.MARKER
                  (dis.body_name_from (dis.pending st) (dis.cnt st) 0)]>
           (dis.dis_lines_list st)
    /\ ((exists name,
           dis.pending st = name :: dis.pending st1
           /\ dis.cnt st1 = dis.cnt st
           /\ dis.func_positions st1 = dis.func_positions st)
        \/ (dis.pending st = [] /\ dis.pending st1 = []
            /\ dis.cnt st1 = dis.cnt st + 1
            /\ dis.func_positions st1
               = dis.func_positions st ++ [Z.of_nat i])).
Proof.
  intros Hline Hmark. unfold dis.loop_body. rewrite Hline, Hmark.
  destruct st as [ls [|] pad ext c ps]; cbn [dis.need_to_replace_trap_handle
    dis.need_to_replace_landing_pad dis.need_to_replace_extension_request
    dis.cnt dis.func_positions dis.dis_lines_list].
  { eexists. split; [reflexivity|]. split; [reflexivity|].
    left. eexists. split; [reflexivity|]. split; reflexivity. }
  destruct pad.
  { eexists. split; [reflexivity|]. split; [reflexivity|].
    left. eexists. split; [reflexivity|]. split; reflexivity. }
  destruct ext.
  { eexists. split; [reflexivity|]. split; [reflexivity|].
    left. eexists. split; [reflexivity|]. split; reflexivity. }
  eexists. split; [reflexivity|]. split.
  { unfold dis.rename_body, dis.body_name_from. cbn.
    rewrite Z.add_0_r. reflexivity. }
  right. repeat split; reflexivity.
Qed.

Lemma contains_marker_nonempty (line : list Z) :
  dis.contains dis.MARKER line = true -> line <> [].
Proof. intros H ->. vm_compute in H. discriminate. Qed.

(** The loop, from any iteration on: [pre] are the lines already passed,
    [rest] the lines still to visit. *)
Lemma loop_spec (rest pre : list (list Z)) (st : dis.locals) :
  dis.dis_lines_list st = pre ++ rest ->
  exists st' rest',
    dis.loop (seq (length pre) (length rest)) st = dis.Ok st'
    /\ dis.dis_lines_list st' = pre ++ rest'
    /\ length rest' = length rest
    /\ (forall j line,
          rest !! j = Some line ->
          rest' !! j
          = Some (if dis.contains dis.MARKER line
                     && (j <? dis.first_empty rest)%nat
                  then dis.replace line dis.MARKER
                         (dis.body_name_from (dis.pending st) (dis.cnt st)
                            (length (dis.marker_indices rest j)))
                  else line))
    /\ dis.func_positions st'
       = dis.func_positions st
           ++ map (fun j => Z.of_nat (length pre + j))
                  (drop (length (dis.pending st))
                        (dis.marker_indices rest (dis.first_empty rest))
                   ++ (if (dis.first_empty rest <? length rest)%nat
                       then [dis.first_empty rest] else [])).
Proof.
  revert pre st. induction rest as [|l rest IH]; intros pre st Hst.
  { exists st, []. cbn [length seq dis.loop]. repeat split; try assumption.
    - intros j line Hj. discriminate.
    - cbn. rewrite drop_nil. cbn. rewrite app_nil_r. reflexivity. }
  assert (Hl : dis.dis_lines_list st !! length pre = Some l).
  { rewrite Hst. apply list_lookup_middle. reflexivity. }
  cbn [length seq dis.loop].
  destruct (dis.contains dis.MARKER l) eqn:Hmark.
  - (* a line with the marker *)
    destruct (loop_body_marker _ _ _ Hl Hmark) as (st1 & Hbody & Hls & Hcase).
    rewrite Hbody.
    pose proof (contains_marker_nonempty _ Hmark) as Hne.
    set (l' := dis.replace l dis.MARKER
                 (dis.body_name_from (dis.pending st) (dis.cnt st) 0)) in *.
    assert (Hst1 : dis.dis_lines_list st1 = (pre ++ [l']) ++ rest).
    { rewrite Hls, Hst. rewrite insert_app_r_alt by lia.
      rewrite Nat.sub_diag. cbn. rewrite <- app_assoc. reflexivity. }
    destruct (IH _ _ Hst1)
      as (st' & rest' & Hrun & Hout & Hlen & Hlines & Hpos).
    rewrite length_app in Hrun. cbn [length] in Hrun.
    rewrite Nat.add_1_r in Hrun.
    exists st', (l' :: rest'). split; [exact Hrun|].
    split; [rewrite Hout, <- app_assoc; reflexivity|].
    split; [cbn [length]; congruence|].
    assert (Hfe : dis.first_empty (l :: rest) = S (dis.first_empty rest)).
    { destruct l; [congruence|reflexivity]. }
    split.
    + intros [|j] line Hj.
      * cbn in Hj. injection Hj as <-. rewrite Hmark, Hfe. reflexivity.
      * cbn [lookup list_lookup] in Hj |- *.
        change (rest' !! j = Some
          (if dis.contains dis.MARKER line
              && (S j <? dis.first_empty (l :: rest))%nat
           then dis.replace line dis.MARKER
                  (dis.body_name_from (dis.pending st) (dis.cnt st)
                     (length (dis.marker_indices (l :: rest) (S j))))
           else line)).
        rewrite (Hlines _ _ Hj), Hfe, marker_indices_cons, Hmark.
        change (S j <? S (dis.first_empty rest))%nat
          with (j <? dis.first_empty rest)%nat.
        cbn [app length]. rewrite length_map.
        destruct Hcase as [(name & Hp & Hc & _)|(Hp & Hp1 & Hc & _)].
        -- rewrite Hp, Hc, body_name_from_pending. reflexivity.
        -- rewrite Hp, Hp1, Hc, body_name_from_numbered. reflexivity.
    + rewrite Hpos, Hfe, marker_indices_cons, Hmark.
      change (S (dis.first_empty rest) <? S (length rest))%nat
        with (dis.first_empty rest <? length rest)%nat.
      rewrite length_app. cbn [length app].
      destruct Hcase as [(name & Hp & _ & Hps)|(Hp & Hp1 & _ & Hps)].
      * rewrite Hp, Hps. cbn [length drop]. f_equal.
        rewrite <- fmap_drop. rewrite !map_app, !map_map.
        f_equal.
        -- apply map_ext. intros a. f_equal. lia.
        -- destruct (dis.first_empty rest <? length rest)%nat; [|reflexivity].
           cbn. do 2 f_equal. lia.
      * rewrite Hp, Hp1, Hps. cbn [length drop]. rewrite <- app_assoc.
        f_equal. cbn [app map]. rewrite Nat.add_0_r. f_equal.
        rewrite !map_app, !map_map. f_equal.
        -- apply map_ext. intros a. f_equal. lia.
        -- destruct (dis.first_empty rest <? length rest)%nat; [|reflexivity].
           cbn. do 2 f_equal. lia.
  - unfold dis.loop_body. rewrite Hl, Hmark.
    destruct l as [|c l].
    + (* the empty line: [break] *)
      eexists. exists ([] :: rest). split; [reflexivity|].
      cbn [dis.dis_lines_list dis.func_positions]. split; [assumption|].
      split; [reflexivity|]. split.
      * intros j line Hj. cbn [dis.first_empty].
        replace (j <? 0)%nat with false by (symmetry; apply Nat.ltb_ge; lia).
        rewrite andb_false_r. exact Hj.
      * cbn. rewrite drop_nil. cbn. rewrite Nat.add_0_r. reflexivity.
    + (* any other line is left as it is *)
      assert (Hst1 : dis.dis_lines_list st = (pre ++ [c :: l]) ++ rest).
      { rewrite Hst, <- app_assoc. reflexivity. }
      destruct (IH _ _ Hst1)
        as (st' & rest' & Hrun & Hout & Hlen & Hlines & Hpos).
      rewrite length_app in Hrun. cbn [length] in Hrun.
      rewrite Nat.add_1_r in Hrun.
      exists st', ((c :: l) :: rest'). split; [exact Hrun|].
      split; [rewrite Hout, <- app_assoc; reflexivity|].
      split; [cbn [length]; congruence|].
      split.
      * intros [|j] line Hj.
        -- cbn in Hj. injection Hj as <-. rewrite Hmark. reflexivity.
        -- cbn [lookup list_lookup] in Hj |- *.
           change (rest' !! j = Some
             (if dis.contains dis.MARKER line
                 && (S j <? dis.first_empty ((c :: l) :: rest))%nat
              then dis.replace line dis.MARKER
                     (dis.body_name_from (dis.pending st) (dis.cnt st)
                        (length (dis.marker_indices ((c :: l) :: rest) (S j))))
              else line)).
           rewrite (Hlines _ _ Hj), marker_indices_cons, Hmark.
           cbn [app dis.first_empty]. rewrite length_map.
           change (S j <? S (dis.first_empty rest))%nat
             with (j <? dis.first_empty rest)%nat.
           reflexivity.
      * rewrite Hpos. cbn [dis.first_empty].
        rewrite marker_indices_cons, Hmark.
        change (S (dis.first_empty rest) <? S (length rest))%nat
          with (dis.first_empty rest <? length rest)%nat.
        rewrite length_app. cbn [length app]. f_equal.
        rewrite <- fmap_drop. rewrite !map_app, !map_map. f_equal.
        -- apply map_ext. intros a. f_equal. lia.
        -- destruct (dis.first_empty rest <? length rest)%nat; [|reflexivity].
           cbn. do 2 f_equal. lia.
Qed.

Lemma pending_initial (lines : list (list Z)) (checks : list Z)
      (has_memory : bool) :
  dis.pending
    (dis.mkLocals lines true
       (bool_decide (checks = Str.codes "0"))
       (bool_decide (checks = Str.codes "1") && has_memory) 0 [])
  = dis.special_bodies checks has_memory.
Proof.
  unfold dis.pending, dis.special_bodies.
  cbn [dis.need_to_replace_trap_handle dis.need_to_replace_landing_pad
       dis.need_to_replace_extension_request].
  destruct (bool_decide_reflect (checks = Str.codes "0")) as [->|_].
  - rewrite bool_decide_eq_false_2 by (vm_compute; discriminate).
    reflexivity.
  - destruct (bool_decide (checks = Str.codes "1") && has_memory);
      reflexivity.
Qed.

Lemma special_bodies_one_line (checks : list Z) (has_memory : bool) :
  Forall (fun name => 10 ∉ name) (dis.special_bodies checks has_memory).
Proof.
  assert (Hconst : forall s : list Z,
             forallb (fun c => negb (c =? 10)) s = true -> 10 ∉ s).
  { intros s Hs Hin. rewrite forallb_forall in Hs.
    apply list_elem_of_In, Hs in Hin. discriminate. }
  unfold dis.special_bodies.
  apply Forall_cons_2; [apply Hconst; reflexivity|].
  destruct (bool_decide (checks = Str.codes "0")).
  - apply Forall_cons_2; [apply Hconst; reflexivity|apply Forall_nil_2].
  - destruct (bool_decide (checks = Str.codes "1") && has_memory).
    + apply Forall_cons_2; [apply Hconst; reflexivity|apply Forall_nil_2].
    + apply Forall_nil_2.
Qed.

Lemma body_name_from_one_line (names : list (list Z)) (c : Z) (r : nat) :
  Forall (fun name => 10 ∉ name) names ->
  10 ∉ dis.body_name_from names c r.
Proof.
  intros Hall. unfold dis.body_name_from.
  destruct (names !! r) as [name|] eqn:Hr.
  - rewrite Forall_lookup in Hall. exact (Hall _ _ Hr).
  - apply function_body_one_line.
Qed.

Lemma split_nonempty (sep : Z) (s : list Z) : Str.split sep s <> [].
Proof.
  destruct s as [|c s]; cbn [Str.split]; [discriminate|].
  destruct (c =? sep); [discriminate|].
  destruct (Str.split sep s); discriminate.
Qed.

(** What [process_dis_output] returns when the key is in the
    configuration: the lines of the text and the positions. *)
Lemma process_dis_output_outcome (dis_lines : list Z)
      (config : gmap (list Z) (list Z)) (has_memory : bool) (checks : list Z) :
  config !! dis.LINEAR_MEMORY_BOUNDS_CHECKS = Some checks ->
  let lines := Str.split 10 dis_lines in
  let specials := dis.special_bodies checks has_memory in
  exists text,
    dis.process_dis_output dis_lines config has_memory
    = dis.Ok (text,
              map Z.of_nat
                (drop (length specials)
                      (dis.marker_indices lines (dis.first_empty lines))
                 ++ (if (dis.first_empty lines <? length lines)%nat
                     then [dis.first_empty lines] else [])))
    /\ length (Str.split 10 text) = length lines
    /\ forall j line,
         lines !! j = Some line ->
         Str.split 10 text !! j
         = Some (if dis.contains dis.MARKER line
                    && (j <? dis.first_empty lines)%nat
                 then dis.replace line dis.MARKER
                        (dis.body_name specials
                           (length (dis.marker_indices lines j)))
                 else line).
Proof.
  intros Hkey lines specials. unfold dis.process_dis_output.
  rewrite Hkey. fold lines.
  set (st := dis.mkLocals lines true _ _ 0 []).
  destruct (loop_spec lines [] st eq_refl)
    as (st' & rest' & Hrun & Hout & Hlen & Hlines & Hpos).
  cbn [length] in Hrun. rewrite Hrun.
  cbn [app] in Hout. rewrite Hout.
  assert (Hp : dis.pending st = specials) by apply pending_initial.
  rewrite Hp in Hlines, Hpos.
  assert (Hsplit : Str.split 10 (Str.join 10 rest') = rest').
  { apply split_join.
    - intros ->. apply (split_nonempty 10 dis_lines).
      apply length_zero_iff_nil. fold lines. rewrite <- Hlen. reflexivity.
    - apply Forall_lookup. intros j x Hx.
      assert (Hj : is_Some (lines !! j)).
      { apply lookup_lt_is_Some. rewrite <- Hlen.
        apply lookup_lt_is_Some. eauto. }
      destruct Hj as [line Hj].
      rewrite (Hlines _ _ Hj) in Hx. injection Hx as <-.
      assert (Hline : 10 ∉ line).
      { pose proof (split_no_sep 10 dis_lines) as Hall.
        rewrite Forall_lookup in Hall. exact (Hall _ _ Hj). }
      destruct (dis.contains dis.MARKER line
                && (j <? dis.first_empty lines)%nat);
        [|assumption].
      apply replace_from_not_in; [assumption|].
      apply body_name_from_one_line, special_bodies_one_line. }
  exists (Str.join 10 rest'). rewrite Hsplit. split; [|split].
  - rewrite Hpos. cbn [dis.func_positions app st length].
    do 2 f_equal.
  - assumption.
  - exact Hlines.
Qed.

(** The rank of a marker line among the marker lines. *)
Lemma marker_indices_lookup (lines : list (list Z)) (m i j : nat) :
  dis.marker_indices lines m !! i = Some j ->
  (j < m)%nat /\ dis.marker_at lines j = true
  /\ length (dis.marker_indices lines j) = i.
Proof.
  unfold dis.marker_indices. revert i.
  induction m as [|m IH]; intros i Hi; [discriminate|].
  rewrite seq_S, List.filter_app in Hi. cbn [Nat.add List.filter] in Hi.
  destruct (decide (i < length (List.filter (dis.marker_at lines)
                                            (seq 0 m))))%nat
    as [Hlt|Hge].
  - rewrite lookup_app_l in Hi by assumption.
    destruct (IH _ Hi) as (? & ? & ?). split; [lia|]. split; assumption.
  - rewrite lookup_app_r in Hi by lia.
    destruct (dis.marker_at lines m) eqn:Hm; [|discriminate].
    destruct (i - length (List.filter (dis.marker_at lines) (seq 0 m)))%nat
      as [|d] eqn:Hd; [|discriminate].
    injection Hi as <-. split; [lia|]. split; [assumption|]. lia.
Qed.

(** X28: the text that [process_dis_output] returns.  Without the key
    [LINEAR_MEMORY_BOUNDS_CHECKS] in the configuration it raises [KeyError];
    with it, it returns.  The text has as many lines as the input; a line
    without the marker, and every line from the first empty line on, is
    unchanged; the marker line before the first empty line that has [r]
    marker lines before it has every marker replaced by the [r]-th name of:
    the trap handler, then the landing pad when the key is ["0"] or the
    extension request when it is ["1"] and the module has a memory (never
    both), then [Function[0] Body], [Function[1] Body], and so on. *)
Theorem process_dis_output_text (dis_lines : list Z)
        (config : gmap (list Z) (list Z)) (has_memory : bool) :
  let lines := Str.split 10 dis_lines in
  match config !! dis.LINEAR_MEMORY_BOUNDS_CHECKS with
  | None =>
      dis.process_dis_output dis_lines config has_memory
      = dis.Raise (dis.KeyError dis.LINEAR_MEMORY_BOUNDS_CHECKS)
  | Some checks =>
      exists text positions,
        dis.process_dis_output dis_lines config has_memory
        = dis.Ok (text, positions)
        /\ length (Str.split 10 text) = length lines
        /\ forall j line,
             lines !! j = Some line ->
             Str.split 10 text !! j
             = Some (if dis.contains dis.MARKER line
                        && (j <? dis.first_empty lines)%nat
                     then dis.replace line dis.MARKER
                            (dis.body_name
                               (dis.special_bodies checks has_memory)
                               (length (dis.marker_indices lines j)))
                     else line)
  end.
Proof.
  intros lines.
  destruct (config !! dis.LINEAR_MEMORY_BOUNDS_CHECKS) as [checks|] eqn:Hkey.
  - destruct (process_dis_output_outcome dis_lines _ has_memory _ Hkey)
      as (text & Hrun & Hlen & Hlines).
    exists text. eexists. split; [exact Hrun|]. split; assumption.
  - unfold dis.process_dis_output. rewrite Hkey. reflexivity.
Qed.

(** X29: the positions that [process_dis_output] returns.  They are the
    indices of the marker lines before the first empty line, without the
    first one or two (those named as special bodies), followed by the index
    of the first empty line when there is one.  The numbering follows the
    list: the [n]-th position, when it is not the empty line, is the line
    whose marker has become [Function[n] Body]. *)
Theorem process_dis_output_positions (dis_lines : list Z)
        (config : gmap (list Z) (list Z)) (has_memory : bool)
        (checks text : list Z) (positions : list Z) :
  config !! dis.LINEAR_MEMORY_BOUNDS_CHECKS = Some checks ->
  dis.process_dis_output dis_lines config has_memory
  = dis.Ok (text, positions) ->
  let lines := Str.split 10 dis_lines in
  positions
  = map Z.of_nat
      (drop (length (dis.special_bodies checks has_memory))
            (dis.marker_indices lines (dis.first_empty lines))
       ++ (if (dis.first_empty lines <? length lines)%nat
           then [dis.first_empty lines] else []))
  /\ forall (n j : nat),
       positions !! n = Some (Z.of_nat j) ->
       (j < dis.first_empty lines)%nat ->
       exists line,
         lines !! j = Some line
         /\ Str.split 10 text !! j
            = Some (dis.replace line dis.MARKER
                      (dis.function_body (Z.of_nat n))).
Proof.
  intros Hkey Hrun lines.
  destruct (process_dis_output_outcome dis_lines _ has_memory _ Hkey)
    as (text' & Hrun' & Hlen & Hlines).
  fold lines in Hrun', Hlines.
  set (specials := dis.special_bodies checks has_memory) in *.
  set (marked := dis.marker_indices lines (dis.first_empty lines)) in *.
  set (expected := map Z.of_nat _) in Hrun' |- *.
  rewrite Hrun in Hrun'. injection Hrun' as <- Hpos.
  split; [exact Hpos|].
  intros n j Hn Hj.
  rewrite Hpos in Hn. unfold expected in Hn.
  rewrite list_lookup_fmap in Hn.
  destruct ((drop (length specials) marked
             ++ (if (dis.first_empty lines <? length lines)%nat
                 then [dis.first_empty lines] else [])) !! n)
    as [j'|] eqn:Hn'; [|discriminate Hn].
  cbn in Hn. assert (j' = j) as -> by (apply Nat2Z.inj; congruence). clear Hn.
  assert (Hdrop : drop (length specials) marked !! n = Some j).
  { apply lookup_app_Some in Hn' as [Hl|[_ Hr]]; [assumption|].
    destruct (dis.first_empty lines <? length lines)%nat.
    - apply list_lookup_singleton_Some in Hr as [_ <-]. lia.
    - rewrite lookup_nil in Hr. discriminate. }
  rewrite lookup_drop in Hdrop.
  apply marker_indices_lookup in Hdrop as (_ & Hat & Hrank).
  unfold dis.marker_at in Hat.
  destruct (lines !! j) as [line|] eqn:Hline; [|discriminate].
  exists line. split; [reflexivity|].
  rewrite (Hlines _ _ Hline), Hat.
  apply Nat.ltb_lt in Hj. rewrite Hj. cbn [andb].
  rewrite Hrank. unfold dis.body_name, dis.body_name_from.
  rewrite lookup_ge_None_2 by lia.
  do 3 f_equal. lia.
Qed.

Lemma process_dis_output_positions_witness :
  let dis_lines := Str.codes "; code
00: Function or wrapper body, padded to 4B
10: Function or wrapper body, padded to 4B
20: Function or wrapper body, padded to 4B
24: nop

30: Function or wrapper body, padded to 4B" in
  let config : gmap (list Z) (list Z) :=
    {[ dis.LINEAR_MEMORY_BOUNDS_CHECKS := Str.codes "0" ]} in
  let text := Str.codes "; code
00: GenericTrapHandler Body
10: LandingPad Body
20: Function[0] Body
24: nop

30: Function or wrapper body, padded to 4B" in
  dis.process_dis_output dis_lines config false = dis.Ok (text, [3; 5])
  /\ Str.split 10 text !! 3%nat = Some (Str.codes "20: Function[0] Body").
Proof.
  intros dis_lines config text.
  assert (Hkey : config !! dis.LINEAR_MEMORY_BOUNDS_CHECKS
                 = Some (Str.codes "0")) by (vm_compute; reflexivity).
  assert (Hrun : dis.process_dis_output dis_lines config false
                 = dis.Ok (text, [3; 5])) by (vm_compute; reflexivity).
  split; [exact Hrun|].
  destruct (process_dis_output_positions dis_lines config false
              (Str.codes "0") text [3; 5] Hkey Hrun) as [_ Hnum].
  destruct (Hnum 0%nat 3%nat) as (line & Hline & Hout).
  - reflexivity.
  - vm_compute. lia.
  - vm_compute in Hline. injection Hline as <-.
    rewrite Hout. vm_compute. reflexivity.
Defined.

Lemma contains_sep (sep : Z) (s : list Z) :
  dis.contains [sep] s = true <-> sep ∈ s.
Proof.
  induction s as [|c s IH]; cbn [dis.contains Str.startswith].
  - split; [discriminate|]. intros H. apply elem_of_nil in H. contradiction.
  - rewrite elem_of_cons, orb_true_iff, IH.
    assert (Hs : Str.startswith s [] = true) by (destruct s; reflexivity).
    rewrite Hs, andb_true_r.
    destruct (Z.eqb_spec c sep) as [->|Hc]; split; intros [H|H];
      auto; congruence.
Qed.

(** The first part of a text split on [sep]. *)
Lemma split_first_part (sep : Z) (s : list Z) :
  exists part tail parts,
    Str.split sep s = part :: parts
    /\ s = part ++ tail /\ (sep ∉ part)
    /\ (tail = [] \/ head tail = Some sep).
Proof.
  destruct (decide (sep ∈ s)) as [Hin|Hout].
  - apply list_elem_of_split_l in Hin as (part & rest & -> & Hpart).
    exists part, (sep :: rest), (Str.split sep rest).
    rewrite split_app_sep by assumption. repeat split; auto.
  - exists s, [], []. rewrite split_without_sep by assumption.
    rewrite app_nil_r. repeat split; auto.
Qed.

Lemma part_unique (sep : Z) (a a' t t' : list Z) :
  a ++ t = a' ++ t' ->
  sep ∉ a -> sep ∉ a' ->
  (t = [] \/ head t = Some sep) -> (t' = [] \/ head t' = Some sep) ->
  a = a'.
Proof.
  revert a'. induction a as [|c a IH]; intros [|c' a'] Heq Ha Ha' Ht Ht'.
  - reflexivity.
  - exfalso. cbn in Heq. destruct Ht as [->|Ht]; [discriminate|].
    subst t. cbn in Ht. injection Ht as ->.
    apply Ha'. apply elem_of_cons. left. reflexivity.
  - exfalso. cbn in Heq. destruct Ht' as [->|Ht']; [discriminate|].
    subst t'. cbn in Ht'. injection Ht' as ->.
    apply Ha. apply elem_of_cons. left. reflexivity.
  - cbn in Heq. injection Heq as -> Heq.
    apply not_elem_of_cons in Ha as [_ Ha].
    apply not_elem_of_cons in Ha' as [_ Ha'].
    f_equal. eapply IH; eassumption.
Qed.

Lemma sets_key_unique (item key key' : list Z) :
  dis.sets_key item key -> dis.sets_key item key' -> key = key'.
Proof.
  intros (rest & -> & Hk) (rest' & Heq & Hk').
  eapply (part_unique 61); try eassumption; right; reflexivity.
Qed.

Lemma field_sets_key (item key value : list Z) :
  dis.field item key value -> dis.sets_key item key.
Proof.
  intros (tail & -> & Hk & _). eexists. split; [reflexivity|assumption].
Qed.

Lemma field_unique (item key value key' value' : list Z) :
  dis.field item key value -> dis.field item key' value' ->
  key = key' /\ value = value'.
Proof.
  intros Hf Hf'.
  assert (key = key') as <-
      by (eapply sets_key_unique; eapply field_sets_key; eassumption).
  split; [reflexivity|].
  destruct Hf as (tail & -> & _ & Hv & Ht).
  destruct Hf' as (tail' & Heq & _ & Hv' & Ht').
  apply app_inv_head in Heq. injection Heq as Heq.
  eapply (part_unique 61); eassumption.
Qed.

Lemma sets_key_contains (item key : list Z) :
  dis.sets_key item key -> dis.contains [61] item = true.
Proof.
  intros (rest & -> & _). apply contains_sep.
  apply elem_of_app. right. apply elem_of_cons. left. reflexivity.
Qed.

(** One item: it is skipped when it has no [=]; otherwise it is a field,
    and the field is stored.  The two indexings cannot fail. *)
Lemma parse_config_item_outcome (config : gmap (list Z) (list Z))
      (item : list Z) :
  (dis.contains [61] item = false
   /\ dis.parse_config_item config item = dis.Ok config)
  \/ (exists key value,
        dis.field item key value
        /\ dis.parse_config_item config item
           = dis.Ok (<[key := value]> config)).
Proof.
  unfold dis.parse_config_item.
  destruct (dis.contains [61] item) eqn:Hc; [right|left; auto].
  apply contains_sep, list_elem_of_split_l in Hc as (key & rest & -> & Hkey).
  rewrite split_app_sep by assumption.
  destruct (split_first_part 61 rest)
    as (value & tail & parts & Hsplit & -> & Hvalue & Htail).
  rewrite Hsplit. exists key, value. split; [|reflexivity].
  exists tail. repeat split; assumption.
Qed.

Lemma parse_config_loop_outcome (items : list (list Z))
      (config : gmap (list Z) (list Z)) :
  exists config',
    dis.parse_config_loop items config = dis.Ok config'
    /\ (forall key,
          is_Some (config' !! key) <->
          is_Some (config !! key)
          \/ exists item, item ∈ items /\ dis.sets_key item key)
    /\ (forall key value,
          config' !! key = Some value <->
          (exists (j : nat) item,
             items !! j = Some item /\ dis.field item key value
             /\ forall (j' : nat) item',
                  (j < j')%nat -> items !! j' = Some item' ->
                  ~ dis.sets_key item' key)
          \/ (config !! key = Some value
              /\ forall item, item ∈ items -> ~ dis.sets_key item key)).
Proof.
  revert config. induction items as [|it items IH]; intros config.
  { exists config. split; [reflexivity|]. split.
    - intros key. split; [auto|]. intros [H|(item & Hin & _)]; [assumption|].
      apply elem_of_nil in Hin. contradiction.
    - intros key value. split.
      + intros H. right. split; [assumption|].
        intros item Hin. apply elem_of_nil in Hin. contradiction.
      + intros [(j & item & Hj & _)|[H _]]; [discriminate|assumption]. }
  cbn [dis.parse_config_loop].
  destruct (parse_config_item_outcome config it)
    as [[Hc Hitem]|(k0 & v0 & Hfield & Hitem)]; rewrite Hitem.
  - (* an item without [=] *)
    assert (Hno : forall key, ~ dis.sets_key it key).
    { intros key Hs. apply sets_key_contains in Hs. congruence. }
    destruct (IH config) as (config' & Hrun & Hkeys & Hvals).
    exists config'. split; [assumption|]. split.
    + intros key. rewrite Hkeys. split.
      * intros [H|(item & Hin & Hs)]; [auto|].
        right. exists item. split; [apply elem_of_cons; auto|assumption].
      * intros [H|(item & Hin & Hs)]; [auto|].
        apply elem_of_cons in Hin as [->|Hin]; [destruct (Hno _ Hs)|].
        right. eauto.
    + intros key value. rewrite Hvals. split.
      * intros [(j & item & Hj & Hf & Hlater)|[Hcfg Hnone]].
        -- left. exists (S j), item. split; [exact Hj|]. split; [exact Hf|].
           intros [|j'] item' Hlt Hj'; [lia|].
           apply (Hlater j'); [lia|exact Hj'].
        -- right. split; [assumption|]. intros item Hin.
           apply elem_of_cons in Hin as [->|Hin]; [apply Hno|auto].
      * intros [(j & item & Hj & Hf & Hlater)|[Hcfg Hnone]].
        -- destruct j as [|j].
           { cbn in Hj. injection Hj as <-.
             destruct (Hno _ (field_sets_key _ _ _ Hf)). }
           left. exists j, item. split; [exact Hj|]. split; [exact Hf|].
           intros j' item' Hlt Hj'. apply (Hlater (S j')); [lia|exact Hj'].
        -- right. split; [assumption|]. intros item Hin.
           apply Hnone, elem_of_cons. auto.
  - (* a field: it is stored, over what was there *)
    pose proof (field_sets_key _ _ _ Hfield) as Hsets.
    destruct (IH (<[k0 := v0]> config)) as (config' & Hrun & Hkeys & Hvals).
    exists config'. split; [assumption|]. split.
    + intros key. rewrite Hkeys. split.
      * intros [H|(item & Hin & Hs)].
        -- destruct (decide (k0 = key)) as [<-|Hne].
           ++ right. exists it. split; [apply elem_of_cons; auto|assumption].
           ++ rewrite lookup_insert_ne in H by assumption. auto.
        -- right. exists item. split; [apply elem_of_cons; auto|assumption].
      * intros [H|(item & Hin & Hs)].
        -- left. destruct (decide (k0 = key)) as [<-|Hne].
           ++ rewrite lookup_insert_eq. eauto.
           ++ rewrite lookup_insert_ne by assumption. assumption.
        -- apply elem_of_cons in Hin as [->|Hin]; [|right; eauto].
           left. rewrite (sets_key_unique _ _ _ Hs Hsets), lookup_insert_eq.
           eauto.
    + intros key value. rewrite Hvals. split.
      * intros [(j & item & Hj & Hf & Hlater)|[Hcfg Hnone]].
        -- left. exists (S j), item. split; [exact Hj|]. split; [exact Hf|].
           intros [|j'] item' Hlt Hj'; [lia|].
           apply (Hlater j'); [lia|exact Hj'].
        -- destruct (decide (k0 = key)) as [<-|Hne].
           ++ rewrite lookup_insert_eq in Hcfg. injection Hcfg as <-.
              left. exists 0%nat, it. split; [reflexivity|].
              split; [assumption|].
              intros [|j'] item' Hlt Hj'; [lia|].
              apply Hnone. eapply list_elem_of_lookup_2. exact Hj'.
           ++ rewrite lookup_insert_ne in Hcfg by assumption.
              right. split; [assumption|]. intros item Hin.
              apply elem_of_cons in Hin as [->|Hin]; [|auto].
              intros Hs. apply Hne. eapply sets_key_unique; eassumption.
      * intros [(j & item & Hj & Hf & Hlater)|[Hcfg Hnone]].
        -- destruct j as [|j].
           ++ cbn in Hj. injection Hj as <-.
              destruct (field_unique _ _ _ _ _ Hf Hfield) as [-> ->].
              right. split; [apply lookup_insert_eq|].
              intros item Hin.
              apply list_elem_of_lookup_1 in Hin as [j' Hj'].
              apply (Hlater (S j')); [lia|exact Hj'].
           ++ left. exists j, item. split; [exact Hj|]. split; [exact Hf|].
              intros j' item' Hlt Hj'. apply (Hlater (S j')); [lia|exact Hj'].
        -- right. split.
           ++ rewrite lookup_insert_ne; [assumption|].
              intros <-.
              apply (Hnone it); [apply elem_of_cons; auto|assumption].
           ++ intros item Hin. apply Hnone, elem_of_cons. auto.
Qed.

(** X30: the configuration that [parse_config_str] builds.  Its two
    indexings cannot fail: the only exception it raises is the
    [AssertionError] of its last line, exactly when no item sets the key
    [BACKEND].  When it returns, a key maps to a value exactly when some
    space-separated item has the form [key=value] or [key=value=...] and no
    later item sets the same key: the last item wins, and what follows a
    second [=] is dropped. *)
Theorem parse_config_str_fields (config_str : list Z) :
  let items := Str.split 32 config_str in
  match dis.parse_config_str config_str with
  | dis.Ok config =>
      (exists item, item ∈ items /\ dis.sets_key item dis.BACKEND)
      /\ forall key value,
           config !! key = Some value <->
           exists (j : nat) item,
             items !! j = Some item /\ dis.field item key value
             /\ forall (j' : nat) item',
                  (j < j')%nat -> items !! j' = Some item' ->
                  ~ dis.sets_key item' key
  | dis.Raise e =>
      e = dis.AssertionError
      /\ forall item, item ∈ items -> ~ dis.sets_key item dis.BACKEND
  end.
Proof.
  intros items. unfold dis.parse_config_str. fold items.
  destruct (parse_config_loop_outcome items ∅)
    as (config & Hrun & Hkeys & Hvals).
  rewrite Hrun.
  destruct (bool_decide_reflect (is_Some (config !! dis.BACKEND)))
    as [Hb|Hb].
  - split.
    + apply Hkeys in Hb as [[v Hv]|Hitem]; [|assumption].
      rewrite lookup_empty in Hv. discriminate.
    + intros key value. rewrite Hvals. split.
      * intros [H|[Hempty _]]; [assumption|].
        rewrite lookup_empty in Hempty. discriminate.
      * auto.
  - split; [reflexivity|]. intros item Hin Hs.
    apply Hb, Hkeys. right. eauto.
Qed.

End disassembly_more.
